(** * Useeplus SuperCamera capture engine: frame reassembly and frame ring

    A shallow embedding of [src/useeplus_camera.c] (declarations from
    [include/useeplus_camera.h]): the frame reassembler [process_data], the
    blocking reader [camera_read_frame], the streaming controller
    [camera_start_streaming] / [camera_stop_streaming] and
    [camera_get_stats], followed by the properties of the ring that the
    specification states about them.

    Around this core the file embeds the capture thread
    [read_thread_proc], the switch of the debug log
    ([init_debug_logging], [camera_set_debug_logging],
    [camera_is_debug_logging_enabled] and the guard of [debug_log]), the
    device discovery [camera_enumerate], [camera_open_path],
    [camera_open] and [camera_get_error], and from
    [examples/live_viewer.cpp] the smoothing ring between
    [CameraReadThread] and the paint handler.  Their properties follow
    those of the specification, from the section on the capture thread on.

    Conventions of the embedding.
    - A byte is a [Z]; a C buffer is the [list Z] of all its bytes, of the
      length it was allocated with.  [frame->size] is the logical size; the
      bytes behind it are whatever earlier writes left there.
    - [NULL] pointers are [None].
    - Undefined behaviour (an access outside a block or outside the
      [frames] array) is the result [None] of the [option] monad, so that a
      theorem that gives [Some] also says that no such access happened.
    - The outcomes of the calls into the C runtime and WinUSB are arguments
      of the functions that make them ([allocator], [usb_env],
      [wait_result], [log_env], [open_env], [setup_env]).
    - The calls to [debug_log] and [OutputDebugStringA], and the static
      [packet_count] that only throttles the latter, write no state of the
      engine and are left out; so are the WinUSB calls whose result the
      code ignores (abort, flush and reset of the pipes) and the [Sleep]s.
      Of the debug log the file keeps the switch and whether the log file
      is open, not what is written to it.
    - Device paths and the value of an environment variable are lists of
      bytes; a C string in a block ends at its first NUL. *)

From Stdlib Require Import HexadecimalString.
From stdpp Require Import base numbers list option strings pretty.

Local Open Scope Z_scope.

(** ** Status codes and protocol constants *)

Definition CAMERA_SUCCESS : Z := 0.
Definition CAMERA_ERROR_NOT_FOUND : Z := -1.
Definition CAMERA_ERROR_OPEN_FAILED : Z := -2.
Definition CAMERA_ERROR_INIT_FAILED : Z := -3.
Definition CAMERA_ERROR_NO_FRAME : Z := -4.
Definition CAMERA_ERROR_BUFFER_SMALL : Z := -5.
Definition CAMERA_ERROR_INVALID_PARAM : Z := -6.
Definition CAMERA_ERROR_USB_FAILED : Z := -7.
Definition CAMERA_ERROR_TIMEOUT : Z := -8.

Definition CONNECT_CMD_SIZE : Z := 5.
Definition BUFFER_SIZE : Z := 64 * 1024.
Definition MAX_FRAMES : Z := 12.

(** The three [const int] locals of [process_data]. *)
Definition HEADER_SIZE : Z := 12.
Definition MIN_JPEG_SIZE : Z := 1000.
Definition MAX_JPEG_SIZE : Z := BUFFER_SIZE - 4096.

(** [unsigned int] increment. *)
Definition uint_incr (x : Z) : Z := (x + 1) mod 2 ^ 32.

(** ** Memory blocks *)

(** [p[i]]: [None] outside the block. *)
Definition rd (p : list Z) (i : Z) : option Z :=
  if 0 <=? i then p !! Z.to_nat i else None.

(** [malloc(n)].  The heap oracle [junk] is [None] when the allocation
    fails and otherwise supplies the (arbitrary) initial bytes of the block,
    which has exactly [n] bytes. *)
Definition malloc (junk : option (list Z)) (n : Z) : option (list Z) :=
  match junk with
  | None => None
  | Some b => Some (resize (Z.to_nat n) 0 b)
  end.

(** The [n] bytes at [src + off]; [None] when they are not all inside [src]. *)
Definition bytes_at (src : list Z) (off n : Z) : option (list Z) :=
  if (0 <=? off) && (0 <=? n) && (off + n <=? Z.of_nat (length src))
  then Some (take (Z.to_nat n) (drop (Z.to_nat off) src))
  else None.

(** [memcpy(dst + off, src, n)]: the block [dst] after the call; [None]
    when the source has fewer than [n] bytes or the write leaves [dst]. *)
Definition memcpy (dst : list Z) (off : Z) (src : list Z) (n : Z) : option (list Z) :=
  match bytes_at src 0 n with
  | None => None
  | Some s =>
      if (0 <=? off) && (off + n <=? Z.of_nat (length dst))
      then Some (take (Z.to_nat off) dst ++ s ++ drop (Z.to_nat (off + n)) dst)
      else None
  end.

(** ** Data model *)

Record camera_frame := mk_frame {
  data : option (list Z);
  size : Z;
  capacity : Z;
  ready : bool
}.

Definition set_data (f : camera_frame) (d : option (list Z)) : camera_frame :=
  mk_frame d (size f) (capacity f) (ready f).
Definition set_size (f : camera_frame) (n : Z) : camera_frame :=
  mk_frame (data f) n (capacity f) (ready f).
Definition set_capacity (f : camera_frame) (n : Z) : camera_frame :=
  mk_frame (data f) (size f) n (ready f).
Definition set_ready (f : camera_frame) (r : bool) : camera_frame :=
  mk_frame (data f) (size f) (capacity f) r.

(** [camera_device_t] without the USB handles and the device path.  Handles
    and events are kept as the one bit the engine tests: a thread handle is
    non-[NULL], an event is signalled. *)
Record camera_device := mk_device {
  streaming : bool;
  read_thread : bool;
  stop_event : bool;
  frames : list camera_frame;
  write_frame : Z;
  read_frame : Z;
  frame_ready_event : bool;
  frames_captured : Z;
  frames_dropped : Z
}.

Definition set_streaming (d : camera_device) (b : bool) : camera_device :=
  mk_device b (read_thread d) (stop_event d) (frames d) (write_frame d)
    (read_frame d) (frame_ready_event d) (frames_captured d) (frames_dropped d).
Definition set_read_thread (d : camera_device) (b : bool) : camera_device :=
  mk_device (streaming d) b (stop_event d) (frames d) (write_frame d)
    (read_frame d) (frame_ready_event d) (frames_captured d) (frames_dropped d).
Definition set_stop_event (d : camera_device) (b : bool) : camera_device :=
  mk_device (streaming d) (read_thread d) b (frames d) (write_frame d)
    (read_frame d) (frame_ready_event d) (frames_captured d) (frames_dropped d).
Definition set_frames (d : camera_device) (fs : list camera_frame) : camera_device :=
  mk_device (streaming d) (read_thread d) (stop_event d) fs (write_frame d)
    (read_frame d) (frame_ready_event d) (frames_captured d) (frames_dropped d).
Definition set_write_frame (d : camera_device) (i : Z) : camera_device :=
  mk_device (streaming d) (read_thread d) (stop_event d) (frames d) i
    (read_frame d) (frame_ready_event d) (frames_captured d) (frames_dropped d).
Definition set_read_frame (d : camera_device) (i : Z) : camera_device :=
  mk_device (streaming d) (read_thread d) (stop_event d) (frames d) (write_frame d)
    i (frame_ready_event d) (frames_captured d) (frames_dropped d).
Definition set_frame_ready_event (d : camera_device) (b : bool) : camera_device :=
  mk_device (streaming d) (read_thread d) (stop_event d) (frames d) (write_frame d)
    (read_frame d) b (frames_captured d) (frames_dropped d).
Definition set_frames_captured (d : camera_device) (n : Z) : camera_device :=
  mk_device (streaming d) (read_thread d) (stop_event d) (frames d) (write_frame d)
    (read_frame d) (frame_ready_event d) n (frames_dropped d).
Definition set_frames_dropped (d : camera_device) (n : Z) : camera_device :=
  mk_device (streaming d) (read_thread d) (stop_event d) (frames d) (write_frame d)
    (read_frame d) (frame_ready_event d) (frames_captured d) n.

(** [dev->frames[i]] as an rvalue, and [dev->frames[i] = f]. *)
Definition frame_at (d : camera_device) (i : Z) : option camera_frame :=
  if 0 <=? i then frames d !! Z.to_nat i else None.
Definition store_frame (d : camera_device) (i : Z) (f : camera_frame) : camera_device :=
  set_frames d (<[Z.to_nat i := f]> (frames d)).

(** The zeroed frame slot and the device as [calloc] in [camera_open_path]
    leaves it: no buffer, both indices and both counters zero. *)
Definition empty_frame : camera_frame := mk_frame None 0 0 false.
Definition opened_device : camera_device :=
  mk_device false false false (replicate (Z.to_nat MAX_FRAMES) empty_frame)
    0 0 false 0 0.

(** ** Frame reassembler: [process_data] *)

(** The heap oracle of one [process_data] call, one field per [malloc]
    call site; each site is reached at most once per call. *)
Record allocator := mk_allocator {
  alloc_frame : option (list Z);   (* frame->data = malloc(BUFFER_SIZE), first use of the write slot *)
  alloc_leftover : bool;           (* leftover_data = malloc(leftover) succeeds *)
  alloc_next : option (list Z)     (* frame->data = malloc(BUFFER_SIZE), first use of the next slot *)
}.

(** [length >= 3 && data[0] == 0xaa && data[1] == 0xbb && data[2] == 0x07] *)
Definition has_magic (pkt : list Z) : bool :=
  match pkt with
  | d0 :: d1 :: d2 :: _ => (d0 =? 0xaa) && (d1 =? 0xbb) && (d2 =? 0x07)
  | _ => false
  end.

(** [n >= 2 && p[0] == 0xFF && p[1] == 0xD8] for a block [p] of [n] bytes. *)
Definition starts_with_soi (p : list Z) : bool :=
  match p with
  | p0 :: p1 :: _ => (p0 =? 0xFF) && (p1 =? 0xD8)
  | _ => false
  end.

(** [frame->data[i-1] == 0xFF && frame->data[i] == 0xD9] *)
Definition is_eoi_at (buf : list Z) (i : Z) : option bool :=
  a ← rd buf (i - 1);
  if a =? 0xFF then b ← rd buf i; Some (b =? 0xD9) else Some false.

(** [complete_frame_size >= MIN_JPEG_SIZE && frame->data[0] == 0xFF &&
    frame->data[1] == 0xD8] *)
Definition is_complete_jpeg (buf : list Z) (complete_frame_size : Z) : option bool :=
  if MIN_JPEG_SIZE <=? complete_frame_size then
    a ← rd buf 0;
    if a =? 0xFF then b ← rd buf 1; Some (b =? 0xD8) else Some false
  else Some false.

(** The loop [for (i = 1; i < frame->size; i++)] up to its [break]: [n]
    is the number of iterations left, so the loop is entered with
    [n = frame->size - 1] and [i = 1].  The result is the [i] at which the
    body reaches the [break], or [None] when the loop runs to its end. *)
Fixpoint find_eoi (n : nat) (buf : list Z) (i : Z) : option (option Z) :=
  match n with
  | O => Some None
  | S n' =>
      hit ← is_eoi_at buf i;
      if hit : bool then
        ok ← is_complete_jpeg buf (i + 1);
        if ok : bool then Some (Some i) else find_eoi n' buf (i + 1)
      else find_eoi n' buf (i + 1)
  end.

(** The safety check behind the loop:
    [if (frame->size > MAX_JPEG_SIZE && !frame->ready)]. *)
Definition safety_check (f : camera_frame) : camera_frame :=
  if (MAX_JPEG_SIZE <? size f) && negb (ready f)
  then set_ready (set_size f 0) false
  else f.

(** [if (!frame->data) { frame->data = malloc(BUFFER_SIZE); ... }] on the
    next slot: the slot and its block, [None] when [malloc] fails. *)
Definition alloc_next_slot (al : allocator) (f : camera_frame)
  : option (camera_frame * list Z) :=
  match data f with
  | Some b => Some (f, b)
  | None =>
      match malloc (alloc_next al) BUFFER_SIZE with
      | None => None
      | Some b => Some (set_capacity (set_data f (Some b)) BUFFER_SIZE, b)
      end
  end.

(** The body of the loop once the end of a JPEG is found at [i], from
    "Calculate leftover data" to the [break], and the safety check that the
    function then runs on [frame], by now the next slot.  [frame] is the
    write slot with the payload appended (not yet stored back in [dev]) and
    [buf] its block. *)
Definition complete_frame (al : allocator) (dev : camera_device)
    (frame : camera_frame) (buf : list Z) (i : Z) : option camera_device :=
  let complete_frame_size := i + 1 in
  let leftover := size frame - complete_frame_size in
  leftover_data ←
    (if (0 <? leftover) && (leftover <? BUFFER_SIZE) && alloc_leftover al
     then Some <$> bytes_at buf complete_frame_size leftover
     else Some None);
  let frame := set_ready (set_size frame complete_frame_size) true in
  let dev := store_frame dev (write_frame dev) frame in
  let dev := set_frames_captured dev (uint_incr (frames_captured dev)) in
  let dev := set_frame_ready_event dev true in
  let next_write := Z.rem (write_frame dev + 1) MAX_FRAMES in
  overwriting ←
    (if next_write =? read_frame dev
     then ready <$> frame_at dev (read_frame dev)
     else Some false);
  let dev :=
    if overwriting : bool
    then set_read_frame (set_frames_dropped dev (uint_incr (frames_dropped dev)))
           (Z.rem (read_frame dev + 1) MAX_FRAMES)
    else dev in
  let dev := set_write_frame dev next_write in
  frame ← frame_at dev (write_frame dev);
  match alloc_next_slot al frame with
  | None => Some dev
  | Some (frame, nbuf) =>
      frame ←
        match leftover_data with
        | Some ld =>
            if (2 <=? leftover) && starts_with_soi ld
            then nb ← memcpy nbuf 0 ld leftover;
                 Some (set_size (set_data frame (Some nb)) leftover)
            else Some (set_size frame 0)
        | None => Some (set_size frame 0)
        end;
      let frame := set_ready frame false in
      Some (store_frame dev (write_frame dev) (safety_check frame))
  end.

(** [if (!frame->data) { ... }] on the write slot: [None] when [malloc]
    fails (the function then returns). *)
Definition alloc_write_slot (al : allocator) (f : camera_frame) : option camera_frame :=
  match data f with
  | Some _ => Some f
  | None =>
      match malloc (alloc_frame al) BUFFER_SIZE with
      | None => None
      | Some b => Some (mk_frame (Some b) 0 BUFFER_SIZE false)
      end
  end.

(** "New JPEG starting - if we have incomplete frame, discard it". *)
Definition discard_incomplete (f : camera_frame) (payload : list Z) : camera_frame :=
  if starts_with_soi payload && (0 <? size f) && negb (ready f)
  then set_size f 0
  else f.

(** "Buffer overflow - discard this incomplete frame and start fresh": the
    branch taken when the payload does not fit behind [frame->size]. *)
Definition overflow_reset (f : camera_frame) (payload : list Z) (payload_size : Z)
  : option camera_frame :=
  let f := set_ready (set_size f 0) false in
  if starts_with_soi payload then
    buf ← data f;
    nb ← memcpy buf 0 payload payload_size;
    Some (set_size (set_data f (Some nb)) payload_size)
  else Some f.

(** "Copy payload to frame buffer":
    [memcpy(frame->data + frame->size, payload, payload_size);
     frame->size += payload_size;] *)
Definition append_payload (f : camera_frame) (payload : list Z) (payload_size : Z)
  : option camera_frame :=
  buf ← data f;
  nb ← memcpy buf (size f) payload payload_size;
  Some (set_size (set_data f (Some nb)) (size f + payload_size)).

(** [process_data(dev, data, length)] with [length] the length of [pkt];
    [frame] is written back to [dev->frames[dev->write_frame]] where the C
    code has changed it in place. *)
Definition process_data (al : allocator) (dev : camera_device) (pkt : list Z)
  : option camera_device :=
  let length := Z.of_nat (length pkt) in
  frame ← frame_at dev (write_frame dev);
  if has_magic pkt then
    match alloc_write_slot al frame with
    | None => Some dev
    | Some frame =>
        if HEADER_SIZE <? length then
          let payload_size := length - HEADER_SIZE in
          let payload := drop (Z.to_nat HEADER_SIZE) pkt in
          let frame := discard_incomplete frame payload in
          if capacity frame <? size frame + payload_size then
            frame ← overflow_reset frame payload payload_size;
            Some (store_frame dev (write_frame dev) frame)
          else
            frame ← append_payload frame payload payload_size;
            buf ← data frame;
            found ← find_eoi (Z.to_nat (size frame - 1)) buf 1;
            match found with
            | Some i => complete_frame al dev frame buf i
            | None => Some (store_frame dev (write_frame dev) (safety_check frame))
            end
        else Some (store_frame dev (write_frame dev) frame)
    end
  else Some dev.

(** ** Calls that may block *)

(** What a call of the engine does: it returns, it waits for ever (an
    infinite wait that nothing ends), or its behaviour is undefined. *)
Inductive outcome (A : Type) : Type :=
  | Returns (a : A)
  | Blocks
  | Undefined.
Arguments Returns {A} a.
Arguments Blocks {A}.
Arguments Undefined {A}.

(** A WinAPI call that reports failure through [GetLastError()]. *)
Inductive winapi (A : Type) : Type :=
  | Succeeds (a : A)
  | Fails (last_error : Z).
Arguments Succeeds {A} a.
Arguments Fails {A} last_error.

(** ** Blocking frame reader: [camera_read_frame] *)

(** The result of one [WaitForSingleObject(dev->frame_ready_event, timeout)]. *)
Inductive wait_result : Type :=
  | WAIT_OBJECT_0
  | WAIT_TIMEOUT
  | WAIT_FAILED (last_error : Z).

(** What the caller sees when [camera_read_frame] returns: the status, the
    device, the block behind [buffer], [*bytes_read] and the thread's
    [last_error]. *)
Record read_result := mk_read_result {
  rr_status : Z;
  rr_dev : camera_device;
  rr_buffer : list Z;
  rr_bytes_read : Z;
  rr_error : string
}.

(** The [while (true)] loop.  [waits] lists the results of the successive
    waits on [frame_ready_event], which is an auto-reset event; with no
    result left the call stays in the wait.  A wait with
    [timeout_ms == 0] is [INFINITE] and does not time out. *)
Fixpoint read_frame_loop (waits : list wait_result) (dev : camera_device)
    (buffer : list Z) (buffer_size timeout_ms : Z) (err : string)
  : outcome read_result :=
  match frame_at dev (read_frame dev) with
  | None => Undefined
  | Some frame =>
      if ready frame then
        if buffer_size <? size frame then
          Returns (mk_read_result CAMERA_ERROR_BUFFER_SMALL dev buffer 0
                     ("Buffer too small: need " +:+ pretty (size frame) +:+
                      " bytes, have " +:+ pretty buffer_size))
        else
          match data frame with
          | None => Undefined
          | Some src =>
              match memcpy buffer 0 src (size frame) with
              | None => Undefined
              | Some nb =>
                  let dev' :=
                    store_frame dev (read_frame dev)
                      (set_size (set_ready frame false) 0) in
                  let dev' :=
                    set_read_frame dev' (Z.rem (read_frame dev' + 1) MAX_FRAMES) in
                  Returns (mk_read_result CAMERA_SUCCESS dev' nb (size frame) err)
              end
          end
      else
        match waits with
        | [] => Blocks
        | WAIT_OBJECT_0 :: waits' =>
            read_frame_loop waits' (set_frame_ready_event dev false)
              buffer buffer_size timeout_ms err
        | WAIT_TIMEOUT :: _ =>
            if timeout_ms =? 0 then Blocks
            else Returns (mk_read_result CAMERA_ERROR_TIMEOUT dev buffer 0
                            "Timeout waiting for frame")
        | WAIT_FAILED e :: _ =>
            Returns (mk_read_result CAMERA_ERROR_USB_FAILED dev buffer 0
                       ("Wait failed: " +:+ pretty e))
        end
  end.

(** [camera_read_frame(handle, buffer, buffer_size, bytes_read, timeout_ms)]
    on a non-[NULL] handle; [bytes_read] holds the value behind the pointer.
    With a [NULL] [buffer] or [bytes_read] the call leaves everything but
    [last_error] as it is. *)
Definition camera_read_frame (waits : list wait_result) (dev : camera_device)
    (buffer : option (list Z)) (buffer_size : Z) (bytes_read : option Z)
    (timeout_ms : Z) (err : string) : outcome read_result :=
  match buffer, bytes_read with
  | Some buf, Some _ =>
      if negb (streaming dev) then
        Returns (mk_read_result CAMERA_ERROR_NO_FRAME dev buf 0
                   "Camera is not streaming")
      else read_frame_loop waits dev buf buffer_size timeout_ms err
  | Some buf, None =>
      Returns (mk_read_result CAMERA_ERROR_INVALID_PARAM dev buf 0 "Invalid parameters")
  | None, Some n =>
      Returns (mk_read_result CAMERA_ERROR_INVALID_PARAM dev [] n "Invalid parameters")
  | None, None =>
      Returns (mk_read_result CAMERA_ERROR_INVALID_PARAM dev [] 0 "Invalid parameters")
  end.

(** ** Streaming controller *)

(** The outcomes of the three calls of [camera_start_streaming] that can
    fail it. *)
Record usb_env := mk_usb_env {
  set_alternate_setting : winapi unit;  (* WinUsb_SetCurrentAlternateSetting(h, 1) *)
  write_pipe : winapi Z;                (* WinUsb_WritePipe: bytes_sent *)
  create_thread : winapi unit           (* CreateThread: a handle or NULL *)
}.

(** [send_command(dev, data, len)]: the status and the thread's [last_error]. *)
Definition send_command (env : usb_env) (len : Z) (err : string) : Z * string :=
  match write_pipe env with
  | Fails error =>
      (CAMERA_ERROR_USB_FAILED, "Failed to send command: " +:+ pretty error)
  | Succeeds bytes_sent =>
      if negb (bytes_sent =? len) then
        (CAMERA_ERROR_USB_FAILED,
         "Short write: " +:+ pretty bytes_sent +:+ " / " +:+ pretty len +:+ " bytes")
      else (CAMERA_SUCCESS, err)
  end.

(** [camera_start_streaming(handle)] on a non-[NULL] handle. *)
Definition camera_start_streaming (env : usb_env) (dev : camera_device)
    (err : string) : Z * camera_device * string :=
  if streaming dev then (CAMERA_SUCCESS, dev, err)
  else
    match set_alternate_setting env with
    | Fails error =>
        (CAMERA_ERROR_INIT_FAILED, dev,
         "Failed to set alternate setting: " +:+ pretty error)
    | Succeeds _ =>
        let '(ret, err) := send_command env CONNECT_CMD_SIZE err in
        if negb (ret =? CAMERA_SUCCESS) then (ret, dev, err)
        else
          let dev := set_stop_event dev false in
          let dev := set_streaming dev true in
          match create_thread env with
          | Succeeds _ => (CAMERA_SUCCESS, set_read_thread dev true, err)
          | Fails error =>
              let dev := set_read_thread dev false in
              let dev := set_streaming dev false in
              (CAMERA_ERROR_INIT_FAILED, dev,
               "Failed to create read thread: " +:+ pretty error)
          end
    end.

(** The loop [for (i = 0; i < MAX_FRAMES; i++)] of [camera_stop_streaming],
    with [n] iterations left. *)
Fixpoint clear_frames (n : nat) (i : Z) (dev : camera_device) : option camera_device :=
  match n with
  | O => Some dev
  | S n' =>
      f ← frame_at dev i;
      clear_frames n' (i + 1) (store_frame dev i (set_size (set_ready f false) 0))
  end.

(** [camera_stop_streaming(handle)] on a non-[NULL] handle.  Whether the
    read thread ends within the two seconds or is terminated, its handle is
    closed and set to [NULL]. *)
Definition camera_stop_streaming (dev : camera_device) : option camera_device :=
  if negb (streaming dev) then Some dev
  else
    let dev := set_streaming dev false in
    let dev := set_stop_event dev true in
    let dev := set_read_thread dev false in
    dev ← clear_frames (Z.to_nat MAX_FRAMES) 0 dev;
    let dev := set_read_frame dev 0 in
    let dev := set_write_frame dev 0 in
    Some (set_frame_ready_event dev false).

(** [camera_get_stats(handle, &frames_captured, &frames_dropped)] on a
    non-[NULL] handle with two non-[NULL] pointers: the status and the two
    values written. *)
Definition camera_get_stats (dev : camera_device) : Z * Z * Z :=
  (CAMERA_SUCCESS, frames_captured dev, frames_dropped dev).

(** [camera_is_streaming(handle)] on a non-[NULL] handle. *)
Definition camera_is_streaming (dev : camera_device) : bool := streaming dev.

(** ** Capture thread: [read_thread_proc] *)

(** The two values of [GetLastError()] that the thread takes for the timeout
    of a bulk read ([winerror.h]). *)
Definition ERROR_SEM_TIMEOUT : Z := 121.
Definition ERROR_TIMEOUT : Z := 1460.

(** Where the thread is when the bulk reads listed for it are used up: still
    in its loop, waiting in [WinUsb_ReadPipe], or returned (with 0). *)
Inductive thread_state : Type :=
  | InReadPipe
  | ThreadReturned.

(** [read_thread_proc(dev)]: the loop [while (dev->streaming)].  [reads]
    lists the outcomes of the successive calls
    [WinUsb_ReadPipe(h, EP_IN, buffer, BUFFER_SIZE, &bytes_read, NULL)], each
    with the heap oracle of the [process_data] call that may follow it: the
    bytes transferred into [buffer], [bytes_read] being their number, or the
    value of [GetLastError()].  [stop_event] is a manual-reset event, which
    the wait on it leaves as it is.  A transfer of more than [BUFFER_SIZE]
    bytes would leave [buffer]. *)
Fixpoint read_thread_proc (reads : list (allocator * winapi (list Z)))
    (dev : camera_device) : option (thread_state * camera_device) :=
  if negb (streaming dev) then Some (ThreadReturned, dev)
  else if stop_event dev then Some (ThreadReturned, dev)
  else
    match reads with
    | [] => Some (InReadPipe, dev)
    | (al, Fails error) :: reads' =>
        if (error =? ERROR_SEM_TIMEOUT) || (error =? ERROR_TIMEOUT)
        then read_thread_proc reads' dev
        else if negb (error =? ERROR_SEM_TIMEOUT) then Some (ThreadReturned, dev)
        else read_thread_proc reads' dev
    | (al, Succeeds bytes) :: reads' =>
        let bytes_read := Z.of_nat (length bytes) in
        if BUFFER_SIZE <? bytes_read then None
        else if 0 <? bytes_read then
          dev ← process_data al dev bytes;
          read_thread_proc reads' dev
        else read_thread_proc reads' dev
    end.

(** ** Debug logging *)

(** The three globals of the log; of [g_debug_log_file] only whether it is
    [NULL] matters here.  What is written to the file is left out, like the
    calls of [debug_log] that write it. *)
Record log_state := mk_log_state {
  g_debug_logging_enabled : bool;
  g_debug_log_file : bool;
  g_log_lock_initialized : bool
}.

(** The globals when the library is loaded. *)
Definition log_loaded : log_state := mk_log_state false false false.

(** What [init_debug_logging] finds: the value of
    [getenv("USEEPLUS_DEBUG")], [None] for [NULL], and whether the [fopen]
    of the log file that it may lead to succeeds. *)
Record log_env := mk_log_env {
  env_debug : option (list Z);
  fopen_log : bool
}.

(** The bytes of a string literal, without the terminating NUL. *)
Definition bytes_of (s : string) : list Z :=
  (λ a, Z.of_nat (Ascii.nat_of_ascii a)) <$> String.list_ascii_of_string s.

(** A letter in lower case, in the "C" locale. *)
Definition lower_case (c : Z) : Z :=
  if (65 <=? c) && (c <=? 90) then c + 32 else c.

(** [strcmp(a, b) == 0] and [_stricmp(a, b) == 0] *)
Definition strcmp_eq (a b : list Z) : bool := bool_decide (a = b).
Definition stricmp_eq (a b : list Z) : bool :=
  bool_decide (lower_case <$> a = lower_case <$> b).

(** [camera_set_debug_logging(enable)] behind its call of
    [init_debug_logging]: the status, the globals and the thread's
    [last_error].  [fopen_ok] tells whether the [fopen] of the log file
    succeeds, should the call reach it. *)
Definition set_debug_logging (fopen_ok : bool) (enable : bool) (ls : log_state)
    (err : string) : Z * log_state * string :=
  if enable && negb (g_debug_logging_enabled ls) then
    if negb fopen_ok
    then (CAMERA_ERROR_INVALID_PARAM,
          mk_log_state (g_debug_logging_enabled ls) false (g_log_lock_initialized ls),
          "Failed to open debug log file")
    else (CAMERA_SUCCESS, mk_log_state true true (g_log_lock_initialized ls), err)
  else if negb enable && g_debug_logging_enabled ls then
    (CAMERA_SUCCESS, mk_log_state false false (g_log_lock_initialized ls), err)
  else (CAMERA_SUCCESS, ls, err).

(** [init_debug_logging()].  The call of [camera_set_debug_logging(true)]
    that it makes enters [init_debug_logging] again, which then finds
    [g_log_lock_initialized] set and does nothing; its status is dropped. *)
Definition init_debug_logging (env : log_env) (ls : log_state) (err : string)
  : log_state * string :=
  if negb (g_log_lock_initialized ls) then
    let ls := mk_log_state (g_debug_logging_enabled ls) (g_debug_log_file ls) true in
    match env_debug env with
    | Some env_debug =>
        if strcmp_eq env_debug (bytes_of "1") ||
           stricmp_eq env_debug (bytes_of "true") ||
           stricmp_eq env_debug (bytes_of "yes")
        then
          let '(_, ls, err) := set_debug_logging (fopen_log env) true ls err in
          (ls, err)
        else (ls, err)
    | None => (ls, err)
    end
  else (ls, err).

(** [camera_set_debug_logging(enable)] *)
Definition camera_set_debug_logging (env : log_env) (fopen_ok : bool) (enable : bool)
    (ls : log_state) (err : string) : Z * log_state * string :=
  let '(ls, err) := init_debug_logging env ls err in
  set_debug_logging fopen_ok enable ls err.

(** [camera_is_debug_logging_enabled()] *)
Definition camera_is_debug_logging_enabled (ls : log_state) : bool :=
  g_debug_logging_enabled ls.

(** Whether [debug_log] writes its line:
    [if (!g_debug_logging_enabled || !g_debug_log_file) return;] *)
Definition debug_log_writes (ls : log_state) : bool :=
  negb (negb (g_debug_logging_enabled ls) || negb (g_debug_log_file ls)).

(** ** Opening a device: [camera_open_path] *)

(** The outcomes of the calls of [camera_open_path] that can fail it.  The
    two [CreateEvent] calls, whose result the code does not test, are taken
    to succeed. *)
Record open_env := mk_open_env {
  calloc_device : bool;                (* calloc(1, sizeof(camera_device_t)) != NULL *)
  create_file : list Z → winapi unit;  (* CreateFileA(device_path, ...): a handle or INVALID_HANDLE_VALUE *)
  winusb_initialize : winapi unit      (* WinUsb_Initialize *)
}.

(** [%lx] of a [DWORD]. *)
Definition hex (n : Z) : string :=
  HexadecimalString.NilZero.string_of_uint (N.to_hex_uint (Z.to_N n)).

Definition newline : string := String (Ascii.ascii_of_nat 10) EmptyString.

(** [dev->connect_cmd] as [camera_open_path] fills it. *)
Definition connect_cmd : list Z := [0xbb; 0xaa; 0x05; 0x00; 0x00].

(** [camera_open_path(device_path)]: the handle, [None] for [NULL], the
    globals of the log and the thread's [last_error].  A string is the list
    of its bytes up to the terminating NUL.  The device behind a handle is the zeroed
    structure: both events are created unsignalled, and the calls that
    follow [WinUsb_Initialize] (abort, flush and reset of the pipes, the
    alternate setting 0, the query of the interface) do not decide the
    result. *)
Definition camera_open_path (lenv : log_env) (env : open_env)
    (device_path : option (list Z)) (ls : log_state) (err : string)
  : option camera_device * log_state * string :=
  let '(ls, err) := init_debug_logging lenv ls err in
  match device_path with
  | None => (None, ls, "Invalid device path")
  | Some device_path =>
      if negb (calloc_device env) then (None, ls, "Memory allocation failed")
      else
        match create_file env device_path with
        | Fails error =>
            (None, ls, "Failed to open device: error " +:+ pretty error +:+
                       " (0x" +:+ hex error +:+ ")")
        | Succeeds _ =>
            match winusb_initialize env with
            | Fails error =>
                (None, ls,
                 "WinUSB initialization failed: error " +:+ pretty error +:+
                 " (0x" +:+ hex error +:+ "). Possible issues:" +:+ newline +:+
                 "  1. WinUSB driver not correctly installed on Interface 1" +:+ newline +:+
                 "  2. Another application has the device open" +:+ newline +:+
                 "  3. Insufficient permissions (try running as Administrator)")
            | Succeeds _ => (Some opened_device, ls, err)
            end
        end
  end.

(** [camera_get_error()]: [last_error[0] ? last_error : "No error"]. *)
Definition camera_get_error (err : string) : string :=
  match err with
  | EmptyString => "No error"
  | _ => err
  end.

(** ** Enumeration: [camera_enumerate] and [camera_open] *)

Definition VENDOR_ID : Z := 0x2ce3.
Definition PRODUCT_ID : Z := 0x3828.

(** [camera_device_info_t]; the two [char] arrays are the lists of their
    256 and 128 bytes. *)
Record camera_device_info := mk_device_info {
  vendor_id : Z;
  product_id : Z;
  device_path : list Z;
  description : list Z
}.

(** The string that starts a [char] array: the bytes before its first NUL;
    [None] when the array holds no NUL, so that a reader runs out of it. *)
Fixpoint c_string (a : list Z) : option (list Z) :=
  match a with
  | [] => None
  | c :: a' => if c =? 0 then Some [] else (c ::.) <$> c_string a'
  end.

(** [strncpy(dst, src, n)] for the string [src]: the first [n] bytes of
    [src] followed by NULs replace the first [n] bytes of [dst]; [None] when
    [dst] has fewer than [n] bytes. *)
Definition strncpy (dst src : list Z) (n : Z) : option (list Z) :=
  if (0 <=? n) && (n <=? Z.of_nat (length dst))
  then Some (take (Z.to_nat n) (src ++ replicate (Z.to_nat n) 0) ++ drop (Z.to_nat n) dst)
  else None.

(** [a[i] = c]: [None] outside the array. *)
Definition store_byte (a : list Z) (i c : Z) : option (list Z) :=
  if (0 <=? i) && (i <? Z.of_nat (length a)) then Some (<[Z.to_nat i := c]> a) else None.

(** [tolower(c)] in the "C" locale for a [char] [c]; the bytes from 128 on
    are the negative [char]s, for which the behaviour is undefined. *)
Definition tolower (c : Z) : option Z :=
  if (0 <=? c) && (c <? 128) then Some (lower_case c) else None.

(** The string in [path_lower] when the first loop tests it: after
    [strncpy(path_lower, DevicePath, 511); path_lower[511] = 0;] the loop
    over [p] replaces every byte of the string by its [tolower].  Every
    byte of the 512 is written before it is read. *)
Definition lower_path (DevicePath : list Z) : option (list Z) :=
  path_lower ← strncpy (replicate 512 0) DevicePath 511;
  path_lower ← store_byte path_lower 511 0;
  s ← c_string path_lower;
  mapM tolower s.

(** [needle] starts the string [s]. *)
Fixpoint starts_with (needle s : list Z) : bool :=
  match needle, s with
  | [], _ => true
  | c :: needle', d :: s' => (c =? d) && starts_with needle' s'
  | _ :: _, [] => false
  end.

(** [strstr(haystack, needle) != NULL] *)
Fixpoint strstr (haystack needle : list Z) : bool :=
  starts_with needle haystack ||
  match haystack with
  | [] => false
  | _ :: rest => strstr rest needle
  end.

(** What the enumeration of one device interface gives: [malloc] of the
    detail block fails, [SetupDiGetDeviceInterfaceDetailA] fails, or the
    block holds the device path. *)
Inductive iface : Type :=
  | NoMemory
  | NoDetail
  | Detail (DevicePath : list Z).

(** [if (devices && found_count < max_devices) { ... }] in the two loops.
    The first loop ([winusb]) ends both arrays with a NUL, the second does
    not. *)
Definition store_info (winusb : bool) (devices : option (list camera_device_info))
    (max_devices found_count : Z) (DevicePath : list Z)
  : option (option (list camera_device_info)) :=
  match devices with
  | None => Some None
  | Some devs =>
      if found_count <? max_devices then
        info ← (if 0 <=? found_count then devs !! Z.to_nat found_count else None);
        path ← strncpy (device_path info) DevicePath 255;
        path ← (if winusb then store_byte path 255 0 else Some path);
        descr ← strncpy (description info)
                  (bytes_of (if winusb then "Useeplus SuperCamera (WinUSB)"
                             else "Useeplus SuperCamera (non-WinUSB)")) 127;
        descr ← (if winusb then store_byte descr 127 0 else Some descr);
        Some (Some (<[Z.to_nat found_count :=
                        mk_device_info VENDOR_ID PRODUCT_ID path descr]> devs))
      else Some (Some devs)
  end.

(** The first loop, over the interfaces of [GUID_DEVINTERFACE_WINUSB]: the
    array and [found_count] at its end. *)
Fixpoint enumerate_winusb (ifaces : list iface)
    (devices : option (list camera_device_info)) (max_devices found_count : Z)
  : option (option (list camera_device_info) * Z) :=
  match ifaces with
  | [] => Some (devices, found_count)
  | NoMemory :: rest => enumerate_winusb rest devices max_devices found_count
  | NoDetail :: rest => enumerate_winusb rest devices max_devices found_count
  | Detail DevicePath :: rest =>
      path_lower ← lower_path DevicePath;
      if strstr path_lower (bytes_of "vid_2ce3") &&
         strstr path_lower (bytes_of "pid_3828") &&
         strstr path_lower (bytes_of "mi_01")
      then
        devices ← store_info true devices max_devices found_count DevicePath;
        enumerate_winusb rest devices max_devices (found_count + 1)
      else enumerate_winusb rest devices max_devices found_count
  end.

(** The second loop, over the interfaces of [GUID_DEVINTERFACE_USB_DEVICE]. *)
Fixpoint enumerate_usb (ifaces : list iface)
    (devices : option (list camera_device_info)) (max_devices found_count : Z)
  : option (option (list camera_device_info) * Z) :=
  match ifaces with
  | [] => Some (devices, found_count)
  | NoMemory :: rest => enumerate_usb rest devices max_devices found_count
  | NoDetail :: rest => enumerate_usb rest devices max_devices found_count
  | Detail DevicePath :: rest =>
      if strstr DevicePath (bytes_of "vid_2ce3") &&
         strstr DevicePath (bytes_of "pid_3828")
      then
        devices ← store_info false devices max_devices found_count DevicePath;
        enumerate_usb rest devices max_devices (found_count + 1)
      else enumerate_usb rest devices max_devices found_count
  end.

(** The two device classes as [SetupDiGetClassDevsA] and
    [SetupDiEnumDeviceInterfaces] give them: [None] for
    [INVALID_HANDLE_VALUE], otherwise the interfaces in the order of their
    index. *)
Record setup_env := mk_setup_env {
  winusb_class : option (list iface);
  usb_class : option (list iface)
}.

(** [camera_enumerate(devices, max_devices)]: the value returned, the array
    behind [devices], the globals of the log and the thread's
    [last_error]. *)
Definition camera_enumerate (lenv : log_env) (env : setup_env)
    (devices : option (list camera_device_info)) (max_devices : Z)
    (ls : log_state) (err : string)
  : option (Z * option (list camera_device_info) * log_state * string) :=
  let '(ls, err) := init_debug_logging lenv ls err in
  '(devices, found_count) ←
    match winusb_class env with
    | Some ifaces => enumerate_winusb ifaces devices max_devices 0
    | None => Some (devices, 0)
    end;
  if 0 <? found_count then Some (found_count, devices, ls, err)
  else
    match usb_class env with
    | None => Some (CAMERA_ERROR_NOT_FOUND, devices, ls, "Failed to enumerate devices")
    | Some ifaces =>
        '(devices, found_count) ← enumerate_usb ifaces devices max_devices found_count;
        Some (found_count, devices, ls, err)
    end.

(** [camera_open()]: [device] is the local structure as the stack holds it
    when the function is entered. *)
Definition camera_open (lenv : log_env) (senv : setup_env) (oenv : open_env)
    (device : camera_device_info) (ls : log_state) (err : string)
  : option (option camera_device * log_state * string) :=
  '(count, devices, ls, err) ← camera_enumerate lenv senv (Some [device]) 1 ls err;
  if count <=? 0 then Some (None, ls, "No camera found")
  else
    devices ← devices;
    device ← devices !! 0%nat;
    path ← c_string (device_path device);
    Some (camera_open_path lenv oenv (Some path) ls err).

(** ** The smoothing ring of the live viewer

    [examples/live_viewer.cpp] keeps the frames it reads in a second ring,
    between [CameraReadThread], which calls [camera_read_frame], and the
    [WM_PAINT] handler.  The two pieces below are the two stretches of code
    that run under [g_frame_lock]. *)

Definition SMOOTHING_BUFFER_SIZE : Z := 12.
Definition MAX_FRAME_SIZE : Z := 1024 * 1024.

(** [struct FrameSlot]; its fields [data] and [size] are [slot_data] and
    [slot_size] here. *)
Record FrameSlot := mk_slot {
  slot_data : list Z;
  slot_size : Z;
  filled : bool
}.

(** The globals that the two threads share. *)
Record viewer := mk_viewer {
  g_frame_ring : list FrameSlot;
  g_write_pos : Z;
  g_read_pos : Z;
  g_display_buffer : list Z;
  g_display_size : Z;
  g_total_frames : Z;
  g_displayed_frames : Z;
  g_buffer_fill_level : Z
}.

(** [g_frame_ring[i]] *)
Definition ring_slot (v : viewer) (i : Z) : option FrameSlot :=
  if 0 <=? i then g_frame_ring v !! Z.to_nat i else None.

(** "Add frame to circular buffer" in [CameraReadThread], for a frame of
    [bytes_read] bytes in [temp_buffer]. *)
Definition add_frame (v : viewer) (temp_buffer : list Z) (bytes_read : Z)
  : option viewer :=
  if bytes_read <=? MAX_FRAME_SIZE then
    slot ← ring_slot v (g_write_pos v);
    d ← memcpy (slot_data slot) 0 temp_buffer bytes_read;
    Some (mk_viewer
            (<[Z.to_nat (g_write_pos v) := mk_slot d bytes_read true]> (g_frame_ring v))
            (Z.rem (g_write_pos v + 1) SMOOTHING_BUFFER_SIZE)
            (g_read_pos v) (g_display_buffer v) (g_display_size v)
            (uint_incr (g_total_frames v)) (g_displayed_frames v)
            (if g_buffer_fill_level v <? SMOOTHING_BUFFER_SIZE
             then g_buffer_fill_level v + 1 else g_buffer_fill_level v))
  else Some v.

(** "Try to get next frame from circular buffer" in the [WM_PAINT]
    handler: the globals, [current_display_size] and [got_new_frame]. *)
Definition take_frame (v : viewer) : option (viewer * Z * bool) :=
  available ←
    (if 0 <? g_buffer_fill_level v
     then filled <$> ring_slot v (g_read_pos v)
     else Some false);
  if available : bool then
    slot ← ring_slot v (g_read_pos v);
    d ← memcpy (g_display_buffer v) 0 (slot_data slot) (slot_size slot);
    Some (mk_viewer
            (<[Z.to_nat (g_read_pos v) :=
                 mk_slot (slot_data slot) (slot_size slot) false]> (g_frame_ring v))
            (g_write_pos v)
            (Z.rem (g_read_pos v + 1) SMOOTHING_BUFFER_SIZE)
            d (slot_size slot)
            (g_total_frames v) (uint_incr (g_displayed_frames v))
            (g_buffer_fill_level v - 1),
          slot_size slot, true)
  else Some (v, g_display_size v, false).

(** * Vocabulary of the properties *)

(** ** Well-formed rings *)

(** The layout of a frame slot: a slot without a block is as [calloc]
    left it; a block has [BUFFER_SIZE] bytes, recorded in [capacity], and
    the logical size stays inside it. *)
Definition frame_ok (f : camera_frame) : Prop :=
  match data f with
  | None => size f = 0 ∧ capacity f = 0 ∧ ready f = false
  | Some b =>
      Z.of_nat (length b) = BUFFER_SIZE ∧ capacity f = BUFFER_SIZE ∧
      0 ≤ size f ≤ BUFFER_SIZE
  end.

(** The layout of the ring: [MAX_FRAMES] slots, both indices inside. *)
Definition ring_ok (dev : camera_device) : Prop :=
  length (frames dev) = Z.to_nat MAX_FRAMES ∧
  0 ≤ write_frame dev < MAX_FRAMES ∧
  0 ≤ read_frame dev < MAX_FRAMES ∧
  Forall frame_ok (frames dev).

(** The bytes of a slot that hold a JPEG: at least [MIN_JPEG_SIZE] and at
    most [capacity] of them, [FF D8] first and [FF D9] last. *)
Definition jpeg_frame (f : camera_frame) : Prop :=
  match data f with
  | None => False
  | Some b =>
      MIN_JPEG_SIZE ≤ size f ≤ capacity f ∧
      rd b 0 = Some 0xFF ∧ rd b 1 = Some 0xD8 ∧
      rd b (size f - 2) = Some 0xFF ∧ rd b (size f - 1) = Some 0xD9
  end.

(** Every slot whose ready flag is set holds a JPEG. *)
Definition ready_frames_ok (dev : camera_device) : Prop :=
  Forall (λ f, ready f = true → jpeg_frame f) (frames dev).

(** The logical content of a slot: the first [size] bytes of its block. *)
Definition content (f : camera_frame) : list Z :=
  match data f with
  | None => []
  | Some b => take (Z.to_nat (size f)) b
  end.

Global Instance frame_ok_dec f : Decision (frame_ok f).
Proof. unfold frame_ok. destruct (data f); apply _. Defined.

Global Instance ring_ok_dec dev : Decision (ring_ok dev).
Proof. unfold ring_ok. apply _. Defined.

Global Instance jpeg_frame_dec f : Decision (jpeg_frame f).
Proof. unfold jpeg_frame. destruct (data f); apply _. Defined.

Global Instance ready_frames_ok_dec dev : Decision (ready_frames_ok dev).
Proof. unfold ready_frames_ok. apply _. Defined.

(** A byte string that looks like a JPEG to the engine. *)
Definition jpeg_bytes (l : list Z) : Prop :=
  MIN_JPEG_SIZE ≤ Z.of_nat (length l) ∧
  take 2 l = [0xFF; 0xD8] ∧ drop (length l - 2) l = [0xFF; 0xD9].

(** The slot that a successful read leaves behind. *)
Definition consumed (f : camera_frame) : camera_frame :=
  set_size (set_ready f false) 0.

(** ** The steps of [process_data] and of the reader *)

(** [FF D9] ends at offset [i] of the block. *)
Definition eoi_at (buf : list Z) (i : Z) : Prop :=
  rd buf (i - 1) = Some 0xFF ∧ rd buf i = Some 0xD9.

(** The block starts with [FF D8]. *)
Definition soi_first (buf : list Z) : Prop :=
  rd buf 0 = Some 0xFF ∧ rd buf 1 = Some 0xD8.

(** The test under which the loop takes offset [i] for the end of a frame. *)
Definition frame_end (buf : list Z) (i : Z) : Prop :=
  eoi_at buf i ∧ MIN_JPEG_SIZE ≤ i + 1 ∧ soi_first buf.

(** The bytes behind the end of the frame at [i]. *)
Definition leftover_bytes (frame : camera_frame) (buf : list Z) (i : Z) : list Z :=
  take (Z.to_nat (size frame - (i + 1))) (drop (Z.to_nat (i + 1)) buf).

(** The leftover bytes stay in the next slot: their temporary block could
    be allocated, they start with [FF D8], and they do not trip the safety
    check. *)
Definition leftover_kept (al : allocator) (frame : camera_frame) (buf : list Z)
    (i : Z) : bool :=
  alloc_leftover al && starts_with_soi (leftover_bytes frame buf i) &&
  (size frame - (i + 1) <=? MAX_JPEG_SIZE).

(** The next slot has a block to copy into: it had one, or its allocation
    succeeds. *)
Definition next_slot_has_block (al : allocator) (g0 : camera_frame) : bool :=
  match data g0, alloc_next al with
  | None, None => false
  | _, _ => true
  end.

(** The write slot [f3] after [payload] was appended to the slot [f2],
    whose block was [buf] and is now [nb]. *)
Definition appended (f2 : camera_frame) (payload : list Z) (f3 : camera_frame)
    (buf nb : list Z) : Prop :=
  data f2 = Some buf ∧
  f3 = mk_frame (Some nb) (size f2 + Z.of_nat (length payload)) (capacity f2) (ready f2) ∧
  length nb = length buf ∧
  take (Z.to_nat (size f3)) nb = take (Z.to_nat (size f2)) buf ++ payload ∧
  frame_ok f3.

(** The five ways through [process_data al dev pkt], for the write slot [f]
    of [dev], each with the device it leaves. *)
Inductive process_data_path (al : allocator) (dev : camera_device) (pkt : list Z)
    (f : camera_frame) : camera_device → Prop :=
  | path_ignored :
      has_magic pkt = false ∨ alloc_write_slot al f = None →
      process_data_path al dev pkt f dev
  | path_header f1 :
      has_magic pkt = true → Z.of_nat (length pkt) ≤ HEADER_SIZE →
      alloc_write_slot al f = Some f1 →
      process_data_path al dev pkt f (store_frame dev (write_frame dev) f1)
  | path_overflow f1 f' :
      let payload := drop (Z.to_nat HEADER_SIZE) pkt in
      let f2 := discard_incomplete f1 payload in
      has_magic pkt = true → HEADER_SIZE < Z.of_nat (length pkt) →
      alloc_write_slot al f = Some f1 →
      capacity f2 < size f2 + Z.of_nat (length payload) →
      overflow_reset f2 payload (Z.of_nat (length payload)) = Some f' →
      process_data_path al dev pkt f (store_frame dev (write_frame dev) f')
  | path_append f1 f3 buf nb :
      let payload := drop (Z.to_nat HEADER_SIZE) pkt in
      let f2 := discard_incomplete f1 payload in
      has_magic pkt = true → HEADER_SIZE < Z.of_nat (length pkt) →
      alloc_write_slot al f = Some f1 →
      size f2 + Z.of_nat (length payload) ≤ capacity f2 →
      appended f2 payload f3 buf nb →
      (∀ j, 1 ≤ j < size f3 → ¬ frame_end nb j) →
      process_data_path al dev pkt f
        (store_frame dev (write_frame dev) (safety_check f3))
  | path_complete f1 f3 buf nb i dev' :
      let payload := drop (Z.to_nat HEADER_SIZE) pkt in
      let f2 := discard_incomplete f1 payload in
      has_magic pkt = true → HEADER_SIZE < Z.of_nat (length pkt) →
      alloc_write_slot al f = Some f1 →
      size f2 + Z.of_nat (length payload) ≤ capacity f2 →
      appended f2 payload f3 buf nb →
      1 ≤ i < size f3 → frame_end nb i →
      (∀ j, 1 ≤ j < i → ¬ frame_end nb j) →
      complete_frame al dev f3 nb i = Some dev' →
      process_data_path al dev pkt f dev'.

(** The step of the loop of [camera_read_frame] that finds the slot at the
    read pointer ready. *)
Definition read_ready (dev : camera_device) (f : camera_frame) (buffer : list Z)
    (buffer_size : Z) (err : string) : outcome read_result :=
  if buffer_size <? size f then
    Returns (mk_read_result CAMERA_ERROR_BUFFER_SMALL dev buffer 0
               ("Buffer too small: need " +:+ pretty (size f) +:+
                " bytes, have " +:+ pretty buffer_size))
  else
    match data f with
    | None => Undefined
    | Some src =>
        match memcpy buffer 0 src (size f) with
        | None => Undefined
        | Some nb =>
            Returns (mk_read_result CAMERA_SUCCESS
                       (set_read_frame (store_frame dev (read_frame dev) (consumed f))
                          (Z.rem (read_frame dev + 1) MAX_FRAMES))
                       nb (size f) err)
        end
    end.

(** ** The specification's reading of the scan *)

(** The specification's reading of the scan: the first [FF D9] of the
    accumulated bytes, ending at offset [i]. *)
Fixpoint spec_first_eoi_from (i : Z) (acc : list Z) : option Z :=
  match acc with
  | a :: (b :: _) as rest =>
      if (a =? 0xFF) && (b =? 0xD9) then Some i
      else spec_first_eoi_from (i + 1) rest
  | _ => None
  end.

Definition spec_first_eoi (acc : list Z) : option Z := spec_first_eoi_from 1 acc.

(** The specification's reading of the acceptance: the candidate frame is
    the bytes up to the first [FF D9], and it is accepted when it is long
    enough and the slot starts with [FF D8]; the result is the length of the
    accepted frame. *)
Definition spec_accepted_size (acc : list Z) : option Z :=
  match spec_first_eoi acc with
  | Some i =>
      if (MIN_JPEG_SIZE <=? i + 1) && starts_with_soi acc then Some (i + 1) else None
  | None => None
  end.

(** ** The failures of [camera_start_streaming] *)

(** The three ways in which [camera_start_streaming] fails. *)
Definition alt_setting_fails (env : usb_env) : Prop :=
  ∃ e, set_alternate_setting env = Fails e.

Definition handshake_fails (env : usb_env) : Prop :=
  set_alternate_setting env = Succeeds () ∧
  ((∃ e, write_pipe env = Fails e) ∨
   (∃ n, write_pipe env = Succeeds n ∧ n ≠ CONNECT_CMD_SIZE)).

Definition thread_creation_fails (env : usb_env) : Prop :=
  set_alternate_setting env = Succeeds () ∧
  write_pipe env = Succeeds CONNECT_CMD_SIZE ∧
  ∃ e, create_thread env = Fails e.

(** ** Runs of packets *)

(** A camera packet: the magic, the other nine header bytes, the payload. *)
Definition packet (header payload : list Z) : list Z :=
  [0xaa; 0xbb; 0x07] ++ take 9 (header ++ replicate 9 0) ++ payload.

(** The frame that the call from [dev] to [dev'] completed, if any: the
    write index moves on exactly when a frame is completed, and the frame is
    then in the slot the index has left. *)
Definition newly_completed (dev dev' : camera_device) : list (list Z) :=
  if write_frame dev' =? write_frame dev then []
  else match frame_at dev' (write_frame dev) with
       | Some f => [content f]
       | None => []
       end.

(** The capture thread without a reader: [read_thread_proc] calls
    [process_data(dev, buffer, bytes_read)] once for each bulk read that
    returns bytes, here one call for each packet, each with its heap
    oracle.  The result is the device and the frames completed on the way,
    in the order of their completion. *)
Fixpoint feed (dev : camera_device) (inputs : list (allocator * list Z))
  : option (camera_device * list (list Z)) :=
  match inputs with
  | [] => Some (dev, [])
  | (al, pkt) :: rest =>
      dev' ← process_data al dev pkt;
      '(dev'', log) ← feed dev' rest;
      Some (dev'', newly_completed dev dev' ++ log)
  end.

(** The number of frames dropped once [K] frames are completed and none is
    read: the ring keeps the last [MAX_FRAMES - 1] of them, one slot being
    the write slot. *)
Definition dropped_after (K : Z) : Z := Z.max 0 (K - (MAX_FRAMES - 1)).

(** The ring [dev] after the frames [log] were completed from the device
    [dev0], whose ring was empty, and none was read. *)
Definition ring_holds (dev0 dev : camera_device) (log : list (list Z)) : Prop :=
  let K := Z.of_nat (length log) in
  let D := dropped_after K in
  let w0 := write_frame dev0 in
  0 ≤ w0 < MAX_FRAMES ∧
  ring_ok dev ∧ streaming dev = streaming dev0 ∧
  write_frame dev = (w0 + K) mod MAX_FRAMES ∧
  read_frame dev = (w0 + D) mod MAX_FRAMES ∧
  frames_captured dev = (frames_captured dev0 + K) mod 2 ^ 32 ∧
  frames_dropped dev = (frames_dropped dev0 + D) mod 2 ^ 32 ∧
  (∃ f, frame_at dev (write_frame dev) = Some f ∧ ready f = false) ∧
  ∀ j, D ≤ j < K →
    ∃ f, frame_at dev ((w0 + j) mod MAX_FRAMES) = Some f ∧ ready f = true ∧
         log !! Z.to_nat j = Some (content f).

(** The payloads can be appended one after the other, [n] bytes being in
    the write slot already: a payload that follows bytes does not start
    with [FF D8], and as long as bytes are still to come the accumulated
    ones are at most [MAX_JPEG_SIZE]. *)
Fixpoint slicing_ok (n : Z) (payloads : list (list Z)) : bool :=
  match payloads with
  | [] => true
  | p :: rest =>
      ((n =? 0) || negb (starts_with_soi p)) &&
      (bool_decide (concat rest = []) ||
       (n + Z.of_nat (length p) <=? MAX_JPEG_SIZE)) &&
      slicing_ok (n + Z.of_nat (length p)) rest
  end.

(** [J] is one JPEG for the reassembler: it starts with [FF D8], ends with
    [FF D9], has at least [MIN_JPEG_SIZE] bytes, and no [FF D9] before its
    end completes [MIN_JPEG_SIZE] bytes. *)
Definition sole_jpeg (J : list Z) : Prop :=
  frame_end J (Z.of_nat (length J) - 1) ∧
  ∀ j, MIN_JPEG_SIZE - 1 ≤ j < Z.of_nat (length J) - 1 → ¬ eoi_at J j.

(** The packets of a run of slices, each slice with its heap oracle, the
    nine header bytes behind the magic, and its payload. *)
Definition packets_of (slices : list (allocator * list Z * list Z))
  : list (allocator * list Z) :=
  (λ s, (s.1.1, packet s.1.2 s.2)) <$> slices.

Definition payloads_of (slices : list (allocator * list Z * list Z))
  : list (list Z) :=
  (λ s, s.2) <$> slices.

(** The write slot holds the unfinished bytes [A] and the ring is empty. *)
Definition accumulating (dev : camera_device) (A : list Z) : Prop :=
  ring_ok dev ∧ read_frame dev = write_frame dev ∧
  ∃ f, frame_at dev (write_frame dev) = Some f ∧ ready f = false ∧ content f = A.

(** The slot at the read index holds the finished frame [J], and the write
    slot, the next one, is empty. *)
Definition holding (dev : camera_device) (J : list Z) : Prop :=
  ring_ok dev ∧ write_frame dev ≠ read_frame dev ∧
  (∃ f, frame_at dev (read_frame dev) = Some f ∧ ready f = true ∧ content f = J) ∧
  (∃ g, frame_at dev (write_frame dev) = Some g ∧ ready g = false ∧ content g = []).

(** ** Devices, packets and runs used as examples *)

(** The heap and WinUSB at their best: every call succeeds. *)
Definition ok_allocator : allocator := mk_allocator (Some []) true (Some []).

Definition ok_env : usb_env := mk_usb_env (Succeeds ()) (Succeeds 5) (Succeeds ()).

(** A JPEG of 1000 bytes. *)
Definition small_jpeg : list Z :=
  [0xFF; 0xD8] ++ replicate 996 0 ++ [0xFF; 0xD9].

(** A JPEG of 500 bytes. *)
Definition tiny_jpeg : list Z := [0xFF; 0xD8] ++ replicate 496 0 ++ [0xFF; 0xD9].

(** The [k]-th of a run of 1000-byte JPEGs: its third byte is [k]. *)
Definition numbered_jpeg (k : Z) : list Z :=
  [0xFF; 0xD8; k] ++ replicate 995 0 ++ [0xFF; 0xD9].

(** A payload with [FF D9] at offset 3 and again at its end. *)
Definition two_eoi_payload : list Z :=
  [0xFF; 0xD8; 0xFF; 0xD9] ++ replicate 1494 0 ++ [0xFF; 0xD9].

(** A complete 1000-byte JPEG followed by 62002 bytes that start with
    [FF D8], in a packet of 63014 bytes. *)
Definition long_leftover_payload : list Z :=
  small_jpeg ++ [0xFF; 0xD8] ++ replicate (Z.to_nat 62000) 1.

(** A complete 1000-byte JPEG followed by five bytes that start with
    [FF D8]. *)
Definition short_leftover_payload : list Z := small_jpeg ++ [0xFF; 0xD8; 1; 2; 3].

(** Two JPEGs of 1500 bytes, one with an [FF D9] inside, ending at offset
    1101, and one with an [FF D8] inside, at offset 600. *)
Definition inner_eoi_jpeg : list Z :=
  [0xFF; 0xD8] ++ replicate 1098 0 ++ [0xFF; 0xD9] ++ replicate 396 0 ++ [0xFF; 0xD9].

Definition inner_soi_jpeg : list Z :=
  [0xFF; 0xD8] ++ replicate 598 0 ++ [0xFF; 0xD8] ++ replicate 896 0 ++ [0xFF; 0xD9].

(** An opened device whose write slot holds 65000 unfinished bytes. *)
Definition nearly_full_device : camera_device :=
  store_frame opened_device 0
    (mk_frame (Some (replicate (Z.to_nat BUFFER_SIZE) 0)) 65000 BUFFER_SIZE false).

(** Its write slot. *)
Definition nearly_full_slot : camera_frame :=
  mk_frame (Some (replicate (Z.to_nat BUFFER_SIZE) 0)) 65000 BUFFER_SIZE false.

(** A payload of 62000 bytes that starts with [FF D8] and holds no
    [FF D9], and the first 600 bytes of [small_jpeg], which do the same. *)
Definition long_soi_payload : list Z := [0xFF; 0xD8] ++ replicate (Z.to_nat 61998) 1.

Definition jpeg_head : list Z := take 600 small_jpeg.

(** An opened, streaming device with [small_jpeg] ready in slot 0. *)
Definition one_frame_device : camera_device :=
  set_write_frame
    (store_frame (set_streaming opened_device true) 0
       (mk_frame (Some (small_jpeg ++ replicate (Z.to_nat BUFFER_SIZE - 1000) 0))
          1000 BUFFER_SIZE true)) 1.

(** One session: start, one complete frame in one packet, stop, start. *)
Definition session_started : camera_device :=
  (camera_start_streaming ok_env opened_device "").1.2.




(** Thirteen complete frames, one per packet. *)
Definition thirteen_frames : list (allocator * list Z) :=
  (λ k, (ok_allocator, packet [] (numbered_jpeg k))) <$> seqZ 1 13.

(** The scenario of the specification: one JPEG in one packet, and the same
    JPEG cut behind its first 500 bytes. *)
Definition two_slices : list (allocator * list Z * list Z) :=
  [(ok_allocator, [], take 500 small_jpeg); (ok_allocator, [], drop 500 small_jpeg)].

(** ** The bulk reads of the capture thread *)

(** A bulk read that the thread takes for a timeout. *)
Definition read_timed_out (error : Z) : bool :=
  (error =? ERROR_SEM_TIMEOUT) || (error =? ERROR_TIMEOUT).

(** Every bulk read has transferred at most the [BUFFER_SIZE] bytes asked
    for. *)
Definition reads_fit (reads : list (allocator * winapi (list Z))) : Prop :=
  Forall (λ r, match r.2 with
               | Succeeds bytes => Z.of_nat (length bytes) ≤ BUFFER_SIZE
               | Fails _ => True
               end) reads.

(** The packets among the bulk reads: the reads that transferred at least
    one byte, up to the first read that failed without timing out. *)
Fixpoint packets_read (reads : list (allocator * winapi (list Z)))
  : list (allocator * list Z) :=
  match reads with
  | [] => []
  | (al, Succeeds bytes) :: reads' =>
      if bool_decide (bytes = []) then packets_read reads'
      else (al, bytes) :: packets_read reads'
  | (al, Fails error) :: reads' =>
      if read_timed_out error then packets_read reads' else []
  end.

(** A bulk read failed without timing out. *)
Definition read_failed (reads : list (allocator * winapi (list Z))) : bool :=
  existsb (λ r, match r.2 with
                | Fails error => negb (read_timed_out error)
                | Succeeds _ => false
                end) reads.

(** Bulk reads for the examples: two timeouts, an empty transfer, one
    packet with a whole JPEG, a device error, and one more packet. *)
Definition reads_with_error : list (allocator * winapi (list Z)) :=
  [(ok_allocator, Fails ERROR_SEM_TIMEOUT); (ok_allocator, Fails ERROR_TIMEOUT);
   (ok_allocator, Succeeds []); (ok_allocator, Succeeds (packet [] small_jpeg));
   (ok_allocator, Fails 31); (ok_allocator, Succeeds (packet [] small_jpeg))].

Global Instance reads_fit_dec reads : Decision (reads_fit reads).
Proof. unfold reads_fit. apply Forall_dec. intros [? []]; apply _. Defined.

(** ** The ring as a queue *)

(** The number of finished frames in the ring: the slots from the read
    index up to the write index, which is not one of them. *)
Definition queue_length (dev : camera_device) : Z :=
  (write_frame dev - read_frame dev) mod MAX_FRAMES.

(** The [k]-th slot from the read index on. *)
Definition queue_slot (dev : camera_device) (k : Z) : Z :=
  (read_frame dev + k) mod MAX_FRAMES.

Definition slot_content (dev : camera_device) (i : Z) : list Z :=
  from_option content [] (frame_at dev i).

(** The finished frames in the ring, the oldest first. *)
Definition queued (dev : camera_device) : list (list Z) :=
  (λ k, slot_content dev (queue_slot dev k)) <$> seqZ 0 (queue_length dev).

(** The ring is well formed and its ready slots are the slots from the read
    index up to the write index. *)
Definition queue_ok (dev : camera_device) : Prop :=
  ring_ok dev ∧
  Forall (λ k, ready <$> frame_at dev (queue_slot dev k) =
               Some (bool_decide (k < queue_length dev)))
    (seqZ 0 MAX_FRAMES).

Global Instance queue_ok_dec dev : Decision (queue_ok dev).
Proof. unfold queue_ok. apply _. Defined.

(** The call from [dev] to [dev'] completed a frame. *)
Definition completes (dev dev' : camera_device) : bool :=
  negb (write_frame dev' =? write_frame dev).

(** The ring holds as many finished frames as it can. *)
Definition queue_full (dev : camera_device) : bool :=
  queue_length dev =? MAX_FRAMES - 1.

(** ** Sessions of the capture thread and a consumer *)

(** One step of a session: a [process_data] call of the capture thread on
    the bytes of one bulk read, or a [camera_read_frame] call of the
    consumer.  Both hold [frame_lock] while they work on the ring. *)
Inductive ring_op : Type :=
  | Capture (al : allocator) (bytes : list Z)
  | Consume (waits : list wait_result) (buffer : list Z) (buffer_size timeout_ms : Z).

(** The frame that a read returned, if it returned one. *)
Definition delivered_by (r : read_result) : list (list Z) :=
  if rr_status r =? CAMERA_SUCCESS
  then [take (Z.to_nat (rr_bytes_read r)) (rr_buffer r)]
  else [].

(** A session: the device it leaves, the frames completed and the frames
    delivered to the consumer, each list in the order of the events. *)
Fixpoint run_ops (ops : list ring_op) (dev : camera_device) (err : string)
  : outcome (camera_device * list (list Z) * list (list Z)) :=
  match ops with
  | [] => Returns (dev, [], [])
  | Capture al bytes :: ops' =>
      match process_data al dev bytes with
      | None => Undefined
      | Some dev' =>
          match run_ops ops' dev' err with
          | Returns (d, completed, delivered) =>
              Returns (d, newly_completed dev dev' ++ completed, delivered)
          | Blocks => Blocks
          | Undefined => Undefined
          end
      end
  | Consume waits buffer buffer_size timeout_ms :: ops' =>
      match camera_read_frame waits dev (Some buffer) buffer_size (Some 0)
              timeout_ms err with
      | Returns r =>
          match run_ops ops' (rr_dev r) (rr_error r) with
          | Returns (d, completed, delivered) =>
              Returns (d, completed, delivered_by r ++ delivered)
          | Blocks => Blocks
          | Undefined => Undefined
          end
      | Blocks => Blocks
      | Undefined => Undefined
      end
  end.

(** Every bulk read fits the read buffer of the thread, and every consumer
    passes the size of a buffer it has. *)
Definition ops_fit (ops : list ring_op) : Prop :=
  Forall (λ op, match op with
                | Capture _ bytes => Z.of_nat (length bytes) ≤ BUFFER_SIZE
                | Consume _ buffer buffer_size _ => buffer_size ≤ Z.of_nat (length buffer)
                end) ops.

Global Instance ops_fit_dec ops : Decision (ops_fit ops).
Proof. unfold ops_fit. apply Forall_dec. intros []; apply _. Defined.

(** A session for the examples: thirteen frames are captured, two are read,
    two more are captured, and one more read finds a buffer that is too
    small. *)
Definition busy_session : list ring_op :=
  ((λ k, Capture ok_allocator (packet [] (numbered_jpeg k))) <$> seqZ 1 13) ++
  [Consume [] (replicate 2000 0) 2000 100; Consume [] (replicate 2000 0) 2000 100] ++
  ((λ k, Capture ok_allocator (packet [] (numbered_jpeg k))) <$> seqZ 14 2) ++
  [Consume [] (replicate 2000 0) 10 100].

(** ** Reads that fail *)

(** The statuses with which [camera_read_frame] fails once its arguments
    are accepted. *)
Definition read_failures : list Z :=
  [CAMERA_ERROR_NO_FRAME; CAMERA_ERROR_BUFFER_SMALL; CAMERA_ERROR_TIMEOUT;
   CAMERA_ERROR_USB_FAILED].

(** ** The state of the log *)

(** The log file is open exactly while logging is enabled. *)
Definition log_ok (ls : log_state) : Prop :=
  g_debug_log_file ls = g_debug_logging_enabled ls.

(** The values of [USEEPLUS_DEBUG] that switch the log on, in lower case. *)
Definition debug_values : list (list Z) :=
  [bytes_of "1"; bytes_of "true"; bytes_of "yes"].

(** The environment asks for the log. *)
Definition debug_requested (env : log_env) : bool :=
  match env_debug env with
  | Some v => bool_decide (lower_case <$> v ∈ debug_values)
  | None => false
  end.

(** ** The life of a device *)

(** A call on an open device: one of the calls of the interface, or a
    stretch of the capture thread, which runs through some bulk reads. *)
Inductive api_call : Type :=
  | StartStreaming (env : usb_env)
  | StopStreaming
  | ReadThread (reads : list (allocator * winapi (list Z)))
  | ReadFrame (waits : list wait_result) (buffer : list Z) (buffer_size timeout_ms : Z).

(** The device and the caller's [last_error] after a run of calls. *)
Fixpoint run_calls (calls : list api_call) (dev : camera_device) (err : string)
  : outcome (camera_device * string) :=
  match calls with
  | [] => Returns (dev, err)
  | StartStreaming env :: calls' =>
      let '(_, dev', err') := camera_start_streaming env dev err in
      run_calls calls' dev' err'
  | StopStreaming :: calls' =>
      match camera_stop_streaming dev with
      | None => Undefined
      | Some dev' => run_calls calls' dev' err
      end
  | ReadThread reads :: calls' =>
      match read_thread_proc reads dev with
      | None => Undefined
      | Some (_, dev') => run_calls calls' dev' err
      end
  | ReadFrame waits buffer buffer_size timeout_ms :: calls' =>
      match camera_read_frame waits dev (Some buffer) buffer_size (Some 0)
              timeout_ms err with
      | Returns r => run_calls calls' (rr_dev r) (rr_error r)
      | Blocks => Blocks
      | Undefined => Undefined
      end
  end.

(** Every bulk read fits the read buffer of the thread, and every reader
    passes the size of a buffer it has. *)
Definition calls_fit (calls : list api_call) : Prop :=
  Forall (λ c, match c with
               | ReadThread reads => reads_fit reads
               | ReadFrame _ buffer buffer_size _ => buffer_size ≤ Z.of_nat (length buffer)
               | _ => True
               end) calls.

Global Instance calls_fit_dec calls : Decision (calls_fit calls).
Proof. unfold calls_fit. apply Forall_dec. intros []; apply _. Defined.

(** What holds of every device that can be reached: the ring is a queue,
    its ready slots hold JPEGs, the counters are [unsigned int]s, and there
    is a thread handle exactly while the device is streaming. *)
Definition device_ok (dev : camera_device) : Prop :=
  queue_ok dev ∧ ready_frames_ok dev ∧
  0 ≤ frames_captured dev < 2 ^ 32 ∧ 0 ≤ frames_dropped dev < 2 ^ 32 ∧
  read_thread dev = streaming dev.

(** Environments and calls for the examples. *)
Definition quiet_log_env : log_env := mk_log_env None true.

Definition ok_open_env : open_env :=
  mk_open_env true (λ _, Succeeds ()) (Succeeds ()).

Definition some_path : list Z := [92; 92; 63; 92; 117; 115; 98].

Definition busy_life : list api_call :=
  [ReadFrame [] (replicate 10 0) 10 100;
   StartStreaming ok_env;
   ReadThread reads_with_error;
   ReadFrame [] (replicate 2000 0) 2000 100;
   StopStreaming;
   StartStreaming (mk_usb_env (Succeeds ()) (Succeeds 3) (Succeeds ()));
   StopStreaming].

(** ** Enumerated interfaces *)

(** A string of ASCII characters. *)
Definition ascii_string (p : list Z) : Prop := Forall (λ c, 0 < c < 128) p.

Global Instance ascii_string_dec p : Decision (ascii_string p).
Proof. unfold ascii_string. apply _. Defined.

(** The device paths that the enumeration of a class yields. *)
Definition paths_of (ifaces : list iface) : list (list Z) :=
  omap (λ i, match i with Detail p => Some p | _ => None end) ifaces.

(** The test of the first loop, on the first 511 bytes of the path in lower
    case, and the test of the second loop. *)
Definition winusb_match (p : list Z) : bool :=
  let l := lower_case <$> take 511 p in
  strstr l (bytes_of "vid_2ce3") && strstr l (bytes_of "pid_3828") &&
  strstr l (bytes_of "mi_01").

Definition usb_match (p : list Z) : bool :=
  strstr p (bytes_of "vid_2ce3") && strstr p (bytes_of "pid_3828").

(** The two arrays of an entry have their 256 and 128 bytes. *)
Definition info_sized (i : camera_device_info) : Prop :=
  length (device_path i) = 256%nat ∧ length (description i) = 128%nat.

Global Instance info_sized_dec i : Decision (info_sized i).
Proof. unfold info_sized. apply _. Defined.

(** The entry that the first loop writes for a device path: the first 255
    bytes of the path and the description, each filled up with NULs. *)
Definition winusb_info (p : list Z) : camera_device_info :=
  mk_device_info VENDOR_ID PRODUCT_ID
    (take 255 (p ++ replicate 255 0) ++ [0])
    (bytes_of "Useeplus SuperCamera (WinUSB)" ++ replicate 99 0).

(** Interfaces and an array for the examples: three cameras among the
    WinUSB interfaces, the second with its path in upper case, and an array
    of two entries. *)
Definition camera_path (serial : string) : list Z :=
  bytes_of ("\\?\usb#vid_2ce3&pid_3828&mi_01#" +:+ serial +:+
            "#{dee824ef-729b-4a0e-9c14-b7117d33a817}").

Definition upper_path : list Z :=
  bytes_of "\\?\USB#VID_2CE3&PID_3828&MI_01#B#{DEE824EF-729B-4A0E-9C14-B7117D33A817}".

Definition three_cameras : list iface :=
  [Detail (bytes_of "\\?\usb#vid_046d&pid_c52b&mi_00#7#{dee824ef}");
   NoMemory; Detail (camera_path "a"); NoDetail; Detail upper_path;
   Detail (camera_path "c")].

Definition blank_info : camera_device_info :=
  mk_device_info 0 0 (replicate 256 204) (replicate 128 204).

(** An environment in which [CreateFileA] opens one path only. *)
Definition only_path (p : list Z) : open_env :=
  mk_open_env true (λ path, if bool_decide (path = p) then Succeeds () else Fails 2)
    (Succeeds ()).

(** A generic USB interface of the camera, with a path of 300 bytes. *)
Definition long_usb_path : list Z :=
  bytes_of "\\?\usb#vid_2ce3&pid_3828#" ++ replicate 274 120.

(** ** The reassembler on byte strings *)

(** The unfinished bytes: the content of the slot at the write index. *)
Definition unfinished (dev : camera_device) : list Z :=
  slot_content dev (write_frame dev).

(** The offset at which the scan of [process_data] ends a frame in the
    bytes [B], if it ends one. *)
Definition first_frame_end (B : list Z) : option Z :=
  default None (find_eoi (length B - 1) B 1).

(** What a payload [p] makes of the unfinished bytes [A] when every
    allocation succeeds: the unfinished bytes afterwards, and the frame
    completed, if one is.  A payload that starts with [FF D8] replaces the
    unfinished bytes, any other is appended to them; bytes that outgrow the
    block are given up; the bytes up to the end of the frame that the scan
    finds are the frame, and those behind it stay when they start with
    [FF D8]; unfinished bytes beyond [MAX_JPEG_SIZE] are given up. *)
Definition reassemble (A p : list Z) : list Z * list (list Z) :=
  if bool_decide (p = []) then (A, [])
  else
    let B := (if starts_with_soi p then [] else A) ++ p in
    if BUFFER_SIZE <? Z.of_nat (length B) then ([], [])
    else
      match first_frame_end B with
      | Some i =>
          let L := drop (Z.to_nat (i + 1)) B in
          (if starts_with_soi L && (Z.of_nat (length L) <=? MAX_JPEG_SIZE) then L else [],
           [take (Z.to_nat (i + 1)) B])
      | None => (if MAX_JPEG_SIZE <? Z.of_nat (length B) then [] else B, [])
      end.

(** Every allocation of the call succeeds. *)
Definition allocates (al : allocator) : Prop :=
  is_Some (alloc_frame al) ∧ alloc_leftover al = true ∧ is_Some (alloc_next al).

Global Instance allocates_dec al : Decision (allocates al).
Proof. unfold allocates. apply _. Defined.

(** The reassembler on a run of payloads: the unfinished bytes at the end
    and the frames completed, in their order. *)
Fixpoint reassemble_all (A : list Z) (payloads : list (list Z))
  : list Z * list (list Z) :=
  match payloads with
  | [] => (A, [])
  | p :: rest =>
      let '(A', frames) := reassemble A p in
      let '(A'', frames') := reassemble_all A' rest in
      (A'', frames ++ frames')
  end.

(** The last [n] elements of a list. *)
Definition lastn {A} (n : nat) (l : list A) : list A := drop (length l - n) l.

(** The packets of a run carry the magic and fit the read buffer, and every
    allocation succeeds. *)
Definition packets_ok (inputs : list (allocator * list Z)) : Prop :=
  Forall (λ x, allocates x.1 ∧ has_magic x.2 = true ∧
               Z.of_nat (length x.2) ≤ BUFFER_SIZE) inputs.

Global Instance packets_ok_dec inputs : Decision (packets_ok inputs).
Proof. unfold packets_ok. apply _. Defined.

(** A run for the examples: the tail of a frame whose head was lost, a
    whole JPEG cut in two, and the head of the next frame. *)
Definition resync_run : list (allocator * list Z) :=
  [(ok_allocator, packet [] (replicate 300 7 ++ [0xFF; 0xD9]));
   (ok_allocator, packet [] (take 400 small_jpeg));
   (ok_allocator, packet [] (drop 400 small_jpeg));
   (ok_allocator, packet [] [0xFF; 0xD8; 1; 2; 3])].

(** ** The smoothing ring as a queue *)

(** The [k]-th slot of the smoothing ring from the read position on. *)
Definition viewer_slot (v : viewer) (k : Z) : Z :=
  (g_read_pos v + k) mod SMOOTHING_BUFFER_SIZE.

(** The frame in a slot. *)
Definition slot_frame (s : FrameSlot) : list Z :=
  take (Z.to_nat (slot_size s)) (slot_data s).

(** The frames that wait for their display, the oldest first. *)
Definition buffered (v : viewer) : list (list Z) :=
  (λ k, from_option slot_frame [] (ring_slot v (viewer_slot v k))) <$>
    seqZ 0 (g_buffer_fill_level v).

(** The smoothing ring is a queue: its blocks and the display buffer have
    [cap] bytes, the fill level counts the slots from the read position up
    to the write position, and these are the filled slots. *)
Definition viewer_ok (cap : Z) (v : viewer) : Prop :=
  length (g_frame_ring v) = Z.to_nat SMOOTHING_BUFFER_SIZE ∧
  0 ≤ g_read_pos v < SMOOTHING_BUFFER_SIZE ∧
  0 ≤ g_buffer_fill_level v ≤ SMOOTHING_BUFFER_SIZE ∧
  g_write_pos v = viewer_slot v (g_buffer_fill_level v) ∧
  Z.of_nat (length (g_display_buffer v)) = cap ∧
  Forall (λ s, Z.of_nat (length (slot_data s)) = cap ∧ 0 ≤ slot_size s ≤ cap)
    (g_frame_ring v) ∧
  Forall (λ k, filled <$> ring_slot v (viewer_slot v k) =
               Some (bool_decide (k < g_buffer_fill_level v)))
    (seqZ 0 SMOOTHING_BUFFER_SIZE).

Global Instance viewer_ok_dec cap v : Decision (viewer_ok cap v).
Proof. unfold viewer_ok. apply _. Defined.

(** A viewer for the examples, with blocks of four bytes: the ring as
    [WinMain] sets it up, and the ring after the frames [1 1 1], [2 2 2],
    ... have arrived. *)
Definition small_viewer : viewer :=
  mk_viewer (replicate 12 (mk_slot (replicate 4 0) 0 false)) 0 0 (replicate 4 0) 0 0 0 0.

Definition after_frames (n : Z) : option viewer :=
  foldl (λ ov k, v ← ov; add_frame v (replicate 3 k) 3) (Some small_viewer) (seqZ 1 n).

Definition three_waiting : viewer := default small_viewer (after_frames 3).

Definition full_viewer : viewer :=
  default small_viewer (after_frames SMOOTHING_BUFFER_SIZE).

(** * Properties *)

(** ** Memory blocks *)

(** Boolean tests in the hypotheses as propositions. *)
Ltac zbool :=
  repeat match goal with
  | H : _ && _ = true |- _ => apply andb_true_iff in H; destruct H
  | H : negb _ = true |- _ => apply negb_true_iff in H
  | H : negb _ = false |- _ => apply negb_false_iff in H
  | H : (_ <=? _) = true |- _ => apply Z.leb_le in H
  | H : (_ <? _) = true |- _ => apply Z.ltb_lt in H
  | H : (_ =? _) = true |- _ => apply Z.eqb_eq in H
  | H : (_ <=? _) = false |- _ => apply Z.leb_gt in H
  | H : (_ <? _) = false |- _ => apply Z.ltb_ge in H
  | H : (_ =? _) = false |- _ => apply Z.eqb_neq in H
  end.

Lemma rd_Some (p : list Z) i x :
  rd p i = Some x ↔ 0 ≤ i ∧ p !! Z.to_nat i = Some x.
Proof.
  unfold rd. destruct (Z.leb_spec 0 i); split; try tauto; try done.
  intros [? _]. lia.
Qed.

Lemma rd_is_Some (p : list Z) i :
  0 ≤ i < Z.of_nat (length p) → is_Some (rd p i).
Proof.
  intros Hi. unfold rd. destruct (Z.leb_spec 0 i); [|lia].
  apply lookup_lt_is_Some. lia.
Qed.

Lemma rd_app_l (p q : list Z) i :
  i < Z.of_nat (length p) → rd (p ++ q) i = rd p i.
Proof.
  intros Hi. unfold rd. destruct (Z.leb_spec 0 i); [|done].
  apply lookup_app_l. lia.
Qed.

Lemma rd_take (p : list Z) n i :
  i < Z.of_nat n → rd (take n p) i = rd p i.
Proof.
  intros Hi. unfold rd. destruct (Z.leb_spec 0 i); [|done].
  apply lookup_take_lt. lia.
Qed.

Lemma length_malloc junk n b :
  0 ≤ n → malloc junk n = Some b → Z.of_nat (length b) = n.
Proof.
  unfold malloc. destruct junk; [|done]. intros Hn [= <-].
  rewrite length_resize. lia.
Qed.

Lemma bytes_at_Some (src : list Z) off n :
  0 ≤ off → 0 ≤ n → off + n ≤ Z.of_nat (length src) →
  bytes_at src off n = Some (take (Z.to_nat n) (drop (Z.to_nat off) src)).
Proof.
  intros. unfold bytes_at.
  destruct (Z.leb_spec 0 off), (Z.leb_spec 0 n),
    (Z.leb_spec (off + n) (Z.of_nat (length src))); simpl; done || lia.
Qed.

Lemma memcpy_Some (dst : list Z) off (src : list Z) :
  0 ≤ off → off + Z.of_nat (length src) ≤ Z.of_nat (length dst) →
  memcpy dst off src (Z.of_nat (length src)) =
    Some (take (Z.to_nat off) dst ++ src ++
          drop (Z.to_nat (off + Z.of_nat (length src))) dst).
Proof.
  intros Hoff Hfit. unfold memcpy.
  rewrite bytes_at_Some by lia. simpl.
  rewrite Nat2Z.id, firstn_all.
  destruct (Z.leb_spec 0 off),
    (Z.leb_spec (off + Z.of_nat (length src)) (Z.of_nat (length dst)));
    simpl; try lia.
  by rewrite drop_0.
Qed.

Lemma memcpy_inv (dst : list Z) off (src : list Z) n nb :
  memcpy dst off src n = Some nb →
  0 ≤ off ∧ 0 ≤ n ∧ off + n ≤ Z.of_nat (length dst) ∧
  n ≤ Z.of_nat (length src) ∧ length nb = length dst ∧
  take (Z.to_nat (off + n)) nb =
    take (Z.to_nat off) dst ++ take (Z.to_nat n) src.
Proof.
  unfold memcpy, bytes_at.
  destruct ((0 <=? 0) && (0 <=? n) && (0 + n <=? Z.of_nat (length src))) eqn:Hsrc;
    [|done].
  destruct ((0 <=? off) && (off + n <=? Z.of_nat (length dst))) eqn:Hdst; [|done].
  zbool. intros [= <-]. rewrite drop_0.
  repeat split; try lia.
  - rewrite !length_app, !length_take, length_drop. lia.
  - rewrite app_assoc, take_app_length'; [done|].
    rewrite length_app, !length_take. lia.
Qed.

(** ** The scan for the end of the JPEG *)

Lemma is_eoi_at_spec (buf : list Z) i :
  1 ≤ i < Z.of_nat (length buf) →
  ∃ b, is_eoi_at buf i = Some b ∧ (b = true ↔ eoi_at buf i).
Proof.
  intros Hi. unfold is_eoi_at, eoi_at.
  destruct (rd_is_Some buf (i - 1)) as [a Ha]; [lia|].
  destruct (rd_is_Some buf i) as [b Hb]; [lia|].
  rewrite Ha, Hb. simpl.
  destruct (Z.eqb_spec a 0xFF) as [->|Hne]; simpl.
  - eexists; split; [done|]. rewrite Z.eqb_eq. split; [by intros ->|].
    intros [_ [=]]. done.
  - eexists; split; [done|]. split; [done|]. intros [[=] _]. done.
Qed.

Lemma is_complete_jpeg_spec (buf : list Z) n :
  2 ≤ Z.of_nat (length buf) →
  ∃ b, is_complete_jpeg buf n = Some b ∧
       (b = true ↔ MIN_JPEG_SIZE ≤ n ∧ soi_first buf).
Proof.
  intros Hlen. unfold is_complete_jpeg, soi_first.
  destruct (rd_is_Some buf 0) as [a Ha]; [lia|].
  destruct (rd_is_Some buf 1) as [b Hb]; [lia|].
  rewrite Ha, Hb. simpl.
  destruct (Z.leb_spec MIN_JPEG_SIZE n); simpl.
  - destruct (Z.eqb_spec a 0xFF) as [->|Hne]; simpl.
    + eexists; split; [done|]. rewrite Z.eqb_eq. split; [by intros ->|].
      intros [_ [_ [=]]]. done.
    + eexists; split; [done|]. split; [done|]. intros [_ [[=] _]]. done.
  - eexists; split; [done|]. split; [done|]. lia.
Qed.

Lemma find_eoi_spec (n : nat) (buf : list Z) i0 :
  1 ≤ i0 → i0 + Z.of_nat n ≤ Z.of_nat (length buf) →
  ∃ r, find_eoi n buf i0 = Some r ∧
    match r with
    | Some i =>
        i0 ≤ i < i0 + Z.of_nat n ∧ frame_end buf i ∧
        ∀ j, i0 ≤ j < i → ¬ frame_end buf j
    | None => ∀ j, i0 ≤ j < i0 + Z.of_nat n → ¬ frame_end buf j
    end.
Proof.
  revert i0. induction n as [|n IH]; intros i0 Hi0 Hlen; simpl.
  - eexists; split; [done|]. intros j Hj. lia.
  - destruct (is_eoi_at_spec buf i0) as (hit & -> & Hhit); [lia|].
    destruct (is_complete_jpeg_spec buf (i0 + 1)) as (ok & Hok & Hok'); [lia|].
    destruct (IH (i0 + 1)) as (r & Hr & Hspec); [lia..|].
    assert (Hstep : (∀ j, i0 ≤ j < i0 + 1 → ¬ frame_end buf j) →
      match r with
      | Some i =>
          i0 ≤ i < i0 + Z.of_nat (S n) ∧ frame_end buf i ∧
          ∀ j, i0 ≤ j < i → ¬ frame_end buf j
      | None => ∀ j, i0 ≤ j < i0 + Z.of_nat (S n) → ¬ frame_end buf j
      end).
    { intros Hfirst. destruct r as [i|].
      - destruct Hspec as (Hi & Hend & Hmin). split; [lia|]. split; [done|].
        intros j Hj. destruct (decide (j < i0 + 1)); [apply Hfirst | apply Hmin]; lia.
      - intros j Hj. destruct (decide (j < i0 + 1)); [apply Hfirst | apply Hspec]; lia. }
    simpl. destruct hit; simpl.
    + rewrite Hok. simpl. destruct ok.
      * eexists; split; [done|]. split; [lia|]. split.
        { split; [by apply Hhit | by apply Hok']. }
        intros j Hj. lia.
      * exists r. split; [done|]. apply Hstep. intros j Hj.
        replace j with i0 by lia. intros [_ Hm]. by apply Hok' in Hm.
    + exists r. split; [done|]. apply Hstep. intros j Hj.
      replace j with i0 by lia. intros [He _]. by apply Hhit in He.
Qed.

(** ** Frame slots *)

Lemma payload_length (pkt : list Z) :
  HEADER_SIZE < Z.of_nat (length pkt) →
  Z.of_nat (length pkt) - HEADER_SIZE =
    Z.of_nat (length (drop (Z.to_nat HEADER_SIZE) pkt)).
Proof. intros Hlen. rewrite length_drop. unfold HEADER_SIZE in *. lia. Qed.

Lemma starts_with_soi_length (p : list Z) :
  starts_with_soi p = true → 2 ≤ Z.of_nat (length p).
Proof. destruct p as [|? [|? ?]]; simpl; try done. lia. Qed.

Lemma alloc_write_slot_spec al f f1 :
  frame_ok f → alloc_write_slot al f = Some f1 →
  frame_ok f1 ∧ is_Some (data f1) ∧ size f1 = size f ∧ ready f1 = ready f ∧
  content f1 = content f ∧ (is_Some (data f) → f1 = f).
Proof.
  unfold alloc_write_slot, frame_ok, content. destruct (data f) as [b|] eqn:Hd.
  - intros Hok [= <-]. rewrite Hd. eauto 10.
  - intros (Hs & Hc & Hr). destruct (malloc _ _) as [b|] eqn:Hm; [|done].
    intros [= <-]. simpl. apply length_malloc in Hm; [|done].
    rewrite Hs, Hr. split_and!; eauto; try done.
Qed.

Lemma discard_incomplete_spec f p :
  frame_ok f →
  let f' := discard_incomplete f p in
  frame_ok f' ∧ data f' = data f ∧ capacity f' = capacity f ∧
  ready f' = ready f ∧
  (f' = f ∨ (f' = set_size f 0 ∧ starts_with_soi p = true ∧ ready f = false)).
Proof.
  unfold discard_incomplete, frame_ok.
  destruct (starts_with_soi p && (0 <? size f) && negb (ready f)) eqn:Hc; simpl.
  - zbool. destruct (data f); [|intros (? & ? & ?); lia]. intros (? & ? & ?).
    split_and!; eauto; try lia.
  - intros. split_and!; eauto.
Qed.

Lemma overflow_reset_spec f (p : list Z) :
  frame_ok f → is_Some (data f) → Z.of_nat (length p) ≤ BUFFER_SIZE →
  ∃ f', overflow_reset f p (Z.of_nat (length p)) = Some f' ∧
    frame_ok f' ∧ ready f' = false ∧
    size f' = (if starts_with_soi p then Z.of_nat (length p) else 0) ∧
    content f' = (if starts_with_soi p then p else []).
Proof.
  unfold frame_ok, overflow_reset, content. intros Hok [buf Hd] Hlen.
  rewrite Hd in Hok. destruct Hok as (Hb & Hc & Hs).
  destruct (starts_with_soi p) eqn:Hsoi; simpl.
  - rewrite Hd. simpl. rewrite memcpy_Some by lia. simpl.
    eexists; split; [done|]. simpl.
    rewrite !length_app, length_drop, Hc.
    split_and!; try lia.
    rewrite Nat2Z.id. by rewrite take_app_length.
  - eexists; split; [done|]. simpl. rewrite Hd. split_and!; try done; lia.
Qed.

Lemma append_payload_spec f buf (p : list Z) :
  frame_ok f → data f = Some buf → size f + Z.of_nat (length p) ≤ BUFFER_SIZE →
  ∃ nb, append_payload f p (Z.of_nat (length p)) =
          Some (mk_frame (Some nb) (size f + Z.of_nat (length p)) (capacity f) (ready f)) ∧
    length nb = length buf ∧
    take (Z.to_nat (size f + Z.of_nat (length p))) nb =
      take (Z.to_nat (size f)) buf ++ p.
Proof.
  unfold frame_ok, append_payload. intros Hok Hd Hfit. rewrite Hd in *.
  destruct Hok as (Hb & Hc & Hs). simpl.
  destruct (memcpy buf (size f) p (Z.of_nat (length p))) as [nb|] eqn:Hm.
  - simpl. exists nb. split; [done|].
    apply memcpy_inv in Hm as (_ & _ & _ & _ & Hl & Ht).
    split; [done|]. rewrite Ht, Nat2Z.id. by rewrite firstn_all.
  - rewrite memcpy_Some in Hm by lia. done.
Qed.

(** ** The ring *)

Lemma next_index_bounds i :
  0 ≤ i < MAX_FRAMES →
  0 ≤ Z.rem (i + 1) MAX_FRAMES < MAX_FRAMES ∧ Z.rem (i + 1) MAX_FRAMES ≠ i ∧
  Z.rem (i + 1) MAX_FRAMES = (i + 1) mod MAX_FRAMES.
Proof.
  unfold MAX_FRAMES. intros Hi.
  rewrite Z.rem_mod_nonneg by lia.
  pose proof (Z.mod_pos_bound (i + 1) 12).
  split; [lia|]. split; [|done].
  destruct (decide (i = 11)) as [->|]; [done|].
  rewrite Z.mod_small by lia. lia.
Qed.

Lemma frame_at_ring_ok dev i :
  ring_ok dev → 0 ≤ i < MAX_FRAMES →
  ∃ f, frame_at dev i = Some f ∧ frames dev !! Z.to_nat i = Some f ∧ frame_ok f.
Proof.
  intros (Hlen & _ & _ & Hall) Hi. unfold frame_at.
  destruct (Z.leb_spec 0 i); [|lia].
  destruct (lookup_lt_is_Some_2 (frames dev) (Z.to_nat i)) as [f Hf]; [lia|].
  exists f. split_and!; [done..|].
  by eapply Forall_lookup_1.
Qed.

Lemma frame_at_store dev i j f :
  0 ≤ i → 0 ≤ j → (Z.to_nat i < length (frames dev))%nat →
  frame_at (store_frame dev i f) j =
    if decide (i = j) then Some f else frame_at dev j.
Proof.
  intros Hi Hj Hlen. unfold frame_at, store_frame. simpl.
  destruct (Z.leb_spec 0 j); [|lia].
  destruct (decide (i = j)) as [->|Hne].
  - by apply list_lookup_insert_eq.
  - apply list_lookup_insert_ne. lia.
Qed.

Lemma ring_ok_store dev i f :
  ring_ok dev → frame_ok f → ring_ok (store_frame dev i f).
Proof.
  intros (Hlen & Hw & Hr & Hall) Hf. unfold ring_ok, store_frame. simpl.
  rewrite length_insert. split_and!; try lia.
  by apply Forall_insert.
Qed.

Lemma safety_check_spec f :
  frame_ok f →
  let f' := safety_check f in
  frame_ok f' ∧ data f' = data f ∧ ready f' = ready f ∧
  (f' = f ∨ (size f' = 0 ∧ MAX_JPEG_SIZE < size f ∧ ready f = false)).
Proof.
  unfold safety_check, frame_ok.
  destruct ((MAX_JPEG_SIZE <? size f) && negb (ready f)) eqn:Hc; simpl.
  - zbool. destruct (data f);
      [|intros (? & ? & ?); unfold MAX_JPEG_SIZE, BUFFER_SIZE in *; lia].
    intros (? & ? & ?). split_and!; eauto; try lia.
  - intros. split_and!; eauto.
Qed.

(** ** Completing a frame *)

Lemma frames_store dev i f :
  frames (store_frame dev i f) = <[Z.to_nat i := f]> (frames dev).
Proof. done. Qed.

Lemma leftover_bytes_length frame (buf : list Z) i :
  Z.of_nat (length buf) = BUFFER_SIZE → 1 ≤ i < size frame → size frame ≤ BUFFER_SIZE →
  Z.of_nat (length (leftover_bytes frame buf i)) = size frame - (i + 1).
Proof.
  intros Hb Hi Hs. unfold leftover_bytes. rewrite length_take, length_drop. lia.
Qed.

(** The next slot after the copy of the leftover bytes and the safety
    check, for the next slot [f0] with its block [nbuf]. *)
Lemma leftover_copy_spec al frame (buf : list Z) i f0 (nbuf : list Z) ld :
  Z.of_nat (length buf) = BUFFER_SIZE → 1 ≤ i < size frame → size frame ≤ BUFFER_SIZE →
  data f0 = Some nbuf → Z.of_nat (length nbuf) = BUFFER_SIZE →
  capacity f0 = BUFFER_SIZE →
  match ld with
  | Some l => l = leftover_bytes frame buf i ∧ alloc_leftover al = true ∧
              0 < size frame - (i + 1)
  | None => alloc_leftover al = false ∨ size frame - (i + 1) = 0
  end →
  ∃ f1,
    match ld with
    | Some ld0 =>
        if (2 <=? size frame - (i + 1)) && starts_with_soi ld0
        then nb ← memcpy nbuf 0 ld0 (size frame - (i + 1));
             Some (set_size (set_data f0 (Some nb)) (size frame - (i + 1)))
        else Some (set_size f0 0)
    | None => Some (set_size f0 0)
    end = Some f1 ∧
    let g := safety_check (set_ready f1 false) in
    frame_ok g ∧ ready g = false ∧
    if leftover_kept al frame buf i
    then content g = leftover_bytes frame buf i ∧ size g = size frame - (i + 1)
    else size g = 0.
Proof.
  intros Hb Hi Hs Hd Hnb Hc Hld.
  pose proof (leftover_bytes_length frame buf i Hb Hi Hs) as HL.
  unfold leftover_kept.
  set (L := leftover_bytes frame buf i) in *.
  set (n := size frame - (i + 1)) in *.
  assert (Hn : n ≤ BUFFER_SIZE) by lia.
  clearbody L n. subst n.
  assert (Hempty : ∃ f1, Some (set_size f0 0) = Some f1 ∧
            let g := safety_check (set_ready f1 false) in
            frame_ok g ∧ ready g = false ∧ size g = 0).
  { eexists; split; [done|]. unfold safety_check, frame_ok. simpl.
    rewrite Hd. unfold MAX_JPEG_SIZE, BUFFER_SIZE in *. simpl. split_and!; try done; lia. }
  destruct ld as [l|].
  - destruct Hld as (-> & -> & Hpos). simpl.
    destruct (starts_with_soi L) eqn:Hsoi; [|by rewrite andb_false_r].
    apply starts_with_soi_length in Hsoi.
    destruct (Z.leb_spec 2 (Z.of_nat (length L))); [|lia]. simpl.
    rewrite memcpy_Some by lia. simpl.
    eexists; split; [done|]. unfold safety_check, frame_ok, content. simpl.
    destruct (Z.leb_spec (Z.of_nat (length L)) MAX_JPEG_SIZE);
      destruct (Z.ltb_spec MAX_JPEG_SIZE (Z.of_nat (length L))); try lia; simpl.
    + rewrite !length_app, length_drop. split_and!; try done; try lia.
      rewrite Nat2Z.id. by rewrite take_app_length.
    + rewrite !length_app, length_drop. split_and!; try done; lia.
  - destruct Hempty as (f1 & Hf1 & ? & ? & ?). exists f1. split; [done|].
    destruct Hld as [->|Hz]; [done|].
    assert (L = []) as -> by (apply nil_length_inv; lia).
    simpl. by rewrite andb_false_r.
Qed.

Lemma complete_frame_spec al dev frame buf i :
  ring_ok dev → frame_ok frame → data frame = Some buf → 1 ≤ i < size frame →
  let w := write_frame dev in
  let w' := Z.rem (w + 1) MAX_FRAMES in
  let r := read_frame dev in
  ∃ dev' g0 g,
    complete_frame al dev frame buf i = Some dev' ∧
    frame_at dev w' = Some g0 ∧
    frames dev' =
      <[Z.to_nat w' := g]>
        (<[Z.to_nat w := set_ready (set_size frame (i + 1)) true]> (frames dev)) ∧
    write_frame dev' = w' ∧
    frames_captured dev' = uint_incr (frames_captured dev) ∧
    frame_ready_event dev' = true ∧
    streaming dev' = streaming dev ∧
    (if decide (w' = r ∧ ready g0 = true)
     then read_frame dev' = Z.rem (r + 1) MAX_FRAMES ∧
          frames_dropped dev' = uint_incr (frames_dropped dev)
     else read_frame dev' = r ∧ frames_dropped dev' = frames_dropped dev) ∧
    frame_ok g ∧ ready g = false ∧
    (if decide (data g0 = None ∧ alloc_next al = None) then g = g0
     else if leftover_kept al frame buf i
          then content g = leftover_bytes frame buf i ∧
               size g = size frame - (i + 1)
          else size g = 0).
Proof.
  intros Hring Hfr Hd Hi w w' r.
  pose proof Hring as (Hlen & Hw & Hr & Hall).
  destruct (next_index_bounds w Hw) as (Hw' & Hne & _).
  destruct (frame_at_ring_ok dev w' Hring Hw') as (g0 & Hg0 & Hg0l & Hg0ok).
  unfold frame_ok in Hfr. rewrite Hd in Hfr. destruct Hfr as (Hb & Hc & Hs).
  unfold complete_frame.
  set (leftover := size frame - (i + 1)).
  assert (Hld : ∃ ld,
    (if (0 <? leftover) && (leftover <? BUFFER_SIZE) && alloc_leftover al
     then Some <$> bytes_at buf (i + 1) leftover else Some None) = Some ld ∧
    match ld with
    | Some l => l = leftover_bytes frame buf i ∧ alloc_leftover al = true ∧ 0 < leftover
    | None => alloc_leftover al = false ∨ leftover = 0
    end).
  { destruct ((0 <? leftover) && (leftover <? BUFFER_SIZE) && alloc_leftover al) eqn:Hc1.
    - zbool. rewrite bytes_at_Some by (unfold leftover in *; lia). simpl.
      eexists; split; [done|]. done.
    - eexists; split; [done|]. simpl.
      destruct (alloc_leftover al); [|by left]. right.
      rewrite andb_true_r in Hc1. apply andb_false_iff in Hc1 as [Hc1|Hc1]; zbool;
        unfold leftover in *; lia. }
  destruct Hld as (ld & -> & Hld). simpl.
  set (fin := set_ready (set_size frame (i + 1)) true).
  set (dev1 := set_frame_ready_event _ true).
  assert (Hat : ∀ d j, frames d = frames dev1 → 0 ≤ j < MAX_FRAMES →
            frame_at d j = if decide (w = j) then Some fin else frame_at dev j).
  { intros d j Hfs Hj. rewrite <- (frame_at_store dev w j fin) by lia.
    unfold frame_at. by rewrite Hfs. }
  assert (Hov : (if w' =? r then ready <$> frame_at dev1 r else Some false) =
                Some (bool_decide (w' = r ∧ ready g0 = true))).
  { destruct (Z.eqb_spec w' r) as [Heq|Hneq].
    - rewrite <- Heq, Hat by done. rewrite decide_False by done.
      rewrite Hg0. simpl. f_equal. destruct (ready g0).
      + by rewrite bool_decide_eq_true_2.
      + rewrite bool_decide_eq_false_2; [done|]. by intros [_ ?].
    - rewrite bool_decide_eq_false_2; [done|]. by intros [? _]. }
  fold w w' r. rewrite Hov. simpl.
  set (dev2 := set_write_frame _ w').
  assert (Hfs2 : frames dev2 = frames dev1) by (unfold dev2; by case_bool_decide).
  rewrite (Hat dev2 w') by done. rewrite decide_False by done.
  rewrite Hg0. simpl.
  assert (Hfs1 : frames dev1 = <[Z.to_nat w := fin]> (frames dev)) by done.
  assert (Hfields : ∀ d, d = dev2 ∨ (∃ g, d = store_frame dev2 w' g) →
    write_frame d = w' ∧
    frames_captured d = uint_incr (frames_captured dev) ∧
    frame_ready_event d = true ∧
    streaming d = streaming dev ∧
    (if decide (w' = r ∧ ready g0 = true)
     then read_frame d = Z.rem (r + 1) MAX_FRAMES ∧
          frames_dropped d = uint_incr (frames_dropped dev)
     else read_frame d = r ∧ frames_dropped d = frames_dropped dev)).
  { intros d Hcase. unfold dev2 in Hcase.
    destruct (decide (w' = r ∧ ready g0 = true)) as [Hdec|Hdec].
    - rewrite bool_decide_eq_true_2 in Hcase by done.
      by destruct Hcase as [->|[g ->]].
    - rewrite bool_decide_eq_false_2 in Hcase by done.
      by destruct Hcase as [->|[g ->]]. }
  subst leftover.
  assert (Hcopy : ∀ f0 nbuf, data f0 = Some nbuf →
    Z.of_nat (length nbuf) = BUFFER_SIZE → capacity f0 = BUFFER_SIZE →
    ∃ f1, _ = Some f1 ∧ _) by
    (intros f0 nbuf H1 H2 H3;
     exact (leftover_copy_spec al frame buf i f0 nbuf ld Hb Hi (proj2 Hs) H1 H2 H3 Hld)).
  unfold alloc_next_slot. destruct (data g0) as [nbuf|] eqn:Hdg0.
  - unfold frame_ok in Hg0ok. rewrite Hdg0 in Hg0ok. destruct Hg0ok as (? & ? & ?).
    destruct (Hcopy g0 nbuf) as (f1 & -> & Hg1 & Hg2 & Hg3); [done..|]. simpl.
    eexists _, g0, _. split; [done|]. split; [done|].
    split. { by rewrite frames_store, Hfs2, Hfs1. }
    destruct (Hfields (store_frame dev2 w' (safety_check (set_ready f1 false))))
      as (? & ? & ? & ? & ?); [eauto|].
    split_and!; try done.
    rewrite decide_False; [done|]. intros [Hn _]. by rewrite Hdg0 in Hn.
  - destruct (malloc (alloc_next al) BUFFER_SIZE) as [b|] eqn:Hm.
    + assert (Z.of_nat (length b) = BUFFER_SIZE)
        by (by apply (length_malloc (alloc_next al))).
      destruct (Hcopy (set_capacity (set_data g0 (Some b)) BUFFER_SIZE) b)
        as (f1 & -> & Hg1 & Hg2 & Hg3); [done..|]. simpl.
      eexists _, g0, _. split; [done|]. split; [done|].
      split. { by rewrite frames_store, Hfs2, Hfs1. }
      destruct (Hfields (store_frame dev2 w' (safety_check (set_ready f1 false))))
        as (? & ? & ? & ? & ?); [eauto|].
      split_and!; try done.
      rewrite decide_False; [done|]. intros [_ Hn]. by rewrite Hn in Hm.
    + exists dev2, g0, g0. split; [done|]. split; [done|].
      split. { rewrite Hfs2, Hfs1. symmetry. apply list_insert_id.
               rewrite list_lookup_insert_ne by lia. done. }
      destruct (Hfields dev2) as (? & ? & ? & ? & ?); [eauto|].
      unfold frame_ok in Hg0ok. rewrite Hdg0 in Hg0ok. destruct Hg0ok as (? & ? & ?).
      split_and!; try done.
      * unfold frame_ok. by rewrite Hdg0.
      * rewrite decide_True; [done|]. split; [done|].
        unfold malloc in Hm. by destruct (alloc_next al).
Qed.

(** ** The paths through [process_data] *)

(** [process_data] on a well-formed ring and a packet that fits the read
    buffer returns, along one of the five paths. *)
Lemma process_data_total al dev pkt :
  ring_ok dev → Z.of_nat (length pkt) ≤ BUFFER_SIZE →
  ∃ f dev',
    frame_at dev (write_frame dev) = Some f ∧ frame_ok f ∧
    process_data al dev pkt = Some dev' ∧
    process_data_path al dev pkt f dev'.
Proof.
  intros Hring Hpkt. pose proof Hring as (Hlen & Hw & Hr & Hall).
  destruct (frame_at_ring_ok dev _ Hring Hw) as (f & Hf & Hfl & Hfok).
  exists f. unfold process_data. rewrite Hf. simpl.
  destruct (has_magic pkt) eqn:Hmagic;
    [|eexists; split_and!; [done..|constructor; by left]].
  destruct (alloc_write_slot al f) as [f1|] eqn:Hal;
    [|eexists; split_and!; [done..|constructor; by right]].
  destruct (alloc_write_slot_spec _ _ _ Hfok Hal) as (Hf1ok & [buf1 Hd1] & _).
  destruct (Z.ltb_spec HEADER_SIZE (Z.of_nat (length pkt))) as [Hlong|Hshort];
    [|eexists; split_and!; [done..|by econstructor]].
  rewrite (payload_length pkt Hlong).
  set (payload := drop (Z.to_nat HEADER_SIZE) pkt).
  assert (Hpl : Z.of_nat (length payload) ≤ BUFFER_SIZE).
  { unfold payload. rewrite length_drop. lia. }
  destruct (discard_incomplete_spec f1 payload Hf1ok) as (Hf2ok & Hd2 & Hc2 & Hr2 & _).
  set (f2 := discard_incomplete f1 payload) in *.
  rewrite Hd1 in Hd2.
  destruct (Z.ltb_spec (capacity f2) (size f2 + Z.of_nat (length payload)))
    as [Hover|Hfit].
  - destruct (overflow_reset_spec f2 payload Hf2ok) as (f' & Hf' & _); [by eexists|done|].
    rewrite Hf'. simpl. eexists; split_and!; [done..|]. by eapply path_overflow.
  - assert (Hcap : capacity f2 = BUFFER_SIZE).
    { unfold frame_ok in Hf2ok. rewrite Hd2 in Hf2ok. tauto. }
    destruct (append_payload_spec f2 buf1 payload Hf2ok Hd2) as (nb & Happ & Hnl & Hnt);
      [lia|].
    rewrite Happ. simpl.
    set (f3 := mk_frame (Some nb) _ _ _) in *.
    assert (Hf3ok : frame_ok f3).
    { unfold frame_ok in *. rewrite Hd2 in Hf2ok. simpl. lia. }
    assert (Happd : appended f2 payload f3 buf1 nb) by done.
    destruct (find_eoi_spec (Z.to_nat (size f2 + Z.of_nat (length payload) - 1)) nb 1)
      as (found & -> & Hfound);
      [lia| |].
    { unfold frame_ok in Hf3ok. simpl in Hf3ok. unfold BUFFER_SIZE in *. lia. }
    simpl. destruct found as [i|].
    + destruct Hfound as (Hi & Hend & Hmin).
      assert (Hi' : 1 ≤ i < size f3) by (simpl in *; lia).
      destruct (complete_frame_spec al dev f3 nb i Hring Hf3ok eq_refl Hi')
        as (dev' & g0 & g & Hcf & _).
      rewrite Hcf. eexists; split_and!; [done..|]. by eapply path_complete.
    + eexists; split_and!; [done..|]. eapply path_append; try done.
      intros j Hj. apply Hfound. simpl in *. lia.
Qed.

(** ** Packets without payload *)




(** ** Well-formedness is preserved *)


Lemma complete_frame_ring_ok al dev f3 nb i dev' :
  ring_ok dev → frame_ok f3 → data f3 = Some nb → 1 ≤ i < size f3 →
  complete_frame al dev f3 nb i = Some dev' → ring_ok dev'.
Proof.
  intros Hring Hok Hd Hi Hcf. pose proof Hring as (Hlen & Hw & Hr & Hall).
  destruct (complete_frame_spec al dev f3 nb i Hring Hok Hd Hi)
    as (dev'' & g0 & g & Hcf' & Hg0 & Hfs & Hwf & _ & _ & _ & Hrd & Hgok & _).
  rewrite Hcf in Hcf'. injection Hcf' as <-.
  destruct (next_index_bounds _ Hw) as (Hw' & _).
  unfold ring_ok. rewrite Hfs, Hwf, !length_insert. split_and!; try lia.
  - destruct (decide _); destruct Hrd as [-> _]; [|lia].
    destruct (next_index_bounds _ Hr). lia.
  - destruct (decide _); destruct Hrd as [-> _]; [|lia].
    destruct (next_index_bounds _ Hr). lia.
  - apply Forall_insert; [|done]. apply Forall_insert; [done|].
    unfold frame_ok in *. rewrite Hd in Hok. simpl. rewrite Hd. lia.
Qed.

Lemma process_data_path_ring_ok al dev pkt f dev' :
  ring_ok dev → frame_ok f → Z.of_nat (length pkt) ≤ BUFFER_SIZE →
  process_data_path al dev pkt f dev' → ring_ok dev'.
Proof.
  intros Hring Hfok Hpkt Hpath.
  destruct Hpath as [?|f1 ? ? Hal|f1 f' payload f2 ? ? Hal Hover Hf'
                    |f1 f3 buf nb payload f2 ? ? Hal Hfit Happ Hnone
                    |f1 f3 buf nb i dev' payload f2 ? ? Hal Hfit Happ Hi Hend Hmin Hcf].
  - done.
  - apply ring_ok_store; [done|]. by apply (alloc_write_slot_spec al f).
  - destruct (alloc_write_slot_spec _ _ _ Hfok Hal) as (Hf1ok & Hd1 & _).
    destruct (discard_incomplete_spec f1 payload Hf1ok) as (Hf2ok & Hd2 & _).
    destruct (overflow_reset_spec f2 payload Hf2ok) as (f'' & Hf'' & ? & _).
    { subst f2. by rewrite Hd2. }
    { unfold payload. rewrite length_drop. lia. }
    rewrite Hf' in Hf''. injection Hf'' as <-. by apply ring_ok_store.
  - destruct Happ as (_ & _ & _ & _ & Hf3ok).
    apply ring_ok_store; [done|]. by apply safety_check_spec.
  - destruct Happ as (_ & -> & _ & _ & Hf3ok).
    by eapply complete_frame_ring_ok.
Qed.

(** ** Ready slots hold JPEGs *)

Lemma rd_appended f2 (p : list Z) f3 buf nb j :
  frame_ok f2 → appended f2 p f3 buf nb → j < size f2 → rd nb j = rd buf j.
Proof.
  intros Hok (Hd & -> & Hl & Ht & _) Hj. simpl in Ht.
  unfold frame_ok in Hok. rewrite Hd in Hok.
  rewrite <- (rd_take nb (Z.to_nat (size f2 + Z.of_nat (length p)))) by lia.
  rewrite Ht, rd_app_l by (rewrite length_take; lia).
  apply rd_take. lia.
Qed.

Lemma ready_frames_ok_store dev i f :
  ready_frames_ok dev → (ready f = true → jpeg_frame f) →
  ready_frames_ok (store_frame dev i f).
Proof. intros Hall Hf. by apply Forall_insert. Qed.

Lemma frame_end_jpeg_frame f3 nb i :
  frame_ok f3 → data f3 = Some nb → 1 ≤ i < size f3 → frame_end nb i →
  jpeg_frame (set_ready (set_size f3 (i + 1)) true).
Proof.
  unfold frame_ok, jpeg_frame. intros Hok Hd Hi ((He1 & He2) & Hmin & Hs1 & Hs2).
  simpl. rewrite Hd in *. replace (i + 1 - 2) with (i - 1) by lia.
  replace (i + 1 - 1) with i by lia. split_and!; try done; lia.
Qed.

Lemma process_data_path_ready_ok al dev pkt f dev' :
  ring_ok dev → frames dev !! Z.to_nat (write_frame dev) = Some f →
  Z.of_nat (length pkt) ≤ BUFFER_SIZE → ready_frames_ok dev →
  process_data_path al dev pkt f dev' → ready_frames_ok dev'.
Proof.
  intros Hring Hfl Hpkt Hready Hpath.
  assert (Hfok : frame_ok f).
  { destruct Hring as (_ & _ & _ & Hall). by eapply Forall_lookup_1. }
  assert (Hfj : ready f = true → jpeg_frame f).
  { by eapply (Forall_lookup_1 _ _ _ _ Hready). }
  destruct Hpath as [?|f1 ? ? Hal|f1 f' payload f2 ? ? Hal Hover Hf'
                    |f1 f3 buf nb payload f2 ? ? Hal Hfit Happ Hnone
                    |f1 f3 buf nb i dev' payload f2 ? ? Hal Hfit Happ Hi Hend Hmin Hcf].
  - done.
  - apply ready_frames_ok_store; [done|].
    destruct (alloc_write_slot_spec _ _ _ Hfok Hal) as (_ & _ & _ & Hrd & _ & Hsame).
    rewrite Hrd. intros Hr. pose proof (Hfj Hr) as Hj. rewrite Hsame; [done|].
    unfold jpeg_frame in Hj. by destruct (data f).
  - apply ready_frames_ok_store; [done|].
    destruct (alloc_write_slot_spec _ _ _ Hfok Hal) as (Hf1ok & Hd1 & _).
    destruct (discard_incomplete_spec f1 payload Hf1ok) as (Hf2ok & Hd2 & _).
    destruct (overflow_reset_spec f2 payload Hf2ok) as (f'' & Hf'' & ? & Hrd & _).
    { subst f2. by rewrite Hd2. }
    { unfold payload. rewrite length_drop. lia. }
    rewrite Hf' in Hf''. injection Hf'' as <-. by rewrite Hrd.
  - apply ready_frames_ok_store; [done|].
    destruct (alloc_write_slot_spec _ _ _ Hfok Hal)
      as (Hf1ok & Hd1 & _ & Hrd1 & _ & Hsame).
    destruct (discard_incomplete_spec f1 payload Hf1ok)
      as (Hf2ok & Hd2 & _ & Hrd2 & Hf2).
    fold f2 in Hf2ok, Hd2, Hrd2, Hf2. clearbody f2.
    pose proof Happ as (Hdb & Hf3 & _ & _ & Hf3ok).
    destruct (safety_check_spec f3 Hf3ok) as (_ & _ & Hrd3 & _).
    rewrite Hrd3, Hf3. simpl. rewrite Hrd2, Hrd1. intros Hr. exfalso.
    pose proof (Hfj Hr) as Hj. unfold jpeg_frame in Hj.
    destruct (data f) as [b|] eqn:Hdf; [|done].
    rewrite Hsame in * by done.
    destruct Hf2 as [Heq|(_ & _ & ?)]; [|congruence].
    rewrite Heq, Hdf in Hdb. injection Hdb as <-.
    destruct Hj as (Hsz & Hs0 & Hs1 & He0 & He1).
    unfold MIN_JPEG_SIZE in *.
    apply (Hnone (size f - 1)).
    { rewrite Hf3. simpl. rewrite Heq. lia. }
    assert (Hrd : ∀ j, j < size f → rd nb j = rd b j).
    { intros j Hj. eapply rd_appended; [exact Hf2ok|exact Happ|]. rewrite Heq. lia. }
    unfold frame_end, eoi_at, soi_first, MIN_JPEG_SIZE.
    rewrite !Hrd by lia. replace (size f - 1 - 1) with (size f - 2) by lia.
    split_and!; try done; lia.
  - pose proof Happ as (Hdb & Hf3 & _ & _ & Hf3ok).
    assert (Hd3 : data f3 = Some nb) by (by rewrite Hf3).
    destruct (complete_frame_spec al dev f3 nb i Hring Hf3ok Hd3 Hi)
      as (dev'' & g0 & g & Hcf' & _ & Hfs & _ & _ & _ & _ & _ & _ & Hrg & _).
    rewrite Hcf in Hcf'. injection Hcf' as <-.
    unfold ready_frames_ok. rewrite Hfs.
    apply Forall_insert; [|by rewrite Hrg]. apply Forall_insert; [done|].
    intros _. by apply (frame_end_jpeg_frame f3 nb).
Qed.

Lemma two_bytes (l : list Z) n a b :
  length l = (n + 2)%nat → l !! n = Some a → l !! (n + 1)%nat = Some b →
  drop n l = [a; b].
Proof.
  intros Hlen Ha Hb.
  assert (Hl : length (drop n l) = 2%nat) by (rewrite length_drop; lia).
  rewrite <- (Nat.add_0_r n) in Ha.
  rewrite <- lookup_drop in Ha, Hb.
  destruct (drop n l) as [|x [|y [|z d]]]; simpl in *; try done. congruence.
Qed.

Lemma jpeg_frame_bytes f :
  frame_ok f → jpeg_frame f → jpeg_bytes (content f).
Proof.
  unfold frame_ok, jpeg_frame, jpeg_bytes, content.
  destruct (data f) as [b|]; [|done].
  intros (Hb & Hc & Hs) (Hsz & Hs0 & Hs1 & He0 & He1).
  unfold MIN_JPEG_SIZE in *.
  apply rd_Some in Hs0 as [_ Hs0], Hs1 as [_ Hs1], He0 as [_ He0], He1 as [_ He1].
  assert (Hl : length (take (Z.to_nat (size f)) b) = Z.to_nat (size f))
    by (rewrite length_take; lia).
  rewrite Hl. split_and!; [lia| |].
  - rewrite take_take. replace (2 `min` Z.to_nat (size f))%nat with 2%nat by lia.
    change (Z.to_nat 0) with 0%nat in Hs0. change (Z.to_nat 1) with 1%nat in Hs1.
    destruct b as [|x [|y b]]; simpl in *; try congruence.
    rewrite take_0. congruence.
  - apply two_bytes.
    + rewrite Hl. lia.
    + rewrite lookup_take_lt by lia. by replace (Z.to_nat (size f - 2)) with
        (Z.to_nat (size f) - 2)%nat in He0 by lia.
    + rewrite lookup_take_lt by lia. by replace (Z.to_nat (size f - 1)) with
        (Z.to_nat (size f) - 2 + 1)%nat in He1 by lia.
Qed.

(** ** The reader *)

Lemma frame_ok_consumed f : frame_ok f → frame_ok (consumed f).
Proof.
  unfold frame_ok, consumed. simpl. destruct (data f); [|tauto].
  unfold BUFFER_SIZE. lia.
Qed.

(** A read that finds the slot at the read pointer ready and the buffer
    large enough. *)
Lemma read_frame_loop_ready waits dev f (buf : list Z) n t err :
  ring_ok dev → frames dev !! Z.to_nat (read_frame dev) = Some f →
  ready f = true → size f ≤ n → n ≤ Z.of_nat (length buf) →
  ∃ nb,
    read_frame_loop waits dev buf n t err =
      Returns (mk_read_result CAMERA_SUCCESS
                 (set_read_frame (store_frame dev (read_frame dev) (consumed f))
                    (Z.rem (read_frame dev + 1) MAX_FRAMES))
                 nb (size f) err) ∧
    length nb = length buf ∧
    take (Z.to_nat (size f)) nb = content f.
Proof.
  intros Hring Hfl Hrd Hn Hbuf. pose proof Hring as (Hlen & Hw & Hr & Hall).
  pose proof (Forall_lookup_1 _ _ _ _ Hall Hfl) as Hfok.
  unfold frame_ok in Hfok. unfold content.
  destruct (data f) as [src|] eqn:Hd; [|destruct Hfok as (_ & _ & ?); congruence].
  destruct Hfok as (Hb & Hc & Hs).
  assert (Hm : memcpy buf 0 src (size f) =
    Some (take (Z.to_nat 0) buf ++ take (Z.to_nat (size f)) (drop (Z.to_nat 0) src) ++
          drop (Z.to_nat (0 + size f)) buf)).
  { unfold memcpy. rewrite bytes_at_Some by lia.
    destruct (Z.leb_spec (0 + size f) (Z.of_nat (length buf))); [done|lia]. }
  eexists. split.
  - assert (Hat : frame_at dev (read_frame dev) = Some f).
    { unfold frame_at. by destruct (Z.leb_spec 0 (read_frame dev)); [|lia]. }
    destruct waits; simpl; rewrite Hat, Hrd;
      (destruct (Z.ltb_spec n (size f)); [lia|]); rewrite Hd, Hm; done.
  - simpl. change (Z.to_nat 0) with 0%nat. rewrite drop_0, Z.add_0_l.
    rewrite length_app, length_drop, length_take.
    split; [lia|]. rewrite take_app_length'; [done|]. rewrite length_take. lia.
Qed.

(** A read that finds the slot at the read pointer ready and the buffer too
    small. *)
Lemma read_frame_loop_small waits dev f (buf : list Z) n t err :
  frame_at dev (read_frame dev) = Some f → ready f = true → n < size f →
  read_frame_loop waits dev buf n t err =
    Returns (mk_read_result CAMERA_ERROR_BUFFER_SMALL dev buf 0
               ("Buffer too small: need " +:+ pretty (size f) +:+
                " bytes, have " +:+ pretty n)).
Proof.
  intros Hat Hrd Hn.
  destruct waits; simpl; rewrite Hat, Hrd;
    (destruct (Z.ltb_spec n (size f)); [done|lia]).
Qed.

Lemma read_frame_loop_unfold waits dev buf n t err :
  read_frame_loop waits dev buf n t err =
  match frame_at dev (read_frame dev) with
  | None => Undefined
  | Some frame =>
      if ready frame then read_ready dev frame buf n err
      else
        match waits with
        | [] => Blocks
        | WAIT_OBJECT_0 :: waits' =>
            read_frame_loop waits' (set_frame_ready_event dev false) buf n t err
        | WAIT_TIMEOUT :: _ =>
            if t =? 0 then Blocks
            else Returns (mk_read_result CAMERA_ERROR_TIMEOUT dev buf 0
                            "Timeout waiting for frame")
        | WAIT_FAILED e :: _ =>
            Returns (mk_read_result CAMERA_ERROR_USB_FAILED dev buf 0
                       ("Wait failed: " +:+ pretty e))
        end
  end.
Proof. by destruct waits. Qed.

Lemma read_ready_inv dev f (buf : list Z) n err r :
  ring_ok dev → ready_frames_ok dev →
  frames dev !! Z.to_nat (read_frame dev) = Some f → ready f = true →
  read_ready dev f buf n err = Returns r →
  ring_ok (rr_dev r) ∧ ready_frames_ok (rr_dev r) ∧
  frames_captured (rr_dev r) = frames_captured dev ∧
  frames_dropped (rr_dev r) = frames_dropped dev ∧
  (rr_status r = CAMERA_SUCCESS →
     jpeg_bytes (take (Z.to_nat (rr_bytes_read r)) (rr_buffer r))).
Proof.
  intros Hring Hready Hfl Hrd. pose proof Hring as (Hlen & Hw & Hr & Hall).
  pose proof (Forall_lookup_1 _ _ _ _ Hall Hfl) as Hfok.
  unfold read_ready.
  destruct (Z.ltb_spec n (size f)) as [Hsmall|Hbig].
  { intros [= <-]. simpl. split_and!; done. }
  destruct (data f) as [src|] eqn:Hd; [|done].
  destruct (memcpy buf 0 src (size f)) as [nb|] eqn:Hm; [|done].
  intros [= <-]. simpl.
  apply memcpy_inv in Hm as (_ & Hs0 & Hfit & Hsrc & Hnl & Hnt).
  destruct (next_index_bounds _ Hr).
  split_and!; try done.
  - unfold ring_ok in *. simpl. rewrite length_insert. split_and!; try lia.
    by apply Forall_insert, frame_ok_consumed.
  - by apply Forall_insert.
  - intros _. rewrite Z.add_0_l in Hnt. rewrite Hnt. simpl.
    pose proof (jpeg_frame_bytes f Hfok (Forall_lookup_1 _ _ _ _ Hready Hfl Hrd)) as Hj.
    unfold content in Hj. by rewrite Hd in Hj.
Qed.

(** Whatever a read returns, it leaves a well-formed ring whose ready slots
    hold JPEGs and both counters as they were, and a successful read has
    copied a JPEG. *)
Lemma read_frame_loop_inv waits dev (buf : list Z) n t err r :
  ring_ok dev → ready_frames_ok dev →
  read_frame_loop waits dev buf n t err = Returns r →
  ring_ok (rr_dev r) ∧ ready_frames_ok (rr_dev r) ∧
  frames_captured (rr_dev r) = frames_captured dev ∧
  frames_dropped (rr_dev r) = frames_dropped dev ∧
  (rr_status r = CAMERA_SUCCESS →
     jpeg_bytes (take (Z.to_nat (rr_bytes_read r)) (rr_buffer r))).
Proof.
  revert dev. induction waits as [|wr waits IH]; intros dev Hring Hready;
    rewrite read_frame_loop_unfold;
    pose proof Hring as (Hlen & Hw & Hr & Hall);
    destruct (frame_at_ring_ok dev _ Hring Hr) as (f & Hat & Hfl & Hfok);
    rewrite Hat; destruct (ready f) eqn:Hrd;
    try (by apply read_ready_inv); try done.
  destruct wr; [|destruct (t =? 0)|]; try done.
  - intros Hloop. by apply IH in Hloop.
  - intros [= <-]. simpl. split_and!; done.
  - intros [= <-]. simpl. split_and!; done.
Qed.

(** ** The controller *)

(** The loop of [camera_stop_streaming] clears the slots [i .. i+n-1] and
    nothing else. *)
Lemma clear_frames_spec n i dev :
  0 ≤ i → (Z.to_nat i + n ≤ length (frames dev))%nat →
  ∃ dev', clear_frames n i dev = Some dev' ∧
    streaming dev' = streaming dev ∧ read_thread dev' = read_thread dev ∧
    stop_event dev' = stop_event dev ∧ write_frame dev' = write_frame dev ∧
    read_frame dev' = read_frame dev ∧
    frame_ready_event dev' = frame_ready_event dev ∧
    frames_captured dev' = frames_captured dev ∧
    frames_dropped dev' = frames_dropped dev ∧
    length (frames dev') = length (frames dev) ∧
    ∀ j, frames dev' !! j =
      if decide (Z.to_nat i ≤ j < Z.to_nat i + n)%nat
      then consumed <$> frames dev !! j else frames dev !! j.
Proof.
  revert i dev. induction n as [|n IH]; intros i dev Hi Hn; simpl.
  { exists dev. split_and!; try done. intros j. rewrite decide_False; [done|lia]. }
  destruct (lookup_lt_is_Some_2 (frames dev) (Z.to_nat i)) as [f Hfl]; [lia|].
  assert (Hat : frame_at dev i = Some f).
  { unfold frame_at. by destruct (Z.leb_spec 0 i); [|lia]. }
  rewrite Hat. simpl.
  destruct (IH (i + 1) (store_frame dev i (consumed f)))
    as (dev' & Hcl & ? & ? & ? & ? & ? & ? & ? & ? & Hlen & Hfs); [lia|..].
  { rewrite frames_store, length_insert. lia. }
  exists dev'. split; [done|]. rewrite frames_store, length_insert in Hlen.
  split_and!; try done.
  intros j. rewrite Hfs, frames_store.
  destruct (decide (j = Z.to_nat i)) as [->|Hne].
  - rewrite decide_False by lia. rewrite decide_True by lia.
    rewrite list_lookup_insert_eq by lia. by rewrite Hfl.
  - rewrite list_lookup_insert_ne by done.
    destruct (decide (Z.to_nat (i + 1) ≤ j < Z.to_nat (i + 1) + n)%nat);
      [rewrite decide_True by lia|rewrite decide_False by lia]; done.
Qed.

(** [camera_stop_streaming] on a streaming device: every slot cleared, both
    indices zero, the counters as they were. *)
Lemma camera_stop_streaming_spec dev :
  ring_ok dev → streaming dev = true →
  ∃ dev', camera_stop_streaming dev = Some dev' ∧
    streaming dev' = false ∧ read_frame dev' = 0 ∧ write_frame dev' = 0 ∧
    frame_ready_event dev' = false ∧
    frames_captured dev' = frames_captured dev ∧
    frames_dropped dev' = frames_dropped dev ∧
    frames dev' = consumed <$> frames dev.
Proof.
  intros (Hlen & Hw & Hr & Hall) Hs. unfold camera_stop_streaming. rewrite Hs.
  cbn [negb].
  destruct (clear_frames_spec (Z.to_nat MAX_FRAMES) 0
              (set_read_thread (set_stop_event (set_streaming dev false) true) false))
    as (dev' & -> & ? & ? & ? & ? & ? & ? & ? & ? & Hlen' & Hfs); [done|simpl; lia|].
  eexists; split; [done|]. simpl in *. split_and!; try done.
  apply list_eq. intros j. rewrite Hfs, list_lookup_fmap.
  destruct (decide _) as [|Hj]; [done|].
  rewrite !lookup_ge_None_2; [done|lia].
Qed.

Lemma ring_ok_stopped dev dev' :
  ring_ok dev → frames dev' = consumed <$> frames dev →
  read_frame dev' = 0 → write_frame dev' = 0 →
  ring_ok dev' ∧ ready_frames_ok dev'.
Proof.
  intros (Hlen & Hw & Hr & Hall) Hfs Hr' Hw'. unfold ring_ok, ready_frames_ok.
  rewrite Hfs, Hr', Hw', length_fmap. unfold MAX_FRAMES in *. split_and!; try lia.
  - apply Forall_fmap. eapply Forall_impl; [exact Hall|].
    intros f. apply frame_ok_consumed.
  - apply Forall_fmap, Forall_forall. by intros f _ [=].
Qed.

(** C9.  Every operation on the ring keeps this invariant: each slot whose
    ready flag is set holds at least [MIN_JPEG_SIZE] and at most [capacity]
    bytes that start with [FF D8] and end with [FF D9].  [process_data] and
    [camera_stop_streaming] return with it, [camera_read_frame] has it
    whenever it returns, and the bytes a successful read copies to the
    caller are such a byte string. *)
Theorem ready_slots_well_formed dev :
  ring_ok dev → ready_frames_ok dev →
  (∀ al pkt, Z.of_nat (length pkt) ≤ BUFFER_SIZE →
     ∃ dev', process_data al dev pkt = Some dev' ∧
       ring_ok dev' ∧ ready_frames_ok dev') ∧
  (∃ dev', camera_stop_streaming dev = Some dev' ∧
     ring_ok dev' ∧ ready_frames_ok dev') ∧
  (∀ waits buffer n bytes_read t err r,
     camera_read_frame waits dev buffer n bytes_read t err = Returns r →
     ring_ok (rr_dev r) ∧ ready_frames_ok (rr_dev r) ∧
     (rr_status r = CAMERA_SUCCESS →
        jpeg_bytes (take (Z.to_nat (rr_bytes_read r)) (rr_buffer r)))).
Proof.
  intros Hring Hready. split_and!.
  - intros al pkt Hpkt.
    destruct (process_data_total al dev pkt Hring Hpkt)
      as (f & dev' & Hf & Hfok & Hpd & Hpath).
    exists dev'. split; [done|]. split.
    + by eapply process_data_path_ring_ok.
    + eapply process_data_path_ready_ok; try done.
      unfold frame_at in Hf. by destruct (0 <=? write_frame dev).
  - destruct (streaming dev) eqn:Hs.
    + destruct (camera_stop_streaming_spec dev Hring Hs)
        as (dev' & Hst & _ & ? & ? & _ & _ & _ & ?).
      exists dev'. split; [done|]. by apply (ring_ok_stopped dev).
    + exists dev. unfold camera_stop_streaming. by rewrite Hs.
  - intros waits buffer n bytes_read t err r. unfold camera_read_frame.
    destruct buffer as [buf|], bytes_read as [br|];
      try (intros [= <-]; by split_and!).
    destruct (streaming dev); simpl; [|intros [= <-]; by split_and!].
    intros Hloop. apply read_frame_loop_inv in Hloop; [|done..].
    tauto.
Qed.

Lemma ready_slots_well_formed_witness :
  (∀ al pkt, Z.of_nat (length pkt) ≤ BUFFER_SIZE →
     ∃ dev', process_data al one_frame_device pkt = Some dev' ∧
       ring_ok dev' ∧ ready_frames_ok dev') ∧
  (∃ dev', camera_stop_streaming one_frame_device = Some dev' ∧
     ring_ok dev' ∧ ready_frames_ok dev') ∧
  (∀ waits buffer n bytes_read t err r,
     camera_read_frame waits one_frame_device buffer n bytes_read t err = Returns r →
     ring_ok (rr_dev r) ∧ ready_frames_ok (rr_dev r) ∧
     (rr_status r = CAMERA_SUCCESS →
        jpeg_bytes (take (Z.to_nat (rr_bytes_read r)) (rr_buffer r)))).
Proof.
  apply ready_slots_well_formed.
  - apply (bool_decide_unpack _). vm_compute. exact I.
  - apply (bool_decide_unpack _). vm_compute. exact I.
Defined.

(** C3.  When the slot at the read pointer is ready and larger than
    [buffer_size], [camera_read_frame] returns [CAMERA_ERROR_BUFFER_SMALL]
    and leaves the device, and with it the slot and the read pointer, as it
    was; the next call, with a buffer at least as large as the frame,
    returns [CAMERA_SUCCESS] and the bytes of that frame. *)
Theorem buffer_too_small_retry waits waits' dev f
    (buf : list Z) n br t err (buf' : list Z) n' br' t' :
  ring_ok dev → streaming dev = true →
  frame_at dev (read_frame dev) = Some f → ready f = true →
  n < size f →
  size f ≤ n' → n' ≤ Z.of_nat (length buf') →
  ∃ err1 r2,
    camera_read_frame waits dev (Some buf) n (Some br) t err =
      Returns (mk_read_result CAMERA_ERROR_BUFFER_SMALL dev buf 0 err1) ∧
    camera_read_frame waits' dev (Some buf') n' (Some br') t' err1 = Returns r2 ∧
    rr_status r2 = CAMERA_SUCCESS ∧
    rr_bytes_read r2 = size f ∧
    take (Z.to_nat (size f)) (rr_buffer r2) = content f.
Proof.
  intros Hring Hs Hat Hrd Hsmall Hbig Hbuf.
  assert (Hfl : frames dev !! Z.to_nat (read_frame dev) = Some f).
  { unfold frame_at in Hat. by destruct (0 <=? read_frame dev). }
  unfold camera_read_frame. rewrite Hs. simpl.
  rewrite (read_frame_loop_small waits dev f buf n t err Hat Hrd Hsmall).
  eexists. 
  destruct (read_frame_loop_ready waits' dev f buf' n' t'
    ("Buffer too small: need " +:+ pretty (size f) +:+ " bytes, have " +:+ pretty n)
    Hring Hfl Hrd Hbig Hbuf) as (nb & -> & Hlen & Hcopy).
  eexists. split; [done|]. split; [done|]. done.
Qed.

Lemma buffer_too_small_retry_witness :
  ∃ err1 r2,
    camera_read_frame [] one_frame_device (Some (replicate 10 0)) 10 (Some 0) 100 "" =
      Returns (mk_read_result CAMERA_ERROR_BUFFER_SMALL one_frame_device
                 (replicate 10 0) 0 err1) ∧
    camera_read_frame [] one_frame_device (Some (replicate 1000 0)) 1000 (Some 0) 100 err1 =
      Returns r2 ∧
    rr_status r2 = CAMERA_SUCCESS ∧
    rr_bytes_read r2 = 1000 ∧
    take (Z.to_nat 1000) (rr_buffer r2) = small_jpeg.
Proof.
  apply (buffer_too_small_retry [] [] one_frame_device
           (mk_frame (Some (small_jpeg ++ replicate (Z.to_nat BUFFER_SIZE - 1000) 0))
              1000 BUFFER_SIZE true)
           (replicate 10 0) 10 0 100 "" (replicate 1000 0) 1000 0 100).
  - apply (bool_decide_unpack _). vm_compute. exact I.
  - reflexivity.
  - reflexivity.
  - reflexivity.
  - simpl. lia.
  - simpl. lia.
  - vm_compute. discriminate.
Defined.

(** ** Starting the stream *)

Lemma camera_start_streaming_alt env dev err e :
  streaming dev = false → set_alternate_setting env = Fails e →
  camera_start_streaming env dev err =
    (CAMERA_ERROR_INIT_FAILED, dev, "Failed to set alternate setting: " +:+ pretty e).
Proof. intros Hs He. unfold camera_start_streaming. by rewrite Hs, He. Qed.

Lemma camera_start_streaming_handshake env dev err :
  streaming dev = false → handshake_fails env →
  ∃ msg, camera_start_streaming env dev err = (CAMERA_ERROR_USB_FAILED, dev, msg) ∧
    ((∃ e : Z, msg = "Failed to send command: " +:+ pretty e) ∨
     (∃ n : Z, msg = "Short write: " +:+ pretty n +:+ " / " +:+
                 pretty CONNECT_CMD_SIZE +:+ " bytes")).
Proof.
  intros Hs (Ha & [[e He]|(n & Hn & Hne)]);
    unfold camera_start_streaming, send_command; rewrite Hs, Ha.
  - rewrite He. simpl. eauto.
  - rewrite Hn. destruct (Z.eqb_spec n CONNECT_CMD_SIZE); [done|]. simpl. eauto.
Qed.

Lemma camera_start_streaming_thread env dev err :
  streaming dev = false → thread_creation_fails env →
  ∃ (e : Z) dev', camera_start_streaming env dev err =
    (CAMERA_ERROR_INIT_FAILED, dev', "Failed to create read thread: " +:+ pretty e) ∧
    streaming dev' = false ∧ frames dev' = frames dev ∧
    read_frame dev' = read_frame dev ∧ write_frame dev' = write_frame dev.
Proof.
  intros Hs (Ha & Hw & e & He).
  unfold camera_start_streaming, send_command. rewrite Hs, Ha, Hw, He. simpl.
  eauto 10.
Qed.

(** C5.  On a device that is not streaming, a [camera_start_streaming] that
    does not return [CAMERA_SUCCESS] leaves [streaming] false; and a failure
    to set the alternate setting, a failure of the handshake write and a
    failure to create the thread each fail the call and report three
    different errors. *)
Theorem start_failure_atomic_distinct dev err :
  streaming dev = false →
  (∀ env st dev' err',
     camera_start_streaming env dev err = (st, dev', err') →
     st ≠ CAMERA_SUCCESS → camera_is_streaming dev' = false) ∧
  (∀ env1 env2 env3 st1 dev1 err1 st2 dev2 err2 st3 dev3 err3,
     alt_setting_fails env1 → handshake_fails env2 → thread_creation_fails env3 →
     camera_start_streaming env1 dev err = (st1, dev1, err1) →
     camera_start_streaming env2 dev err = (st2, dev2, err2) →
     camera_start_streaming env3 dev err = (st3, dev3, err3) →
     (st1 ≠ CAMERA_SUCCESS ∧ st2 ≠ CAMERA_SUCCESS ∧ st3 ≠ CAMERA_SUCCESS) ∧
     (err1 ≠ err2 ∧ err1 ≠ err3 ∧ err2 ≠ err3)).
Proof.
  intros Hs. split.
  - intros env st dev' err'. unfold camera_start_streaming, camera_is_streaming.
    rewrite Hs. destruct (set_alternate_setting env); [|by intros [= <- <- <-]].
    destruct (send_command env CONNECT_CMD_SIZE err) as [ret err0].
    destruct (Z.eqb_spec ret CAMERA_SUCCESS) as [->|Hne]; simpl.
    + destruct (create_thread env); by intros [= <- <- <-].
    + by intros [= <- <- <-].
  - intros env1 env2 env3 st1 dev1 err1 st2 dev2 err2 st3 dev3 err3
      [e1 H1] H2 H3 Hr1 Hr2 Hr3.
    rewrite (camera_start_streaming_alt _ _ _ _ Hs H1) in Hr1.
    destruct (camera_start_streaming_handshake env2 dev err Hs H2) as (msg & Hr2' & Hmsg).
    destruct (camera_start_streaming_thread env3 dev err Hs H3) as (e3 & d3 & Hr3' & _).
    rewrite Hr2' in Hr2. rewrite Hr3' in Hr3.
    injection Hr1 as <- <- <-. injection Hr2 as <- <- <-. injection Hr3 as <- <- <-.
    split; [done|]. destruct Hmsg as [[e ->]|[n ->]]; split_and!; simpl; by intros [=].
Qed.

(** The status code alone does not tell the first failure from the third. *)
Lemma start_failure_status env1 env3 dev err :
  streaming dev = false → alt_setting_fails env1 → thread_creation_fails env3 →
  (camera_start_streaming env1 dev err).1.1 = CAMERA_ERROR_INIT_FAILED ∧
  (camera_start_streaming env3 dev err).1.1 = CAMERA_ERROR_INIT_FAILED.
Proof.
  intros Hs [e1 H1] H3.
  rewrite (camera_start_streaming_alt _ _ _ _ Hs H1).
  destruct (camera_start_streaming_thread env3 dev err Hs H3) as (e3 & d3 & -> & _).
  done.
Qed.

Lemma start_failure_atomic_distinct_witness :
  (∀ env st dev' err',
     camera_start_streaming env opened_device "" = (st, dev', err') →
     st ≠ CAMERA_SUCCESS → camera_is_streaming dev' = false) ∧
  (∀ env1 env2 env3 st1 dev1 err1 st2 dev2 err2 st3 dev3 err3,
     alt_setting_fails env1 → handshake_fails env2 → thread_creation_fails env3 →
     camera_start_streaming env1 opened_device "" = (st1, dev1, err1) →
     camera_start_streaming env2 opened_device "" = (st2, dev2, err2) →
     camera_start_streaming env3 opened_device "" = (st3, dev3, err3) →
     (st1 ≠ CAMERA_SUCCESS ∧ st2 ≠ CAMERA_SUCCESS ∧ st3 ≠ CAMERA_SUCCESS) ∧
     (err1 ≠ err2 ∧ err1 ≠ err3 ∧ err2 ≠ err3)).
Proof. apply start_failure_atomic_distinct. reflexivity. Defined.

(** ** Statistics *)

(** Short of the wrap at 2^32 a counter does not decrease. *)
Lemma uint_incr_le x : 0 ≤ x < 2 ^ 32 - 1 → x ≤ uint_incr x.
Proof. intros Hx. unfold uint_incr. rewrite Z.mod_small; lia. Qed.

Lemma process_data_path_counters al dev pkt f dev' :
  ring_ok dev → process_data_path al dev pkt f dev' →
  (frames_captured dev' = frames_captured dev ∨
   frames_captured dev' = uint_incr (frames_captured dev)) ∧
  (frames_dropped dev' = frames_dropped dev ∨
   frames_dropped dev' = uint_incr (frames_dropped dev)) ∧
  streaming dev' = streaming dev.
Proof.
  intros Hring Hpath.
  destruct Hpath as [?|f1 ? ? Hal|f1 f' payload f2 ? ? Hal Hover Hf'
                    |f1 f3 buf nb payload f2 ? ? Hal Hfit Happ Hnone
                    |f1 f3 buf nb i dev' payload f2 ? ? Hal Hfit Happ Hi Hend Hmin Hcf];
    try (split_and!; solve [by left | done]).
  pose proof Happ as (Hdb & Hf3 & _ & _ & Hf3ok).
  assert (Hd3 : data f3 = Some nb) by (by rewrite Hf3).
  destruct (complete_frame_spec al dev f3 nb i Hring Hf3ok Hd3 Hi)
    as (dev'' & g0 & g & Hcf' & _ & _ & _ & Hcap & _ & Hstr & Hdrop & _).
  rewrite Hcf in Hcf'. injection Hcf' as <-.
  split_and!; [by right| |done].
  destruct (decide _); destruct Hdrop as [_ ->]; [by right|by left].
Qed.




(** ** Which end-of-image marker ends the frame *)

(** C6, as stated, fails: the first [FF D9] of [two_eoi_payload] ends at
    offset 3, where the candidate of 4 bytes is too short, so that no frame
    should be accepted in this step; [process_data] goes on to the second
    [FF D9] and accepts all 1500 bytes. *)
Lemma first_eoi_counterexample :
  spec_first_eoi two_eoi_payload = Some 3 ∧
  spec_accepted_size two_eoi_payload = None ∧
  match process_data ok_allocator session_started (packet [] two_eoi_payload) with
  | Some dev' =>
      write_frame dev' = 1 ∧ frames_captured dev' = 1 ∧
      (ready <$> frame_at dev' 0) = Some true ∧
      (size <$> frame_at dev' 0) = Some 1500 ∧
      (content <$> frame_at dev' 0) = Some two_eoi_payload
  | None => False
  end.
Proof. vm_compute. split_and!; reflexivity. Qed.

Lemma frame_end_bound (acc : list Z) i :
  frame_end acc i → 1 ≤ i < Z.of_nat (length acc).
Proof.
  intros ((He0 & He1) & _). apply rd_Some in He0 as [? _], He1 as [_ He1].
  apply lookup_lt_Some in He1. lia.
Qed.

Lemma frame_end_take (nb : list Z) n i :
  1 ≤ i < Z.of_nat n → frame_end (take n nb) i ↔ frame_end nb i.
Proof.
  intros Hi. unfold frame_end, eoi_at, soi_first. by rewrite !rd_take by lia.
Qed.

Lemma appended_content f2 (p : list Z) f3 buf nb :
  appended f2 p f3 buf nb →
  data f3 = Some nb ∧ size f3 = size f2 + Z.of_nat (length p) ∧
  ready f3 = ready f2 ∧ content f3 = content f2 ++ p.
Proof.
  intros (Hd & -> & _ & Ht & _). unfold content. simpl in *. by rewrite Hd.
Qed.

(** The two paths of a packet whose payload fits behind the write slot. *)
Lemma process_data_path_fits al dev pkt f f1 dev' :
  let payload := drop (Z.to_nat HEADER_SIZE) pkt in
  let f2 := discard_incomplete f1 payload in
  has_magic pkt = true → HEADER_SIZE < Z.of_nat (length pkt) →
  alloc_write_slot al f = Some f1 →
  size f2 + Z.of_nat (length payload) ≤ capacity f2 →
  process_data_path al dev pkt f dev' →
  ∃ f3 buf nb, appended f2 payload f3 buf nb ∧
    ((dev' = store_frame dev (write_frame dev) (safety_check f3) ∧
      ∀ j, 1 ≤ j < size f3 → ¬ frame_end nb j) ∨
     (∃ i, 1 ≤ i < size f3 ∧ frame_end nb i ∧
        (∀ j, 1 ≤ j < i → ¬ frame_end nb j) ∧
        complete_frame al dev f3 nb i = Some dev')).
Proof.
  intros payload f2 Hmagic Hlong Hal Hfit Hpath.
  destruct Hpath as [[?|?]|f1' ? ? Hal'|f1' f' payload' f2' ? ? Hal' Hover Hf'
                    |f1' f3 buf nb payload' f2' ? ? Hal' Hfit' Happ Hnone
                    |f1' f3 buf nb i dev' payload' f2' ? ? Hal' Hfit' Happ Hi Hend Hmin Hcf];
    try congruence; try lia.
  - exfalso. assert (f1' = f1) by congruence. subst f1' f2' payload'. fold payload f2 in Hover. lia.
  - assert (f1' = f1) by congruence. subst f1'. eauto 10.
  - assert (f1' = f1) by congruence. subst f1'. eauto 15.
Qed.

(** C6, amended.  After the payload is appended, the frame ends at the
    first [FF D9] whose end offset [i] gives at least [MIN_JPEG_SIZE] bytes,
    provided the slot starts with [FF D8]: the write slot is then marked
    ready with the bytes up to [i].  An earlier [FF D9] is passed over.  If
    there is no such [i], no frame is accepted in this call. *)
Theorem first_long_enough_eoi al dev pkt f f1 :
  let payload := drop (Z.to_nat HEADER_SIZE) pkt in
  let f2 := discard_incomplete f1 payload in
  let acc := content f2 ++ payload in
  ring_ok dev → Z.of_nat (length pkt) ≤ BUFFER_SIZE →
  frame_at dev (write_frame dev) = Some f →
  has_magic pkt = true → HEADER_SIZE < Z.of_nat (length pkt) →
  alloc_write_slot al f = Some f1 →
  size f2 + Z.of_nat (length payload) ≤ capacity f2 →
  ∃ dev' fin,
    process_data al dev pkt = Some dev' ∧
    frame_at dev' (write_frame dev) = Some fin ∧
    ((∃ i, frame_end acc i ∧ (∀ j, 1 ≤ j < i → ¬ frame_end acc j) ∧
        ready fin = true ∧ size fin = i + 1 ∧
        content fin = take (Z.to_nat (i + 1)) acc ∧
        frames_captured dev' = uint_incr (frames_captured dev) ∧
        write_frame dev' = Z.rem (write_frame dev + 1) MAX_FRAMES) ∨
     ((∀ i, ¬ frame_end acc i) ∧
        ready fin = ready f2 ∧
        frames_captured dev' = frames_captured dev ∧
        write_frame dev' = write_frame dev)).
Proof.
  intros payload f2 acc Hring Hpkt Hf Hmagic Hlong Hal Hfit.
  pose proof Hring as (Hlen & Hw & Hr & Hall).
  destruct (process_data_total al dev pkt Hring Hpkt)
    as (f' & dev' & Hf' & Hfok & Hpd & Hpath).
  assert (f' = f) by congruence. subst f'.
  destruct (process_data_path_fits al dev pkt f f1 dev' Hmagic Hlong Hal Hfit Hpath)
    as (f3 & buf & nb & Happ & Hcases).
  fold payload f2 in Happ.
  destruct (appended_content _ _ _ _ _ Happ) as (Hd3 & Hs3 & Hr3 & Hc3).
  pose proof Happ as (_ & _ & _ & _ & Hf3ok).
  assert (Hacc : acc = take (Z.to_nat (size f3)) nb).
  { unfold acc. rewrite <- Hc3. unfold content. by rewrite Hd3. }
  assert (Hlacc : Z.of_nat (length acc) = size f3).
  { rewrite Hacc, length_take. unfold frame_ok in Hf3ok. rewrite Hd3 in Hf3ok. lia. }
  assert (Hend : ∀ j, 1 ≤ j < size f3 → frame_end acc j ↔ frame_end nb j).
  { intros j Hj. rewrite Hacc. apply frame_end_take. lia. }
  exists dev'. destruct Hcases as [[-> Hnone]|(i & Hi & Hei & Hmin & Hcf)].
  - eexists. split; [done|]. split.
    { rewrite frame_at_store by lia. by rewrite decide_True. }
    right. destruct (safety_check_spec f3 Hf3ok) as (_ & _ & Hrs & _).
    split_and!; try done; [|congruence].
    intros i Hi. pose proof (frame_end_bound _ _ Hi).
    apply (Hnone i); [lia|]. apply Hend; [lia|done].
  - destruct (complete_frame_spec al dev f3 nb i Hring Hf3ok Hd3 Hi)
      as (dev'' & g0 & g & Hcf' & _ & Hfs & Hwf & Hcap & _).
    rewrite Hcf in Hcf'. injection Hcf' as <-.
    destruct (next_index_bounds _ Hw) as (Hw' & Hne & _).
    exists (set_ready (set_size f3 (i + 1)) true). split; [done|]. split.
    { unfold frame_at. destruct (Z.leb_spec 0 (write_frame dev)); [|lia].
      rewrite Hfs, list_lookup_insert_ne by lia.
      apply list_lookup_insert_eq. lia. }
    left. exists i. split_and!; try done.
    + by apply Hend.
    + intros j Hj Hej. apply (Hmin j Hj). apply Hend; [lia|done].
    + unfold content. simpl. rewrite Hd3, Hacc, take_take. f_equal. lia.
Qed.

Lemma first_long_enough_eoi_witness :
  let pkt := packet [] two_eoi_payload in
  let f := empty_frame in
  let f1 := mk_frame (malloc (Some []) BUFFER_SIZE) 0 BUFFER_SIZE false in
  let payload := drop (Z.to_nat HEADER_SIZE) pkt in
  let f2 := discard_incomplete f1 payload in
  let acc := content f2 ++ payload in
  ∃ dev' fin,
    process_data ok_allocator session_started pkt = Some dev' ∧
    frame_at dev' (write_frame session_started) = Some fin ∧
    ((∃ i, frame_end acc i ∧ (∀ j, 1 ≤ j < i → ¬ frame_end acc j) ∧
        ready fin = true ∧ size fin = i + 1 ∧
        content fin = take (Z.to_nat (i + 1)) acc ∧
        frames_captured dev' = uint_incr (frames_captured session_started) ∧
        write_frame dev' = Z.rem (write_frame session_started + 1) MAX_FRAMES) ∨
     ((∀ i, ¬ frame_end acc i) ∧
        ready fin = ready f2 ∧
        frames_captured dev' = frames_captured session_started ∧
        write_frame dev' = write_frame session_started)).
Proof.
  apply (first_long_enough_eoi ok_allocator session_started
           (packet [] two_eoi_payload) empty_frame).
  - apply (bool_decide_unpack _). vm_compute. exact I.
  - vm_compute. discriminate.
  - reflexivity.
  - reflexivity.
  - reflexivity.
  - reflexivity.
  - vm_compute. discriminate.
Defined.

(** ** Leftover bytes *)

(** C8, as stated, fails: the bytes left behind the accepted frame start
    with [FF D8], every allocation succeeds, and the next write slot is
    empty when [process_data] returns. *)
Lemma leftover_counterexample :
  match process_data ok_allocator session_started (packet [] long_leftover_payload) with
  | Some dev' =>
      write_frame dev' = 1 ∧
      (ready <$> frame_at dev' 0) = Some true ∧
      (size <$> frame_at dev' 0) = Some 1000 ∧
      starts_with_soi (drop 1000 long_leftover_payload) = true ∧
      (size <$> frame_at dev' (write_frame dev')) = Some 0 ∧
      (content <$> frame_at dev' (write_frame dev')) = Some []
  | None => False
  end.
Proof. vm_compute. split_and!; reflexivity. Qed.

Lemma leftover_bytes_drop f3 (nb : list Z) i :
  1 ≤ i < size f3 →
  leftover_bytes f3 nb i = drop (Z.to_nat (i + 1)) (take (Z.to_nat (size f3)) nb).
Proof.
  intros Hi. unfold leftover_bytes. rewrite take_drop_commute. do 2 f_equal. lia.
Qed.

Lemma content_empty g : size g = 0 → content g = [].
Proof. unfold content. intros ->. by destruct (data g). Qed.

(** C8, amended.  When a frame is accepted, the bytes behind it in the
    slot are the content of the next write slot exactly when they start
    with [FF D8], they are at most [MAX_JPEG_SIZE] bytes, and both the
    temporary copy and the block of the next slot could be allocated;
    otherwise the next write slot is empty.  In either case it is not
    ready. *)
Theorem leftover_filtering al dev pkt f f1 :
  let payload := drop (Z.to_nat HEADER_SIZE) pkt in
  let f2 := discard_incomplete f1 payload in
  let acc := content f2 ++ payload in
  ring_ok dev → Z.of_nat (length pkt) ≤ BUFFER_SIZE →
  frame_at dev (write_frame dev) = Some f →
  has_magic pkt = true → HEADER_SIZE < Z.of_nat (length pkt) →
  alloc_write_slot al f = Some f1 →
  size f2 + Z.of_nat (length payload) ≤ capacity f2 →
  ∃ dev', process_data al dev pkt = Some dev' ∧
    (write_frame dev' ≠ write_frame dev →
     ∃ fin g0 g,
       frame_at dev' (write_frame dev) = Some fin ∧ ready fin = true ∧
       content fin = take (Z.to_nat (size fin)) acc ∧
       frame_at dev (write_frame dev') = Some g0 ∧
       frame_at dev' (write_frame dev') = Some g ∧ ready g = false ∧
       let leftover := drop (Z.to_nat (size fin)) acc in
       content g =
         if starts_with_soi leftover && (Z.of_nat (length leftover) <=? MAX_JPEG_SIZE) &&
            alloc_leftover al && next_slot_has_block al g0
         then leftover else []).
Proof.
  intros payload f2 acc Hring Hpkt Hf Hmagic Hlong Hal Hfit.
  pose proof Hring as (Hlen & Hw & Hr & Hall).
  destruct (process_data_total al dev pkt Hring Hpkt)
    as (f' & dev' & Hf' & Hfok & Hpd' & Hpath).
  assert (f' = f) by congruence. subst f'.
  exists dev'. split; [done|]. intros Hmoved.
  destruct (process_data_path_fits al dev pkt f f1 dev' Hmagic Hlong Hal Hfit Hpath)
    as (f3 & buf & nb & Happ & Hcases).
  fold payload f2 in Happ.
  destruct (appended_content _ _ _ _ _ Happ) as (Hd3 & Hs3 & Hr3 & Hc3).
  pose proof Happ as (_ & _ & _ & _ & Hf3ok).
  assert (Hacc : acc = take (Z.to_nat (size f3)) nb).
  { unfold acc. rewrite <- Hc3. unfold content. by rewrite Hd3. }
  destruct Hcases as [[-> Hnone]|(i & Hi & Hei & Hmin & Hcf)]; [done|].
  destruct (complete_frame_spec al dev f3 nb i Hring Hf3ok Hd3 Hi)
    as (dev'' & g0 & g & Hcf' & Hg0 & Hfs & Hwf & _ & _ & _ & _ & Hgok & Hrg & Hg).
  rewrite Hcf in Hcf'. injection Hcf' as <-.
  destruct (next_index_bounds _ Hw) as (Hw' & Hne & _).
  exists (set_ready (set_size f3 (i + 1)) true), g0, g.
  assert (Hbuf : Z.of_nat (length nb) = BUFFER_SIZE ∧ size f3 ≤ BUFFER_SIZE).
  { unfold frame_ok in Hf3ok. rewrite Hd3 in Hf3ok. lia. }
  split_and!; try done.
  - unfold frame_at. destruct (Z.leb_spec 0 (write_frame dev)); [|lia].
    rewrite Hfs, list_lookup_insert_ne by lia.
    apply list_lookup_insert_eq. lia.
  - unfold content. simpl. rewrite Hd3, Hacc, take_take. f_equal. lia.
  - by rewrite Hwf.
  - rewrite Hwf. unfold frame_at.
    destruct (Z.leb_spec 0 (Z.rem (write_frame dev + 1) MAX_FRAMES)); [|lia].
    rewrite Hfs. apply list_lookup_insert_eq. rewrite length_insert. lia.
  - simpl. rewrite Hacc, <- leftover_bytes_drop by done.
    rewrite (leftover_bytes_length f3 nb i) by lia.
    unfold next_slot_has_block, leftover_kept in *.
    destruct (decide (data g0 = None ∧ alloc_next al = None)) as [[Hdn Han]|Hnn].
    + subst g. rewrite Hdn, Han, andb_false_r. unfold content. by rewrite Hdn.
    + assert (Hblock : (match data g0, alloc_next al with
                        | None, None => false | _, _ => true end) = true).
      { destruct (data g0), (alloc_next al); try done. by destruct Hnn. }
      rewrite Hblock, andb_true_r.
      rewrite (andb_comm (starts_with_soi _ && _)), andb_assoc.
      destruct (alloc_leftover al && starts_with_soi (leftover_bytes f3 nb i) &&
                (size f3 - (i + 1) <=? MAX_JPEG_SIZE)).
      * tauto.
      * by apply content_empty.
Qed.

Lemma leftover_filtering_witness :
  let pkt := packet [] short_leftover_payload in
  let f1 := mk_frame (malloc (Some []) BUFFER_SIZE) 0 BUFFER_SIZE false in
  let payload := drop (Z.to_nat HEADER_SIZE) pkt in
  let f2 := discard_incomplete f1 payload in
  let acc := content f2 ++ payload in
  ∃ dev', process_data ok_allocator session_started pkt = Some dev' ∧
    (write_frame dev' ≠ write_frame session_started →
     ∃ fin g0 g,
       frame_at dev' (write_frame session_started) = Some fin ∧ ready fin = true ∧
       content fin = take (Z.to_nat (size fin)) acc ∧
       frame_at session_started (write_frame dev') = Some g0 ∧
       frame_at dev' (write_frame dev') = Some g ∧ ready g = false ∧
       let leftover := drop (Z.to_nat (size fin)) acc in
       content g =
         if starts_with_soi leftover && (Z.of_nat (length leftover) <=? MAX_JPEG_SIZE) &&
            alloc_leftover ok_allocator && next_slot_has_block ok_allocator g0
         then leftover else []).
Proof.
  apply (leftover_filtering ok_allocator session_started
           (packet [] short_leftover_payload) empty_frame).
  - apply (bool_decide_unpack _). vm_compute. exact I.
  - vm_compute. discriminate.
  - reflexivity.
  - reflexivity.
  - reflexivity.
  - reflexivity.
  - vm_compute. discriminate.
Defined.

(** At that input a frame is accepted and the five bytes are kept; they are
    lost when their temporary copy cannot be allocated. *)
Example leftover_alloc_failure :
  match process_data (mk_allocator (Some []) false (Some [])) session_started
          (packet [] short_leftover_payload) with
  | Some dev' =>
      write_frame dev' = 1 ∧
      (content <$> frame_at dev' 0) = Some small_jpeg ∧
      (content <$> frame_at dev' 1) = Some []
  | None => False
  end.
Proof. vm_compute. split_and!; reflexivity. Qed.

Lemma leftover_kept_example :
  match process_data ok_allocator session_started (packet [] short_leftover_payload) with
  | Some dev' =>
      write_frame dev' = 1 ∧
      (content <$> frame_at dev' 0) = Some small_jpeg ∧
      (content <$> frame_at dev' 1) = Some [0xFF; 0xD8; 1; 2; 3]
  | None => False
  end.
Proof. vm_compute. split_and!; reflexivity. Qed.

(** ** The ring under a run of packets *)

(** What one [process_data] call does to the ring when the write slot is
    not ready: either it changes nothing but the write slot, which stays
    not ready, or it completes the frame in the write slot, moves to the
    next slot, and drops the oldest frame if that slot is the ready slot at
    the read index. *)
Lemma process_data_ring_step al dev pkt f :
  ring_ok dev → Z.of_nat (length pkt) ≤ BUFFER_SIZE →
  frame_at dev (write_frame dev) = Some f → ready f = false →
  let w := write_frame dev in
  let w' := Z.rem (w + 1) MAX_FRAMES in
  let r := read_frame dev in
  ∃ dev', process_data al dev pkt = Some dev' ∧ ring_ok dev' ∧
    streaming dev' = streaming dev ∧
    ((write_frame dev' = w ∧ read_frame dev' = r ∧
      frames_captured dev' = frames_captured dev ∧
      frames_dropped dev' = frames_dropped dev ∧
      (∀ i, 0 ≤ i → i ≠ w → frame_at dev' i = frame_at dev i) ∧
      (∃ f', frame_at dev' w = Some f' ∧ ready f' = false)) ∨
     (∃ fin g0 g,
        write_frame dev' = w' ∧
        frames_captured dev' = uint_incr (frames_captured dev) ∧
        frame_at dev' w = Some fin ∧ ready fin = true ∧
        frame_at dev w' = Some g0 ∧
        frame_at dev' w' = Some g ∧ ready g = false ∧
        (∀ i, 0 ≤ i → i ≠ w → i ≠ w' → frame_at dev' i = frame_at dev i) ∧
        (if decide (w' = r ∧ ready g0 = true)
         then read_frame dev' = Z.rem (r + 1) MAX_FRAMES ∧
              frames_dropped dev' = uint_incr (frames_dropped dev)
         else read_frame dev' = r ∧ frames_dropped dev' = frames_dropped dev))).
Proof.
  intros Hring Hpkt Hf Hnr w w' r. pose proof Hring as (Hlen & Hw & Hr & Hall).
  destruct (process_data_total al dev pkt Hring Hpkt)
    as (fw & dev' & Hfw & Hfok & Hpd & Hpath).
  assert (fw = f) by congruence. subst fw. clear Hfw.
  exists dev'. split; [done|]. split; [by eapply process_data_path_ring_ok|].
  split; [by eapply process_data_path_counters|].
  assert (Hstore : ∀ f', ready f' = false →
    let dev' := store_frame dev w f' in
    write_frame dev' = w ∧ read_frame dev' = r ∧
    frames_captured dev' = frames_captured dev ∧
    frames_dropped dev' = frames_dropped dev ∧
    (∀ i, 0 ≤ i → i ≠ w → frame_at dev' i = frame_at dev i) ∧
    (∃ f'', frame_at dev' w = Some f'' ∧ ready f'' = false)).
  { intros f' Hr'. split_and!; try done.
    - intros i Hi Hne. rewrite frame_at_store by lia. by rewrite decide_False.
    - exists f'. rewrite frame_at_store by lia. by rewrite decide_True. }
  destruct Hpath as [?|f1 ? ? Hal|f1 f' payload f2 ? ? Hal Hover Hf'
                    |f1 f3 buf nb payload f2 ? ? Hal Hfit Happ Hnone
                    |f1 f3 buf nb i dev' payload f2 ? ? Hal Hfit Happ Hi Hend Hmin Hcf].
  - left. split_and!; try done. by exists f.
  - left. apply Hstore.
    destruct (alloc_write_slot_spec _ _ _ Hfok Hal) as (_ & _ & _ & -> & _). done.
  - left. apply Hstore.
    destruct (alloc_write_slot_spec _ _ _ Hfok Hal) as (Hf1ok & Hd1 & _).
    destruct (discard_incomplete_spec f1 payload Hf1ok) as (Hf2ok & Hd2 & _).
    destruct (overflow_reset_spec f2 payload Hf2ok) as (f'' & Hf'' & ? & Hrd & _).
    { subst f2. by rewrite Hd2. }
    { unfold payload. rewrite length_drop. lia. }
    congruence.
  - left. apply Hstore.
    destruct (alloc_write_slot_spec _ _ _ Hfok Hal) as (Hf1ok & _ & _ & Hr1 & _).
    destruct (discard_incomplete_spec f1 payload Hf1ok) as (_ & _ & _ & Hr2 & _).
    destruct (appended_content _ _ _ _ _ Happ) as (_ & _ & Hr3 & _).
    pose proof Happ as (_ & _ & _ & _ & Hf3ok).
    destruct (safety_check_spec f3 Hf3ok) as (_ & _ & Hr4 & _).
    rewrite Hr4, Hr3. subst f2. by rewrite Hr2, Hr1.
  - right.
    destruct (appended_content _ _ _ _ _ Happ) as (Hd3 & _).
    pose proof Happ as (_ & _ & _ & _ & Hf3ok).
    destruct (complete_frame_spec al dev f3 nb i Hring Hf3ok Hd3 Hi)
      as (dev'' & g0 & g & Hcf' & Hg0 & Hfs & Hwf & Hcap & _ & _ & Hdrop & _ & Hrg & _).
    rewrite Hcf in Hcf'. injection Hcf' as <-.
    destruct (next_index_bounds _ Hw) as (Hw' & Hne & _).
    exists (set_ready (set_size f3 (i + 1)) true), g0, g.
    fold w w' r in Hw', Hne, Hfs, Hwf, Hg0, Hdrop |- *.
    assert (Hat : ∀ j, 0 ≤ j → frame_at dev' j =
      if decide (j = w') then Some g
      else if decide (j = w) then Some (set_ready (set_size f3 (i + 1)) true)
      else frame_at dev j).
    { intros j Hj. unfold frame_at. destruct (Z.leb_spec 0 j); [|lia]. rewrite Hfs.
      destruct (decide (j = w')) as [->|].
      - apply list_lookup_insert_eq. rewrite length_insert. lia.
      - rewrite list_lookup_insert_ne by lia.
        destruct (decide (j = w)) as [->|].
        + apply list_lookup_insert_eq. lia.
        + by rewrite list_lookup_insert_ne by lia. }
    split_and!; try done.
    + rewrite Hat by lia. rewrite decide_False by done. by rewrite decide_True.
    + rewrite Hat by lia. by rewrite decide_True.
    + intros j Hj Hjw Hjw'. rewrite Hat by lia. by rewrite !decide_False.
Qed.

Lemma ring_holds_init dev0 f :
  ring_ok dev0 → read_frame dev0 = write_frame dev0 →
  frame_at dev0 (write_frame dev0) = Some f → ready f = false →
  0 ≤ frames_captured dev0 < 2 ^ 32 → 0 ≤ frames_dropped dev0 < 2 ^ 32 →
  ring_holds dev0 dev0 [].
Proof.
  intros Hring Hrw Hf Hnr Hc Hd. pose proof Hring as (Hlen & Hw & Hr & Hall).
  unfold ring_holds, dropped_after, MAX_FRAMES in *. simpl.
  rewrite !Z.add_0_r, !Z.mod_small by lia.
  split_and!; try done; try lia; eauto.
Qed.

Lemma uint_incr_add x n : uint_incr ((x + n) mod 2 ^ 32) = (x + (n + 1)) mod 2 ^ 32.
Proof. unfold uint_incr. Z.div_mod_to_equations. lia. Qed.

Lemma index_succ a n :
  ((a + n) mod MAX_FRAMES + 1) mod MAX_FRAMES = (a + (n + 1)) mod MAX_FRAMES.
Proof. unfold MAX_FRAMES. Z.div_mod_to_equations. lia. Qed.

Lemma index_distinct a j K :
  1 ≤ K - j ≤ MAX_FRAMES - 1 → (a + j) mod MAX_FRAMES ≠ (a + K) mod MAX_FRAMES.
Proof. unfold MAX_FRAMES. intros. Z.div_mod_to_equations. lia. Qed.

Lemma index_wrap a K :
  (a + (K + 1)) mod MAX_FRAMES = (a + (K - (MAX_FRAMES - 1))) mod MAX_FRAMES.
Proof. unfold MAX_FRAMES. Z.div_mod_to_equations. lia. Qed.

Lemma ring_holds_step al dev0 dev log pkt :
  ring_holds dev0 dev log → Z.of_nat (length pkt) ≤ BUFFER_SIZE →
  ∃ dev', process_data al dev pkt = Some dev' ∧
    ring_holds dev0 dev' (log ++ newly_completed dev dev').
Proof.
  intros (Hw0 & Hring & Hstr & Hw & Hr & Hcap & Hdrop & (f & Hf & Hnr) & Hslots) Hpkt.
  destruct (process_data_ring_step al dev pkt f Hring Hpkt Hf Hnr)
    as (dev' & Hpd & Hring' & Hstr' & Hstep).
  exists dev'. split; [done|].
  pose proof Hring as (_ & Hwb & Hrb & _).
  destruct (next_index_bounds _ Hwb) as (Hwb' & Hne & Hrem).
  destruct (next_index_bounds _ Hrb) as (_ & _ & Hrem').
  unfold newly_completed.
  set (K := Z.of_nat (length log)) in *.
  set (w0 := write_frame dev0) in *.
  assert (HK : 0 ≤ K) by lia.
  assert (HDK : dropped_after K ≤ K ∧ 0 ≤ dropped_after K ∧
                K - dropped_after K ≤ MAX_FRAMES - 1)
    by (unfold dropped_after, MAX_FRAMES; lia).
  destruct Hstep as [(Hw' & Hr' & Hcap' & Hdrop' & Hsame & Hwslot)
                    |(fin & g0 & g & Hw' & Hcap' & Hfin & Hfr & Hg0 & Hg & Hgr & Hsame & Hdr)].
  - rewrite Hw', Z.eqb_refl, app_nil_r. unfold ring_holds. fold K w0.
    rewrite Hw', Hr', Hcap', Hdrop'. split_and!; try done; try congruence; try lia.
    intros j Hj. destruct (Hslots j Hj) as (fj & Hfj & Hrj & Hlj).
    exists fj. split_and!; try done. rewrite Hsame; [done| |].
    + apply Z.mod_pos_bound. unfold MAX_FRAMES. lia.
    + rewrite Hw. apply index_distinct. lia.
  - destruct (Z.eqb_spec (write_frame dev') (write_frame dev)) as [Heq|_]; [congruence|].
    rewrite Hfin. unfold ring_holds. rewrite length_app. simpl.
    replace (Z.of_nat (length log + 1)) with (K + 1) by lia. fold w0.
    assert (Hnext : Z.rem (write_frame dev + 1) MAX_FRAMES = (w0 + (K + 1)) mod MAX_FRAMES).
    { by rewrite Hrem, Hw, index_succ. }
    assert (Hdecide : (Z.rem (write_frame dev + 1) MAX_FRAMES = read_frame dev ∧
                       ready g0 = true) ↔ MAX_FRAMES - 1 ≤ K).
    { rewrite Hnext, Hr. split.
      - intros [Heq _]. destruct (decide (MAX_FRAMES - 1 ≤ K)) as [|Hlt]; [done|].
        exfalso. symmetry in Heq. revert Heq. apply index_distinct.
        unfold dropped_after, MAX_FRAMES in *. lia.
      - intros H11.
        assert (Heq : (w0 + (K + 1)) mod MAX_FRAMES =
                      (w0 + dropped_after K) mod MAX_FRAMES).
        { rewrite index_wrap. do 2 f_equal. unfold dropped_after. lia. }
        split; [done|].
        destruct (Hslots (dropped_after K)) as (fj & Hfj & Hrj & _).
        { unfold dropped_after, MAX_FRAMES in *. lia. }
        rewrite <- Heq, <- Hnext, Hg0 in Hfj. by injection Hfj as ->. }
    assert (HD : dropped_after (K + 1) =
                 if decide (MAX_FRAMES - 1 ≤ K) then dropped_after K + 1
                 else dropped_after K).
    { unfold dropped_after, MAX_FRAMES. destruct (decide (12 - 1 ≤ K)); lia. }
    assert (Hrd : read_frame dev' = (w0 + dropped_after (K + 1)) mod MAX_FRAMES ∧
                  frames_dropped dev' =
                    (frames_dropped dev0 + dropped_after (K + 1)) mod 2 ^ 32).
    { rewrite HD. destruct (decide (MAX_FRAMES - 1 ≤ K)) as [H11|H11].
      - rewrite decide_True in Hdr by (by apply Hdecide).
        destruct Hdr as [-> ->]. rewrite Hrem', Hr, Hdrop, index_succ, uint_incr_add. done.
      - rewrite decide_False in Hdr by (by rewrite Hdecide).
        destruct Hdr as [-> ->]. by rewrite Hr, Hdrop. }
    destruct Hrd as [Hr' Hdrop'].
    assert (HDK' : dropped_after K ≤ dropped_after (K + 1) ∧
                   K + 1 - dropped_after (K + 1) ≤ MAX_FRAMES - 1)
      by (unfold dropped_after, MAX_FRAMES; lia).
    split_and!; try done; try congruence; try lia.
    + by rewrite Hcap', Hcap, uint_incr_add.
    + exists g. by rewrite Hw'.
    + intros j Hj. destruct (decide (j = K)) as [->|HjK].
      * exists fin. rewrite <- Hw. split_and!; try done.
        rewrite lookup_app_r by lia.
        replace (Z.to_nat K - length log)%nat with 0%nat by lia. done.
      * destruct (Hslots j) as (fj & Hfj & Hrj & Hlj); [lia|].
        exists fj. split_and!; try done.
        -- rewrite Hsame; [done| | |].
           ++ apply Z.mod_pos_bound. unfold MAX_FRAMES. lia.
           ++ rewrite Hw. apply index_distinct. lia.
           ++ rewrite Hnext. apply index_distinct. lia.
        -- rewrite lookup_app_l by lia. done.
Qed.

Lemma feed_ring_holds dev0 dev log inputs :
  ring_holds dev0 dev log →
  Forall (λ x : allocator * list Z, Z.of_nat (length x.2) ≤ BUFFER_SIZE) inputs →
  ∃ dev' log', feed dev inputs = Some (dev', log') ∧
    ring_holds dev0 dev' (log ++ log').
Proof.
  intros Hinv Hall. revert dev log Hinv.
  induction Hall as [|[al pkt] inputs Hpkt _ IH]; intros dev log Hinv; simpl.
  - exists dev, []. by rewrite app_nil_r.
  - destruct (ring_holds_step al dev0 dev log pkt Hinv Hpkt) as (dev1 & -> & Hinv1).
    simpl. destruct (IH _ _ Hinv1) as (dev' & log' & -> & Hinv').
    simpl. eexists _, _. split; [done|]. by rewrite app_assoc.
Qed.

(** C2, as stated, fails: after K = 13 frames that nobody read, the
    counter of dropped frames is 2, not K - N = 1, and the next read returns
    the third frame, not the second. *)
Lemma drop_accounting_counterexample :
  match feed session_started thirteen_frames with
  | Some (dev', log) =>
      log = numbered_jpeg <$> seqZ 1 13 ∧
      frames_captured dev' = 13 ∧
      frames_dropped dev' = 2 ∧
      frames_dropped dev' ≠ 13 - MAX_FRAMES ∧
      match camera_read_frame [] dev' (Some (replicate (Z.to_nat BUFFER_SIZE) 0))
              BUFFER_SIZE (Some 0) 100 "" with
      | Returns r =>
          rr_status r = CAMERA_SUCCESS ∧
          take (Z.to_nat (rr_bytes_read r)) (rr_buffer r) = numbered_jpeg 3 ∧
          take (Z.to_nat (rr_bytes_read r)) (rr_buffer r) ≠ numbered_jpeg 2
      | _ => False
      end
  | None => False
  end.
Proof. vm_compute. split_and!; done. Qed.

(** C2, amended.  Of the [MAX_FRAMES] slots one is the write slot, so the
    ring keeps [MAX_FRAMES - 1] completed frames.  When [process_data] has
    completed K frames since the ring was empty and none was read, it has
    dropped [max 0 (K - (MAX_FRAMES - 1))] of them, and the next read with a
    large enough buffer returns the oldest frame that was not dropped: for
    K >= MAX_FRAMES - 1 the frame number K - MAX_FRAMES + 2. *)
Theorem drop_accounting dev0 f inputs :
  ring_ok dev0 → streaming dev0 = true →
  read_frame dev0 = write_frame dev0 →
  frame_at dev0 (write_frame dev0) = Some f → ready f = false →
  0 ≤ frames_captured dev0 < 2 ^ 32 → 0 ≤ frames_dropped dev0 < 2 ^ 32 →
  Forall (λ x : allocator * list Z, Z.of_nat (length x.2) ≤ BUFFER_SIZE) inputs →
  ∃ dev' log, feed dev0 inputs = Some (dev', log) ∧
    let K := Z.of_nat (length log) in
    frames_captured dev' = (frames_captured dev0 + K) mod 2 ^ 32 ∧
    frames_dropped dev' = (frames_dropped dev0 + dropped_after K) mod 2 ^ 32 ∧
    (MAX_FRAMES - 1 ≤ K → dropped_after K = K - (MAX_FRAMES - 1)) ∧
    (1 ≤ K →
     ∀ waits (buf : list Z) n br t err,
       BUFFER_SIZE ≤ n → n ≤ Z.of_nat (length buf) →
       ∃ frame r,
         log !! Z.to_nat (dropped_after K) = Some frame ∧
         camera_read_frame waits dev' (Some buf) n (Some br) t err = Returns r ∧
         rr_status r = CAMERA_SUCCESS ∧
         rr_bytes_read r = Z.of_nat (length frame) ∧
         take (length frame) (rr_buffer r) = frame).
Proof.
  intros Hring Hstr Hrw Hf Hnr Hc Hd Hall.
  pose proof (ring_holds_init dev0 f Hring Hrw Hf Hnr Hc Hd) as Hinit.
  destruct (feed_ring_holds dev0 dev0 [] inputs Hinit Hall)
    as (dev' & log & Hfeed & Hinv).
  exists dev', log. split; [done|]. simpl in Hinv.
  destruct Hinv as (Hw0 & Hring' & Hstr' & Hw & Hr & Hcap & Hdrop & _ & Hslots).
  split_and!; try done.
  { unfold dropped_after. lia. }
  intros HK waits buf n br t err Hn Hbuf.
  destruct (Hslots (dropped_after (Z.of_nat (length log)))) as (fr & Hfr & Hrd & Hlog).
  { unfold dropped_after, MAX_FRAMES. lia. }
  rewrite <- Hr in Hfr.
  assert (Hfl : frames dev' !! Z.to_nat (read_frame dev') = Some fr).
  { unfold frame_at in Hfr. by destruct (0 <=? read_frame dev'). }
  pose proof Hring' as (_ & _ & _ & Hallok).
  pose proof (Forall_lookup_1 _ _ _ _ Hallok Hfl) as Hfok.
  assert (Hsz : 0 ≤ size fr ≤ BUFFER_SIZE ∧ Z.of_nat (length (content fr)) = size fr).
  { unfold frame_ok, content in *. destruct (data fr).
    - rewrite length_take. lia.
    - unfold BUFFER_SIZE. simpl. lia. }
  destruct (read_frame_loop_ready waits dev' fr buf n t err Hring' Hfl Hrd)
    as (nb & Hread & _ & Hcopy); [lia..|].
  exists (content fr). eexists. split; [done|].
  unfold camera_read_frame. rewrite Hstr', Hstr. simpl. rewrite Hread.
  split_and!; try done.
  - simpl. lia.
  - simpl. by replace (length (content fr)) with (Z.to_nat (size fr)) by lia.
Qed.

Lemma drop_accounting_witness :
  ∃ dev' log, feed session_started thirteen_frames = Some (dev', log) ∧
    let K := Z.of_nat (length log) in
    frames_captured dev' = (frames_captured session_started + K) mod 2 ^ 32 ∧
    frames_dropped dev' = (frames_dropped session_started + dropped_after K) mod 2 ^ 32 ∧
    (MAX_FRAMES - 1 ≤ K → dropped_after K = K - (MAX_FRAMES - 1)) ∧
    (1 ≤ K →
     ∀ waits (buf : list Z) n br t err,
       BUFFER_SIZE ≤ n → n ≤ Z.of_nat (length buf) →
       ∃ frame r,
         log !! Z.to_nat (dropped_after K) = Some frame ∧
         camera_read_frame waits dev' (Some buf) n (Some br) t err = Returns r ∧
         rr_status r = CAMERA_SUCCESS ∧
         rr_bytes_read r = Z.of_nat (length frame) ∧
         take (length frame) (rr_buffer r) = frame).
Proof.
  apply (drop_accounting session_started empty_frame thirteen_frames).
  - apply (bool_decide_unpack _). vm_compute. exact I.
  - reflexivity.
  - reflexivity.
  - reflexivity.
  - reflexivity.
  - vm_compute. split; [discriminate|reflexivity].
  - vm_compute. split; [discriminate|reflexivity].
  - apply (bool_decide_unpack _). vm_compute. exact I.
Defined.

(** ** Reassembly of one JPEG *)

Lemma packet_magic h p : has_magic (packet h p) = true.
Proof. done. Qed.

Lemma packet_length h p : length (packet h p) = (12 + length p)%nat.
Proof.
  unfold packet. rewrite !length_app, length_take, length_app, length_replicate.
  change (length [170; 187; 7]) with 3%nat. lia.
Qed.

Lemma packet_payload h p : drop (Z.to_nat HEADER_SIZE) (packet h p) = p.
Proof.
  unfold packet. change (Z.to_nat HEADER_SIZE) with 12%nat.
  change (drop 12 ([170; 187; 7] ++ ?l)) with (drop 9 l).
  rewrite drop_app_length'; [done|].
  rewrite length_take, length_app, length_replicate. lia.
Qed.

Lemma content_length f : frame_ok f → Z.of_nat (length (content f)) = size f.
Proof.
  unfold frame_ok, content. destruct (data f).
  - rewrite length_take. lia.
  - simpl. lia.
Qed.

Lemma alloc_write_slot_is_Some al f :
  is_Some (alloc_frame al) → is_Some (alloc_write_slot al f).
Proof.
  intros [b Hb]. unfold alloc_write_slot, malloc. rewrite Hb.
  destruct (data f); eauto.
Qed.

(** A packet that is all header: nothing changes but, possibly, the block
    of the write slot. *)
Lemma process_data_header_only al dev h f :
  ring_ok dev → frame_at dev (write_frame dev) = Some f →
  ∃ dev' f', process_data al dev (packet h []) = Some dev' ∧ ring_ok dev' ∧
    streaming dev' = streaming dev ∧
    write_frame dev' = write_frame dev ∧ read_frame dev' = read_frame dev ∧
    (∀ i, 0 ≤ i → i ≠ write_frame dev → frame_at dev' i = frame_at dev i) ∧
    frame_at dev' (write_frame dev) = Some f' ∧
    ready f' = ready f ∧ content f' = content f.
Proof.
  intros Hring Hf. pose proof Hring as (Hlen & Hw & Hr & Hall).
  assert (Hfok : frame_ok f).
  { destruct (frame_at_ring_ok dev _ Hring Hw) as (f0 & Hf0 & _ & ?). congruence. }
  assert (Hl : Z.of_nat (length (packet h [])) = 12) by (rewrite packet_length; simpl; lia).
  unfold process_data. rewrite Hf, Hl, packet_magic. simpl.
  destruct (alloc_write_slot al f) as [f1|] eqn:Hal.
  - destruct (alloc_write_slot_spec _ _ _ Hfok Hal) as (Hf1ok & _ & _ & Hrd & Hct & _).
    exists (store_frame dev (write_frame dev) f1), f1.
    split_and!; try done.
    + by apply ring_ok_store.
    + intros i Hi Hne. rewrite frame_at_store by lia. by rewrite decide_False.
    + rewrite frame_at_store by lia. by rewrite decide_True.
  - exists dev, f. split_and!; done.
Qed.

Lemma frame_end_app_l (A R : list Z) j :
  1 ≤ j < Z.of_nat (length A) → frame_end (A ++ R) j ↔ frame_end A j.
Proof.
  intros Hj. unfold frame_end, eoi_at, soi_first. by rewrite !rd_app_l by lia.
Qed.

Lemma sole_jpeg_end J i :
  sole_jpeg J → frame_end J i → i = Z.of_nat (length J) - 1.
Proof.
  intros [_ Hnone] Hend. pose proof (frame_end_bound _ _ Hend) as Hi.
  destruct (decide (i = Z.of_nat (length J) - 1)) as [|Hne]; [done|].
  exfalso. destruct Hend as (He & Hmin & _). apply (Hnone i); [lia|done].
Qed.

(** One slice of the JPEG [J = A ++ p ++ R] arrives while the write slot
    holds [A]: if more is to come the slot then holds [A ++ p], and if [p]
    is the end of [J] the frame is completed. *)
Lemma process_data_slice al dev h (A p R J : list Z) :
  accumulating dev A → is_Some (alloc_frame al) → p ≠ [] →
  12 + Z.of_nat (length p) ≤ BUFFER_SIZE →
  Z.of_nat (length A) = 0 ∨ starts_with_soi p = false →
  J = A ++ p ++ R → sole_jpeg J → Z.of_nat (length J) ≤ BUFFER_SIZE →
  (R ≠ [] → Z.of_nat (length A) + Z.of_nat (length p) ≤ MAX_JPEG_SIZE) →
  ∃ dev', process_data al dev (packet h p) = Some dev' ∧
    streaming dev' = streaming dev ∧
    if decide (R = [])
    then holding dev' J ∧ newly_completed dev dev' = [J]
    else accumulating dev' (A ++ p) ∧ newly_completed dev dev' = [].
Proof.
  intros (Hring & Hrw & f & Hf & Hnr & Hct) Hal0 Hp Hfitp Hsoi HJ Hsole HJlen Hpart.
  pose proof Hring as (Hlen & Hw & Hr & Hall).
  assert (Hfok : frame_ok f).
  { destruct (frame_at_ring_ok dev _ Hring Hw) as (f0 & Hf0 & _ & ?). congruence. }
  assert (Hpl : Z.of_nat (length (packet h p)) = 12 + Z.of_nat (length p))
    by (rewrite packet_length; lia).
  assert (Hpos : 0 < Z.of_nat (length p)) by (destruct p; [done|simpl; lia]).
  destruct (alloc_write_slot_is_Some al f Hal0) as [f1 Hal].
  destruct (alloc_write_slot_spec _ _ _ Hfok Hal)
    as (Hf1ok & [buf1 Hd1] & Hs1 & Hr1 & Hc1 & _).
  assert (HsA : size f1 = Z.of_nat (length A)).
  { rewrite Hs1, <- Hct. symmetry. by apply content_length. }
  assert (Hf2 : discard_incomplete f1 p = f1).
  { unfold discard_incomplete. destruct Hsoi as [Hz| ->]; [|done].
    destruct (Z.ltb_spec 0 (size f1)); [lia|]. by rewrite andb_false_r. }
  assert (Hcap : capacity f1 = BUFFER_SIZE).
  { unfold frame_ok in Hf1ok. rewrite Hd1 in Hf1ok. tauto. }
  assert (HJl : Z.of_nat (length J) =
                Z.of_nat (length A) + Z.of_nat (length p) + Z.of_nat (length R)).
  { rewrite HJ, !length_app. lia. }
  destruct (process_data_total al dev (packet h p) Hring) as (fw & dev' & Hfw & _ & Hpd & Hpath);
    [lia|].
  assert (fw = f) by congruence. subst fw. clear Hfw.
  pose proof (process_data_path_fits al dev (packet h p) f f1 dev') as Hfits.
  cbv zeta in Hfits. rewrite packet_payload, Hf2 in Hfits.
  destruct Hfits as (f3 & buf & nb & Happ & Hcases);
    [apply packet_magic|unfold HEADER_SIZE; lia|done|lia|done|].
  destruct (appended_content _ _ _ _ _ Happ) as (Hd3 & Hs3 & Hr3 & Hc3).
  pose proof Happ as (_ & _ & _ & _ & Hf3ok).
  rewrite Hc1, Hct in Hc3.
  assert (Hl3 : size f3 = Z.of_nat (length (A ++ p))).
  { rewrite <- Hc3. symmetry. by apply content_length. }
  assert (Hend : ∀ j, 1 ≤ j < size f3 → frame_end nb j ↔ frame_end J j).
  { intros j Hj. rewrite HJ, app_assoc, frame_end_app_l by lia.
    rewrite <- Hc3. unfold content. rewrite Hd3. symmetry. apply frame_end_take. lia. }
  exists dev'. split; [done|]. split.
  { by eapply process_data_path_counters. }
  rewrite length_app in Hl3.
  destruct (decide (R = [])) as [->|HR].
  - rewrite !app_nil_r in *. simpl in HJl.
    destruct Hcases as [[-> Hnone]|(i & Hi & Hei & Hmin & Hcf)].
    { exfalso. destruct Hsole as [Hlast _]. pose proof (frame_end_bound _ _ Hlast).
      apply (Hnone (Z.of_nat (length J) - 1)); [lia|]. apply Hend; [lia|done]. }
    assert (Hi' : i = Z.of_nat (length J) - 1).
    { apply sole_jpeg_end; [done|]. by apply Hend. }
    destruct (complete_frame_spec al dev f3 nb i Hring Hf3ok Hd3 Hi)
      as (dev'' & g0 & g & Hcf' & Hg0 & Hfs & Hwf & _ & _ & _ & Hdrop & Hgok & Hrg & Hg).
    rewrite Hcf in Hcf'. injection Hcf' as <-.
    destruct (next_index_bounds _ Hw) as (Hw' & Hne & _).
    rewrite decide_False in Hdrop by (rewrite Hrw; tauto). destruct Hdrop as [Hrd' _].
    assert (Hfin : frame_at dev' (write_frame dev) =
                   Some (set_ready (set_size f3 (i + 1)) true)).
    { unfold frame_at. destruct (Z.leb_spec 0 (write_frame dev)); [|lia].
      rewrite Hfs, list_lookup_insert_ne by lia. apply list_lookup_insert_eq. lia. }
    assert (Hcfin : content (set_ready (set_size f3 (i + 1)) true) = J).
    { unfold content. simpl. rewrite Hd3. subst i.
      replace (Z.of_nat (length J) - 1 + 1) with (size f3) by lia.
      rewrite HJ, <- Hc3. unfold content. by rewrite Hd3. }
    split.
    + split_and!.
      * by eapply process_data_path_ring_ok; [..|exact Hpath]; try lia.
      * rewrite Hwf, Hrd', Hrw. done.
      * eexists. rewrite Hrd', Hrw. split_and!; [exact Hfin|done|done].
      * exists g. split_and!; [|done|].
        -- rewrite Hwf. unfold frame_at.
           destruct (Z.leb_spec 0 (Z.rem (write_frame dev + 1) MAX_FRAMES)); [|lia].
           rewrite Hfs. apply list_lookup_insert_eq. rewrite length_insert. lia.
        -- apply content_empty.
           assert (Hlo : leftover_kept al f3 nb i = false).
           { unfold leftover_kept.
             assert (leftover_bytes f3 nb i = []) as ->.
             { apply nil_length_inv.
               unfold frame_ok in Hf3ok. rewrite Hd3 in Hf3ok.
               pose proof (leftover_bytes_length f3 nb i). lia. }
             simpl. by rewrite andb_false_r. }
           rewrite Hlo in Hg. destruct (decide _) as [[Hdn _]|_]; [|done].
           subst g. unfold frame_ok in Hgok. rewrite Hdn in Hgok. tauto.
    + unfold newly_completed. rewrite Hwf.
      destruct (Z.eqb_spec (Z.rem (write_frame dev + 1) MAX_FRAMES) (write_frame dev));
        [done|].
      by rewrite Hfin, Hcfin.
  - assert (HRl : 0 < Z.of_nat (length R)) by (destruct R; [done|simpl; lia]).
    destruct Hcases as [[-> Hnone]|(i & Hi & Hei & Hmin & Hcf)].
    2:{ exfalso. apply Hend in Hei; [|done].
        apply (sole_jpeg_end _ _ Hsole) in Hei. lia. }
    assert (Hsc : safety_check f3 = f3).
    { unfold safety_check. specialize (Hpart HR).
      destruct (Z.ltb_spec MAX_JPEG_SIZE (size f3)); [lia|done]. }
    rewrite Hsc. split.
    + split_and!.
      * by apply ring_ok_store.
      * done.
      * exists f3.
        change (write_frame (store_frame dev (write_frame dev) f3)) with (write_frame dev).
        rewrite frame_at_store by lia. rewrite decide_True by done.
        split_and!; [done| |done]. by rewrite Hr3, Hr1.
    + unfold newly_completed. simpl. by rewrite Z.eqb_refl.
Qed.

Lemma feed_holding dev J slices :
  holding dev J → Forall (λ s : allocator * list Z * list Z, s.2 = []) slices →
  ∃ dev', feed dev (packets_of slices) = Some (dev', []) ∧ holding dev' J ∧
    streaming dev' = streaming dev.
Proof.
  intros Hhold Hall. revert dev Hhold.
  induction Hall as [|[[al h] p] slices Hp _ IH]; intros dev Hhold; simpl.
  { by exists dev. }
  simpl in Hp. subst p.
  destruct Hhold as (Hring & Hne & (f & Hf & Hfr & Hfc) & (g & Hg & Hgr & Hgc)).
  destruct (process_data_header_only al dev h g Hring Hg)
    as (dev1 & g' & -> & Hring1 & Hstr1 & Hw1 & Hr1 & Hsame & Hg' & Hgr' & Hgc').
  simpl. pose proof Hring as (_ & _ & Hr & _).
  destruct (IH dev1) as (dev' & -> & Hhold' & Hstr').
  { split_and!; [done|congruence| |].
    - exists f. rewrite Hr1, Hsame by (lia || congruence). done.
    - exists g'. rewrite Hw1. split_and!; congruence. }
  simpl. exists dev'. unfold newly_completed. rewrite Hw1, Z.eqb_refl.
  split_and!; [done|done|congruence].
Qed.

Lemma concat_nil_Forall (l : list (list Z)) : concat l = [] → Forall (λ p, p = []) l.
Proof.
  induction l as [|p l IH]; simpl; [done|].
  intros [-> Hl]%app_eq_nil. constructor; [done|by apply IH].
Qed.

Lemma reassemble_from slices dev (A J : list Z) :
  accumulating dev A → J = A ++ concat (payloads_of slices) →
  sole_jpeg J → Z.of_nat (length J) ≤ BUFFER_SIZE →
  slicing_ok (Z.of_nat (length A)) (payloads_of slices) = true →
  Forall (λ s : allocator * list Z * list Z,
            is_Some (alloc_frame s.1.1) ∧
            12 + Z.of_nat (length s.2) ≤ BUFFER_SIZE) slices →
  concat (payloads_of slices) ≠ [] →
  ∃ dev', feed dev (packets_of slices) = Some (dev', [J]) ∧ holding dev' J ∧
    streaming dev' = streaming dev.
Proof.
  intros Hacc HJ Hsole HJlen Hslices Hall. revert dev A Hacc HJ Hslices.
  induction Hall as [|[[al h] p] slices [Hal Hfit] Hrest IH];
    intros dev A Hacc HJ Hslices Hne; simpl in *; [done|].
  apply andb_true_iff in Hslices as [Hslices Hok].
  apply andb_true_iff in Hslices as [Hsoi Hpart].
  destruct (decide (p = [])) as [->|Hp].
  - simpl in *. rewrite Z.add_0_r in Hok.
    destruct Hacc as (Hring & Hrw & f & Hf & Hnr & Hct).
    destruct (process_data_header_only al dev h f Hring Hf)
      as (dev1 & f' & -> & Hring1 & Hstr1 & Hw1 & Hr1 & Hsame & Hf' & Hfr' & Hfc').
    simpl. destruct (IH dev1 A) as (dev' & -> & Hhold & Hstr'); try done.
    { split_and!; [done|congruence|]. exists f'. rewrite Hw1. split_and!; congruence. }
    simpl. exists dev'. unfold newly_completed. rewrite Hw1, Z.eqb_refl.
    split_and!; [done|done|congruence].
  - destruct (process_data_slice al dev h A p (concat (payloads_of slices)) J)
      as (dev1 & -> & Hstr1 & Hcase); try done.
    { apply orb_true_iff in Hsoi as [Hz|Hs]; [left; zbool; done|right].
      by apply negb_true_iff. }
    { intros HR. apply orb_true_iff in Hpart as [Hnil|Hle]; [|zbool; done].
      by apply bool_decide_eq_true in Hnil. }
    simpl. destruct (decide (concat (payloads_of slices) = [])) as [Hnil|Hmore].
    + destruct Hcase as [Hhold ->].
      destruct (feed_holding dev1 J slices Hhold) as (dev' & -> & Hhold' & Hstr').
      { apply concat_nil_Forall in Hnil. unfold payloads_of in Hnil.
        by apply Forall_fmap in Hnil. }
      simpl. exists dev'. split_and!; [done|done|congruence].
    + destruct Hcase as [Hacc1 ->].
      destruct (IH dev1 (A ++ p)) as (dev' & -> & Hhold & Hstr'); try done.
      { by rewrite <- app_assoc. }
      { rewrite length_app. by replace (Z.of_nat (length A + length p)) with
          (Z.of_nat (length A) + Z.of_nat (length p)) by lia. }
      simpl. exists dev'. split_and!; [done|done|congruence].
Qed.

(** A read that finds the slot at the read pointer not ready does not
    return [CAMERA_SUCCESS], whatever its waits return. *)
Lemma read_frame_loop_not_ready waits dev f (buf : list Z) n t err :
  frame_at dev (read_frame dev) = Some f → ready f = false →
  match read_frame_loop waits dev buf n t err with
  | Returns r => rr_status r ≠ CAMERA_SUCCESS
  | _ => True
  end.
Proof.
  revert dev. induction waits as [|wr waits IH]; intros dev Hf Hnr;
    rewrite read_frame_loop_unfold, Hf, Hnr; [done|].
  destruct wr; [by apply IH|by destruct (t =? 0)|done].
Qed.

(** C1, amended.  From an empty ring of a streaming device, the packets
    carry, payload after payload, the bytes of one JPEG [J] that has at
    least [MIN_JPEG_SIZE] and at most [BUFFER_SIZE] bytes and no [FF D9]
    that completes [MIN_JPEG_SIZE] bytes before its end; no payload that
    follows the first bytes starts with [FF D8]; as long as bytes are still
    to come, at most [MAX_JPEG_SIZE] bytes are accumulated; every packet
    fits the read buffer and each block the write slot needs is allocated.
    Then the run completes exactly the frame [J], and a
    [camera_read_frame] with a buffer of at least that size returns
    [CAMERA_SUCCESS] and the bytes of [J]. *)
Theorem single_jpeg_reassembly dev f slices :
  let J := concat (payloads_of slices) in
  ring_ok dev → streaming dev = true →
  read_frame dev = write_frame dev →
  frame_at dev (write_frame dev) = Some f → ready f = false → size f = 0 →
  sole_jpeg J → Z.of_nat (length J) ≤ BUFFER_SIZE →
  slicing_ok 0 (payloads_of slices) = true →
  Forall (λ s : allocator * list Z * list Z,
            is_Some (alloc_frame s.1.1) ∧
            12 + Z.of_nat (length s.2) ≤ BUFFER_SIZE) slices →
  ∃ dev', feed dev (packets_of slices) = Some (dev', [J]) ∧
    ∀ waits (buf : list Z) n br t err,
      Z.of_nat (length J) ≤ n → n ≤ Z.of_nat (length buf) →
      ∃ r, camera_read_frame waits dev' (Some buf) n (Some br) t err = Returns r ∧
        rr_status r = CAMERA_SUCCESS ∧
        rr_bytes_read r = Z.of_nat (length J) ∧
        take (length J) (rr_buffer r) = J.
Proof.
  intros J Hring Hstr Hrw Hf Hnr Hsz Hsole HJlen Hslices Hall.
  assert (HJne : J ≠ []).
  { destruct Hsole as [Hend _]. apply frame_end_bound in Hend.
    intros HJ. rewrite HJ in Hend. simpl in Hend. lia. }
  destruct (reassemble_from slices dev [] J) as (dev' & Hfeed & Hhold & Hstr'); try done.
  { split_and!; [done..|]. exists f. split_and!; [done..|]. by apply content_empty. }
  exists dev'. split; [done|].
  intros waits buf n br t err Hn Hbuf.
  destruct Hhold as (Hring' & _ & (fj & Hfj & Hrj & Hcj) & _).
  assert (Hfl : frames dev' !! Z.to_nat (read_frame dev') = Some fj).
  { unfold frame_at in Hfj. by destruct (0 <=? read_frame dev'). }
  pose proof Hring' as (_ & _ & _ & Hallok).
  pose proof (content_length fj (Forall_lookup_1 _ _ _ _ Hallok Hfl)) as Hlen.
  rewrite Hcj in Hlen.
  destruct (read_frame_loop_ready waits dev' fj buf n t err Hring' Hfl Hrj)
    as (nb & Hread & _ & Hcopy); [lia..|].
  eexists. unfold camera_read_frame. rewrite Hstr', Hstr. simpl. rewrite Hread.
  split_and!; try done. simpl.
  rewrite <- Hcj at 2. rewrite <- Hcopy. f_equal. lia.
Qed.

Lemma single_jpeg_reassembly_witness :
  let J := concat (payloads_of two_slices) in
  ∃ dev', feed session_started (packets_of two_slices) = Some (dev', [J]) ∧
    ∀ waits (buf : list Z) n br t err,
      Z.of_nat (length J) ≤ n → n ≤ Z.of_nat (length buf) →
      ∃ r, camera_read_frame waits dev' (Some buf) n (Some br) t err = Returns r ∧
        rr_status r = CAMERA_SUCCESS ∧
        rr_bytes_read r = Z.of_nat (length J) ∧
        take (length J) (rr_buffer r) = J.
Proof.
  apply (single_jpeg_reassembly session_started empty_frame two_slices).
  - apply (bool_decide_unpack _). vm_compute. exact I.
  - reflexivity.
  - reflexivity.
  - reflexivity.
  - reflexivity.
  - reflexivity.
  - split.
    + unfold frame_end, eoi_at, soi_first.
      split_and!; try reflexivity; vm_compute; discriminate.
    + intros j Hj. change (Z.of_nat (length (concat (payloads_of two_slices))))
        with 1000 in Hj. unfold MIN_JPEG_SIZE in Hj. lia.
  - vm_compute. discriminate.
  - reflexivity.
  - apply (bool_decide_unpack _). vm_compute. exact I.
Defined.

Example reassembly_unsplit_same :
  (snd <$> feed session_started (packets_of two_slices)) = Some [small_jpeg] ∧
  (snd <$> feed session_started [(ok_allocator, packet [] small_jpeg)]) = Some [small_jpeg].
Proof. vm_compute. split_and!; reflexivity. Qed.

(** C1, as stated, fails: the payload of the packet is one JPEG, from
    [FF D8] to [FF D9]; it has 500 bytes, the run completes no frame, and
    no [camera_read_frame] that follows returns [CAMERA_SUCCESS], whatever
    its waits return. *)
Lemma single_jpeg_reassembly_counterexample :
  take 2 tiny_jpeg = [0xFF; 0xD8] ∧ drop 498 tiny_jpeg = [0xFF; 0xD9] ∧
  match feed session_started [(ok_allocator, packet [] tiny_jpeg)] with
  | Some (dev', log) =>
      log = [] ∧
      ∀ waits t,
        match camera_read_frame waits dev' (Some (replicate 1000 0)) 1000 (Some 0) t "" with
        | Returns r => rr_status r ≠ CAMERA_SUCCESS
        | _ => True
        end
  | None => False
  end.
Proof.
  split; [done|]. split; [done|].
  assert (Hlog : (snd <$> feed session_started [(ok_allocator, packet [] tiny_jpeg)]) =
                 Some []) by (vm_compute; reflexivity).
  assert (Hstr : (streaming ∘ fst <$>
                  feed session_started [(ok_allocator, packet [] tiny_jpeg)]) =
                 Some true) by (vm_compute; reflexivity).
  assert (Hrd : ((λ d, ready <$> frame_at d (read_frame d)) ∘ fst <$>
                 feed session_started [(ok_allocator, packet [] tiny_jpeg)]) =
                Some (Some false)) by (vm_compute; reflexivity).
  destruct (feed session_started [(ok_allocator, packet [] tiny_jpeg)])
    as [[dev' log]|]; [|done].
  simpl in *. injection Hlog as ->. injection Hstr as Hstr. injection Hrd as Hrd.
  split; [done|]. intros waits t. unfold camera_read_frame. rewrite Hstr. simpl.
  destruct (frame_at dev' (read_frame dev')) as [f|] eqn:Hf; [|done].
  injection Hrd as Hrd. by eapply read_frame_loop_not_ready.
Qed.

(** The other conditions of C1, amended, are needed as well: a JPEG with an
    [FF D9] inside is delivered cut at that marker, and a slice that starts
    with [FF D8] makes the reassembler drop what it had. *)
Example reassembly_inner_eoi :
  length inner_eoi_jpeg = 1500%nat ∧
  (snd <$> feed session_started [(ok_allocator, packet [] inner_eoi_jpeg)]) =
    Some [take 1102 inner_eoi_jpeg].
Proof. vm_compute. split_and!; reflexivity. Qed.

Example reassembly_inner_soi :
  length inner_soi_jpeg = 1500%nat ∧
  (snd <$> feed session_started
     [(ok_allocator, packet [] (take 600 inner_soi_jpeg));
      (ok_allocator, packet [] (drop 600 inner_soi_jpeg))]) = Some [] ∧
  (snd <$> feed session_started [(ok_allocator, packet [] inner_soi_jpeg)]) =
    Some [inner_soi_jpeg].
Proof. vm_compute. split_and!; reflexivity. Qed.

(** ** The payload that does not fit behind the write slot *)

Lemma content_set_size_0 f : content (set_size f 0) = [].
Proof. unfold content. simpl. by destruct (data f). Qed.

Lemma nearly_full_write_slot :
  frame_at nearly_full_device (write_frame nearly_full_device) = Some nearly_full_slot.
Proof. reflexivity. Qed.

Lemma long_soi_payload_length : Z.of_nat (length long_soi_payload) = 62000.
Proof.
  unfold long_soi_payload. rewrite length_app, length_replicate.
  change (length [255; 216]) with 2%nat. lia.
Qed.

Lemma long_soi_payload_no_end i : ¬ frame_end long_soi_payload i.
Proof.
  intros ((_ & He) & _). apply rd_Some in He as [_ He].
  unfold long_soi_payload in He.
  apply lookup_app_Some in He as [He|[_ He]].
  - apply list_elem_of_lookup_2 in He.
    apply elem_of_cons in He as [He|He]; [done|].
    apply elem_of_cons in He as [He|He]; [done|].
    by apply elem_of_nil in He.
  - by apply lookup_replicate in He as [He _].
Qed.

(** A payload that starts with [FF D8] and does not fit behind the bytes
    of a write slot that is not ready: the bytes are discarded and the
    payload is appended to the empty slot. *)
Lemma overflow_restart al dev pkt f dev' :
  let payload := drop (Z.to_nat HEADER_SIZE) pkt in
  ring_ok dev → Z.of_nat (length pkt) ≤ BUFFER_SIZE →
  frame_at dev (write_frame dev) = Some f → frame_ok f →
  process_data_path al dev pkt f dev' →
  has_magic pkt = true → BUFFER_SIZE < size f + Z.of_nat (length payload) →
  starts_with_soi payload = true → ready f = false →
  ∃ f', frame_at dev' (write_frame dev) = Some f' ∧
    ((∃ i, frame_end payload i ∧ (∀ j, 1 ≤ j < i → ¬ frame_end payload j) ∧
        ready f' = true ∧ content f' = take (Z.to_nat (i + 1)) payload) ∨
     ((∀ i, ¬ frame_end payload i) ∧
        write_frame dev' = write_frame dev ∧ ready f' = false ∧
        content f' =
          if Z.of_nat (length payload) <=? MAX_JPEG_SIZE then payload else [])).
Proof.
  intros payload Hring Hpkt Hf Hfok Hpath Hmagic Hover Hsoi Hnr.
  pose proof Hring as (Hlen & Hw & Hr & Hall).
  assert (Hplen : Z.of_nat (length payload) ≤ Z.of_nat (length pkt)).
  { unfold payload. rewrite length_drop. lia. }
  pose proof Hfok as Hfok'. unfold frame_ok in Hfok'.
  destruct (data f) as [buf|] eqn:Hd; [|unfold BUFFER_SIZE in *; lia].
  destruct Hfok' as (Hbuf & Hcap & Hsize).
  assert (Hlong : HEADER_SIZE < Z.of_nat (length pkt)).
  { unfold payload in Hover. rewrite length_drop in Hover.
    unfold HEADER_SIZE in *. lia. }
  assert (Hpl : Z.of_nat (length payload) = Z.of_nat (length pkt) - HEADER_SIZE).
  { by rewrite (payload_length pkt Hlong). }
  assert (Hal : alloc_write_slot al f = Some f).
  { unfold alloc_write_slot. by rewrite Hd. }
  assert (Hf2 : discard_incomplete f payload = set_size f 0).
  { unfold discard_incomplete. rewrite Hsoi, Hnr.
    destruct (Z.ltb_spec 0 (size f)); [done|].
    unfold BUFFER_SIZE, HEADER_SIZE in *. lia. }
  destruct (process_data_path_fits al dev pkt f f dev' Hmagic Hlong Hal)
    as (f3 & buf' & nb & Happ & Hcases); [|done|].
  { cbv zeta. fold payload. rewrite Hf2. simpl.
    unfold BUFFER_SIZE, HEADER_SIZE in *. lia. }
  cbv zeta in Happ. fold payload in Happ. rewrite Hf2 in Happ.
  destruct (appended_content _ _ _ _ _ Happ) as (Hd3 & Hs3 & Hr3 & Hc3).
  rewrite content_set_size_0 in Hc3. simpl in Hs3, Hr3, Hc3.
  pose proof Happ as (_ & _ & _ & _ & Hf3ok).
  assert (Hacc : payload = take (Z.to_nat (size f3)) nb).
  { rewrite <- Hc3. unfold content. by rewrite Hd3. }
  assert (Hend : ∀ j, 1 ≤ j < size f3 → frame_end payload j ↔ frame_end nb j).
  { intros j Hj. rewrite Hacc. apply frame_end_take. lia. }
  destruct Hcases as [[-> Hnone]|(i & Hi & Hei & Hmin & Hcf)].
  - exists (safety_check f3). split.
    { rewrite frame_at_store by lia. by rewrite decide_True. }
    right. destruct (safety_check_spec f3 Hf3ok) as (_ & Hds & Hrs & Hsc).
    split_and!; try done; [| congruence |].
    + intros i Hi. pose proof (frame_end_bound _ _ Hi).
      apply (Hnone i); [lia|]. apply Hend; [lia|done].
    + unfold safety_check. rewrite Hr3, Hnr. simpl. rewrite andb_true_r.
      destruct (Z.ltb_spec MAX_JPEG_SIZE (size f3)),
               (Z.leb_spec (Z.of_nat (length payload)) MAX_JPEG_SIZE); try lia.
      * unfold content. simpl. by destruct (data f3).
      * done.
  - destruct (complete_frame_spec al dev f3 nb i Hring Hf3ok Hd3 Hi)
      as (dev'' & g0 & g & Hcf' & _ & Hfs & _).
    rewrite Hcf in Hcf'. injection Hcf' as <-.
    destruct (next_index_bounds _ Hw) as (Hw' & Hne & _).
    exists (set_ready (set_size f3 (i + 1)) true). split.
    { unfold frame_at. destruct (Z.leb_spec 0 (write_frame dev)); [|lia].
      rewrite Hfs, list_lookup_insert_ne by lia.
      apply list_lookup_insert_eq. lia. }
    left. exists i. split_and!; try done.
    + by apply Hend.
    + intros j Hj Hej. apply (Hmin j Hj). apply Hend; [lia|done].
    + unfold content. simpl. rewrite Hd3, Hacc, take_take. f_equal. lia.
Qed.

(** C7, as stated, fails.  The write slot of [nearly_full_device] holds
    65000 unfinished bytes, so that neither of the two payloads fits behind
    them, and both payloads start with [FF D8]; yet neither is the content
    of the slot after the call.  The 62000 bytes of [long_soi_payload] are
    more than [MAX_JPEG_SIZE], and the safety check leaves the slot empty;
    of [short_leftover_payload] the slot keeps the 1000 bytes up to the end
    of the JPEG, and the bytes behind it go to the next slot. *)
Lemma overflow_soi_counterexample :
  frame_at nearly_full_device (write_frame nearly_full_device) = Some nearly_full_slot ∧
  ready nearly_full_slot = false ∧
  capacity nearly_full_slot < size nearly_full_slot + Z.of_nat (length long_soi_payload) ∧
  starts_with_soi long_soi_payload = true ∧
  (∃ dev' f',
     process_data ok_allocator nearly_full_device (packet [] long_soi_payload) =
       Some dev' ∧
     frame_at dev' (write_frame nearly_full_device) = Some f' ∧ content f' = []) ∧
  capacity nearly_full_slot <
    size nearly_full_slot + Z.of_nat (length short_leftover_payload) ∧
  starts_with_soi short_leftover_payload = true ∧
  (process_data ok_allocator nearly_full_device (packet [] short_leftover_payload) ≫=
     λ dev', content <$> frame_at dev' (write_frame nearly_full_device)) =
    Some small_jpeg ∧
  length small_jpeg ≠ length short_leftover_payload.
Proof.
  assert (Hring : ring_ok nearly_full_device).
  { apply (bool_decide_unpack _). vm_compute. exact I. }
  assert (Hpkt : Z.of_nat (length (packet [] long_soi_payload)) ≤ BUFFER_SIZE).
  { rewrite packet_length, Nat2Z.inj_add, long_soi_payload_length.
    unfold BUFFER_SIZE. lia. }
  split; [reflexivity|].
  split; [reflexivity|].
  split; [rewrite long_soi_payload_length; vm_compute; reflexivity|].
  split; [reflexivity|].
  split.
  { destruct (process_data_total ok_allocator nearly_full_device
                (packet [] long_soi_payload) Hring Hpkt)
      as (f & dev' & Hf & Hfok & Hpd & Hpath).
    rewrite nearly_full_write_slot in Hf. injection Hf as <-.
    destruct (overflow_restart _ _ _ _ _ Hring Hpkt nearly_full_write_slot Hfok Hpath)
      as (f' & Hf' & Hres).
    { apply packet_magic. }
    { rewrite packet_payload, long_soi_payload_length. vm_compute. reflexivity. }
    { rewrite packet_payload. reflexivity. }
    { reflexivity. }
    exists dev', f'. split; [exact Hpd|]. split; [exact Hf'|].
    rewrite packet_payload in Hres.
    destruct Hres as [(i & Hend & _)|(_ & _ & _ & Hct)].
    - exfalso. exact (long_soi_payload_no_end i Hend).
    - rewrite long_soi_payload_length in Hct. exact Hct. }
  split; [vm_compute; reflexivity|].
  split; [vm_compute; reflexivity|].
  split; [vm_compute; reflexivity|].
  vm_compute. discriminate.
Qed.



(** At the first input of the witness the payload of 1000 bytes does not
    start with [FF D8] and the slot is left empty; at the second the 600
    bytes of [jpeg_head] take the place of the 65000 bytes. *)
Example overflow_reset_example :
  match process_data ok_allocator nearly_full_device (packet [] (replicate 1000 1)) with
  | Some dev' =>
      write_frame dev' = 0 ∧
      (size <$> frame_at dev' 0) = Some 0 ∧ (ready <$> frame_at dev' 0) = Some false
  | None => False
  end.
Proof. vm_compute. split_and!; reflexivity. Qed.

Example overflow_restart_example :
  (process_data ok_allocator nearly_full_device (packet [] jpeg_head) ≫=
     λ dev', content <$> frame_at dev' 0) = Some jpeg_head.
Proof. vm_compute. reflexivity. Qed.

(** ** The capture thread *)

(** The next step of a computation in the [option] monad. *)
Ltac bind_step :=
  match goal with
  | |- mbind _ ?x = Some _ → _ => destruct x; simpl; [|by intros [=]]
  end.

(** [process_data] writes the ring and the counters only. *)
Lemma process_data_flags al dev pkt dev' :
  process_data al dev pkt = Some dev' →
  streaming dev' = streaming dev ∧ stop_event dev' = stop_event dev ∧
  read_thread dev' = read_thread dev.
Proof.
  unfold process_data. bind_step.
  destruct (has_magic pkt); [|by intros [= <-]].
  destruct (alloc_write_slot al _) as [f1|]; [|by intros [= <-]].
  destruct (HEADER_SIZE <? _); [|by intros [= <-]].
  destruct (capacity _ <? _); [bind_step; by intros [= <-]|].
  do 3 bind_step.
  match goal with |- match ?x with _ => _ end = _ → _ => destruct x end;
    [|by intros [= <-]].
  unfold complete_frame. do 3 bind_step.
  destruct (alloc_next_slot al _) as [[g1 nbuf]|].
  - bind_step. intros [= <-]. by case_match.
  - intros [= <-]. by case_match.
Qed.

(** The thread leaves the flags that it tests as they are, so it goes on
    until it is told to stop or a bulk read fails. *)
Lemma read_thread_proc_unfold reads dev :
  read_thread_proc reads dev =
  if negb (streaming dev) then Some (ThreadReturned, dev)
  else if stop_event dev then Some (ThreadReturned, dev)
  else
    match reads with
    | [] => Some (InReadPipe, dev)
    | (al, Fails error) :: reads' =>
        if read_timed_out error then read_thread_proc reads' dev
        else Some (ThreadReturned, dev)
    | (al, Succeeds bytes) :: reads' =>
        if BUFFER_SIZE <? Z.of_nat (length bytes) then None
        else if bool_decide (bytes = []) then read_thread_proc reads' dev
        else dev ← process_data al dev bytes; read_thread_proc reads' dev
    end.
Proof.
  destruct reads as [|[al [bytes|error]] reads']; simpl; try done.
  - destruct (negb (streaming dev)), (stop_event dev); try done.
    destruct (BUFFER_SIZE <? _); [done|].
    destruct bytes; [done|]. by rewrite bool_decide_eq_false_2.
  - unfold read_timed_out.
    destruct (negb (streaming dev)), (stop_event dev); try done.
    destruct (error =? ERROR_SEM_TIMEOUT) eqn:He; simpl; [done|].
    by destruct (error =? ERROR_TIMEOUT).
Qed.

Lemma feed_cons dev al pkt rest :
  fst <$> feed dev ((al, pkt) :: rest) =
  process_data al dev pkt ≫= λ dev', fst <$> feed dev' rest.
Proof.
  simpl. destruct (process_data al dev pkt) as [dev'|]; [|done]. simpl.
  by destruct (feed dev' rest) as [[? ?]|].
Qed.

(** X1.  The capture thread passes to [process_data] the bulk reads that
    transferred at least one byte, in their order, up to the first read that
    fails without timing out: on a streaming device whose stop event is not
    signalled it leaves the device that these calls leave, timeouts and
    empty transfers changing nothing, and it has returned exactly when such
    a failure occurred. *)
Theorem capture_thread_feeds_packets reads dev :
  streaming dev = true → stop_event dev = false → reads_fit reads →
  read_thread_proc reads dev =
    (λ r, (if read_failed reads then ThreadReturned else InReadPipe, r.1)) <$>
      feed dev (packets_read reads).
Proof.
  intros Hs He Hfit. revert dev Hs He.
  induction Hfit as [|[al [bytes|error]] reads Hr Hfit IH]; intros dev Hs He;
    rewrite read_thread_proc_unfold, Hs, He; simpl.
  - done.
  - simpl in Hr. destruct (Z.ltb_spec BUFFER_SIZE (Z.of_nat (length bytes))); [lia|].
    case_bool_decide; [by apply IH|].
    unfold read_failed. simpl. fold (read_failed reads).
    destruct (process_data al dev bytes) as [dev'|] eqn:Hpd; [|done]. simpl.
    destruct (process_data_flags _ _ _ _ Hpd) as (Hs' & He' & _).
    rewrite IH by congruence.
    by destruct (feed dev' (packets_read reads)) as [[? ?]|].
  - unfold read_failed. simpl. fold (read_failed reads).
    destruct (read_timed_out error); simpl; [by apply IH|done].
Qed.

Lemma capture_thread_feeds_packets_witness :
  read_thread_proc reads_with_error session_started =
    (λ r, (if read_failed reads_with_error then ThreadReturned else InReadPipe, r.1)) <$>
      feed session_started (packets_read reads_with_error).
Proof.
  apply capture_thread_feeds_packets; [reflexivity..|].
  apply (bool_decide_unpack _). vm_compute. exact I.
Defined.

(** X2.  The capture thread is memory safe and keeps the ring well formed:
    on a well-formed ring whose ready slots hold JPEGs, and for bulk reads
    that transfer at most [BUFFER_SIZE] bytes each, no call of
    [process_data] that the thread makes reaches outside a block or the
    ring, and the ring the thread leaves is well formed again, with a JPEG
    in every ready slot; the thread changes neither [streaming] nor the stop
    event. *)
Theorem capture_thread_safe reads dev :
  ring_ok dev → ready_frames_ok dev → reads_fit reads →
  ∃ st dev', read_thread_proc reads dev = Some (st, dev') ∧
    ring_ok dev' ∧ ready_frames_ok dev' ∧
    streaming dev' = streaming dev ∧ stop_event dev' = stop_event dev.
Proof.
  intros Hring Hready Hfit. revert dev Hring Hready.
  induction Hfit as [|[al [bytes|error]] reads Hr Hfit IH]; intros dev Hring Hready;
    rewrite read_thread_proc_unfold;
    (destruct (negb (streaming dev)); [by eexists _, _|]);
    (destruct (stop_event dev) eqn:He; [by eexists _, _|]).
  - by eexists _, _.
  - simpl in Hr. destruct (Z.ltb_spec BUFFER_SIZE (Z.of_nat (length bytes))); [lia|].
    case_bool_decide; [by rewrite <- He; apply IH|].
    destruct (process_data_total al dev bytes Hring Hr)
      as (f & dev1 & Hf & Hfok & Hpd & Hpath).
    rewrite Hpd. simpl.
    destruct (process_data_flags _ _ _ _ Hpd) as (Hs1 & He1 & _).
    destruct (IH dev1) as (st & dev' & -> & ? & ? & ? & ?).
    { by eapply process_data_path_ring_ok. }
    { eapply process_data_path_ready_ok; try done.
      unfold frame_at in Hf. destruct Hring as (_ & ? & _).
      by destruct (Z.leb_spec 0 (write_frame dev)); [|lia]. }
    eexists _, _. split; [done|]. split_and!; congruence.
  - destruct (read_timed_out error); [|by eexists _, _].
    rewrite <- He. by apply IH.
Qed.

Lemma capture_thread_safe_witness :
  ∃ st dev', read_thread_proc reads_with_error session_started = Some (st, dev') ∧
    ring_ok dev' ∧ ready_frames_ok dev' ∧
    streaming dev' = streaming session_started ∧
    stop_event dev' = stop_event session_started.
Proof.
  apply capture_thread_safe.
  - apply (bool_decide_unpack _). vm_compute. exact I.
  - apply (bool_decide_unpack _). vm_compute. exact I.
  - repeat constructor; by vm_compute.
Defined.

Lemma read_thread_proc_app pre rest dev dev1 :
  read_thread_proc pre dev = Some (InReadPipe, dev1) →
  streaming dev1 = true ∧ stop_event dev1 = false ∧
  read_thread_proc (pre ++ rest) dev = read_thread_proc rest dev1.
Proof.
  revert dev. induction pre as [|[al [bytes|error]] pre IH]; intros dev;
    rewrite (read_thread_proc_unfold (_ ++ _)), read_thread_proc_unfold;
    (destruct (streaming dev) eqn:Hs; simpl; [|by intros [=]]);
    (destruct (stop_event dev) eqn:He; simpl; [by intros [=]|]).
  - intros [= <-]. split_and!; try done.
    rewrite (read_thread_proc_unfold rest), Hs, He. done.
  - destruct (BUFFER_SIZE <? _); [by intros [=]|].
    case_bool_decide; [by apply IH|].
    destruct (process_data al dev bytes) as [dev2|]; simpl; [|by intros [=]].
    apply IH.
  - destruct (read_timed_out error); [by apply IH|by intros [=]].
Qed.

(** X3.  A bulk read that fails without timing out ends the capture for
    good: the thread returns at once, so the reads behind the failure are
    never processed, but it leaves [dev->streaming] set;
    [camera_is_streaming] goes on to answer true, and
    [camera_start_streaming] takes the device for streaming and returns
    [CAMERA_SUCCESS] without creating a thread, whatever the USB calls would
    give. *)
Theorem read_error_ends_capture pre al error rest dev dev1 :
  read_thread_proc pre dev = Some (InReadPipe, dev1) →
  read_timed_out error = false →
  read_thread_proc (pre ++ (al, Fails error) :: rest) dev = Some (ThreadReturned, dev1) ∧
  camera_is_streaming dev1 = true ∧
  ∀ env err, camera_start_streaming env dev1 err = (CAMERA_SUCCESS, dev1, err).
Proof.
  intros Hpre Herr.
  destruct (read_thread_proc_app pre ((al, Fails error) :: rest) dev dev1 Hpre)
    as (Hs & He & ->).
  rewrite read_thread_proc_unfold, Hs, He, Herr. simpl.
  split_and!; try done.
  intros env err. unfold camera_start_streaming. by rewrite Hs.
Qed.

Lemma read_error_ends_capture_witness :
  ∃ dev1,
    read_thread_proc (take 4 reads_with_error) session_started = Some (InReadPipe, dev1) ∧
    read_thread_proc reads_with_error session_started = Some (ThreadReturned, dev1) ∧
    camera_is_streaming dev1 = true ∧
    ∀ env err, camera_start_streaming env dev1 err = (CAMERA_SUCCESS, dev1, err).
Proof.
  assert (Hst : fst <$> read_thread_proc (take 4 reads_with_error) session_started =
                Some InReadPipe) by (vm_compute; reflexivity).
  destruct (read_thread_proc (take 4 reads_with_error) session_started)
    as [[st dev1]|] eqn:Hpre; [|discriminate].
  injection Hst as ->. exists dev1. split; [reflexivity|].
  apply (read_error_ends_capture (take 4 reads_with_error) ok_allocator 31
           (drop 5 reads_with_error) session_started dev1 Hpre).
  reflexivity.
Defined.

(** ** The ring as a queue *)

Lemma queue_index_write r w :
  0 ≤ r < MAX_FRAMES → 0 ≤ w < MAX_FRAMES →
  let q := (w - r) mod MAX_FRAMES in
  0 ≤ q < MAX_FRAMES ∧
  (∀ k, 0 ≤ k < MAX_FRAMES → (r + k) mod MAX_FRAMES = w ↔ k = q) ∧
  (∀ k, 0 ≤ k < MAX_FRAMES →
     (r + k) mod MAX_FRAMES = (w + 1) mod MAX_FRAMES ↔ k = (q + 1) mod MAX_FRAMES) ∧
  ((w + 1) mod MAX_FRAMES = r ↔ q = MAX_FRAMES - 1) ∧
  ((w + 1) mod MAX_FRAMES - r) mod MAX_FRAMES = (q + 1) mod MAX_FRAMES ∧
  ((w + 1) mod MAX_FRAMES - (r + 1) mod MAX_FRAMES) mod MAX_FRAMES = q ∧
  (w - (r + 1) mod MAX_FRAMES) mod MAX_FRAMES = (q - 1) mod MAX_FRAMES.
Proof.
  unfold MAX_FRAMES. intros Hr Hw. cbv zeta.
  split_and!; try intros k Hk; try split; intros; Z.div_mod_to_equations; lia.
Qed.

Lemma queue_index_shift r k :
  ((r + 1) mod MAX_FRAMES + k) mod MAX_FRAMES = (r + (1 + k)) mod MAX_FRAMES.
Proof. unfold MAX_FRAMES. Z.div_mod_to_equations. lia. Qed.

Lemma queue_slot_inj r j k :
  0 ≤ j < MAX_FRAMES → 0 ≤ k < MAX_FRAMES →
  (r + j) mod MAX_FRAMES = (r + k) mod MAX_FRAMES → j = k.
Proof. unfold MAX_FRAMES. intros. Z.div_mod_to_equations. lia. Qed.

Lemma queue_length_bounds dev : 0 ≤ queue_length dev < MAX_FRAMES.
Proof. unfold queue_length, MAX_FRAMES. apply Z.mod_pos_bound. lia. Qed.

Lemma queue_slot_bounds dev k : 0 ≤ queue_slot dev k < MAX_FRAMES.
Proof. unfold queue_slot, MAX_FRAMES. apply Z.mod_pos_bound. lia. Qed.

Lemma queue_ok_ready dev k :
  queue_ok dev → 0 ≤ k < MAX_FRAMES →
  ∃ f, frame_at dev (queue_slot dev k) = Some f ∧ frame_ok f ∧
       ready f = bool_decide (k < queue_length dev).
Proof.
  intros [Hring Hall] Hk.
  destruct (frame_at_ring_ok dev _ Hring (queue_slot_bounds dev k)) as (f & Hf & _ & Hfok).
  exists f. split_and!; [done..|].
  rewrite Forall_seqZ in Hall. specialize (Hall k). rewrite Hf in Hall. simpl in Hall.
  assert (Some (ready f) = Some (bool_decide (k < queue_length dev))) as [=] by (apply Hall; lia).
  done.
Qed.

Lemma queue_ok_intro dev :
  ring_ok dev →
  (∀ k, 0 ≤ k < MAX_FRAMES →
     ∃ f, frame_at dev (queue_slot dev k) = Some f ∧
          ready f = bool_decide (k < queue_length dev)) →
  queue_ok dev.
Proof.
  intros Hring Hall. split; [done|]. apply Forall_seqZ. intros k Hk.
  destruct (Hall k) as (f & -> & <-); [lia|done].
Qed.

(** The slot of a ring index, as a position from the read index on. *)
Lemma queue_slot_surj dev i :
  0 ≤ read_frame dev < MAX_FRAMES → 0 ≤ i < MAX_FRAMES →
  ∃ k, 0 ≤ k < MAX_FRAMES ∧ queue_slot dev k = i.
Proof.
  intros Hr Hi. exists ((i - read_frame dev) mod MAX_FRAMES).
  unfold queue_slot, MAX_FRAMES in *. split; Z.div_mod_to_equations; lia.
Qed.

(** In a ring that is a queue the slot at the write index is not ready, and
    the slot at the read index is ready unless the queue is empty. *)
Lemma queue_ok_write_slot dev :
  queue_ok dev →
  ∃ f, frame_at dev (write_frame dev) = Some f ∧ frame_ok f ∧ ready f = false.
Proof.
  intros Hq. pose proof Hq as [(_ & Hw & Hr & _) _].
  destruct (queue_index_write _ _ Hr Hw) as (Hqb & Hidx & _).
  destruct (queue_ok_ready dev (queue_length dev) Hq (queue_length_bounds dev))
    as (f & Hf & Hfok & Hrd).
  unfold queue_slot, queue_length in Hf. rewrite (proj2 (Hidx _ Hqb)) in Hf by done.
  exists f. split_and!; [done..|]. rewrite Hrd. apply bool_decide_eq_false_2. lia.
Qed.

Lemma queue_ok_read_slot dev :
  queue_ok dev →
  ∃ f, frame_at dev (read_frame dev) = Some f ∧ frame_ok f ∧
       ready f = bool_decide (0 < queue_length dev).
Proof.
  intros Hq. pose proof Hq as [(_ & Hw & Hr & _) _].
  destruct (queue_ok_ready dev 0 Hq) as (f & Hf & Hfok & Hrd); [unfold MAX_FRAMES; lia|].
  unfold queue_slot in Hf. rewrite Z.add_0_r, Z.mod_small in Hf by done.
  by exists f.
Qed.

Lemma queued_lookup dev i :
  queued dev !! i =
    if decide (Z.of_nat i < queue_length dev)
    then Some (slot_content dev (queue_slot dev (Z.of_nat i))) else None.
Proof.
  unfold queued. rewrite list_lookup_fmap.
  destruct (decide _).
  - by rewrite lookup_seqZ_lt.
  - by rewrite lookup_seqZ_ge by lia.
Qed.

Lemma length_queued dev : length (queued dev) = Z.to_nat (queue_length dev).
Proof. unfold queued. by rewrite length_fmap, length_seqZ. Qed.
Lemma newly_completed_same dev dev' :
  write_frame dev' = write_frame dev → newly_completed dev dev' = [].
Proof. intros Hw. unfold newly_completed. by rewrite Hw, Z.eqb_refl. Qed.

Lemma newly_completed_moved dev dev' fin :
  write_frame dev' ≠ write_frame dev → frame_at dev' (write_frame dev) = Some fin →
  newly_completed dev dev' = [content fin].
Proof.
  intros Hw Hf. unfold newly_completed.
  destruct (Z.eqb_spec (write_frame dev') (write_frame dev)); [done|]. by rewrite Hf.
Qed.

(** One [process_data] call on a ring that is a queue: it appends the frame
    it completes, if any, and drops the oldest frame when it completes one
    in a full ring. *)
Lemma process_data_queue al dev pkt :
  queue_ok dev → Z.of_nat (length pkt) ≤ BUFFER_SIZE →
  ∃ dev', process_data al dev pkt = Some dev' ∧ queue_ok dev' ∧
    streaming dev' = streaming dev ∧
    queued dev' =
      drop (if completes dev dev' && queue_full dev then 1 else 0) (queued dev) ++
      newly_completed dev dev' ∧
    length (newly_completed dev dev') = (if completes dev dev' then 1 else 0)%nat ∧
    frames_captured dev' =
      (if completes dev dev' then uint_incr (frames_captured dev)
       else frames_captured dev) ∧
    frames_dropped dev' =
      (if completes dev dev' && queue_full dev then uint_incr (frames_dropped dev)
       else frames_dropped dev).
Proof.
  intros Hq Hpkt. pose proof Hq as [Hring Hall].
  pose proof Hring as (Hlen & Hw & Hr & Hfr).
  destruct (queue_ok_write_slot dev Hq) as (f & Hf & Hfok & Hnr).
  destruct (queue_index_write _ _ Hr Hw) as (Hqb & Hiw & Hiw' & Hfull & Hq1 & Hq2 & _).
  fold (queue_length dev) in Hqb, Hiw, Hiw', Hfull, Hq1, Hq2.
  destruct (process_data_ring_step al dev pkt f Hring Hpkt Hf Hnr)
    as (dev' & Hpd & Hring' & Hs & [Hsame|Hdone]).
  - exists dev'. split; [done|].
    destruct Hsame as (Hw' & Hr' & Hc & Hd & Hother & (f' & Hf' & Hnr')).
    assert (Hql : queue_length dev' = queue_length dev)
      by (unfold queue_length; by rewrite Hw', Hr').
    assert (Hqs : ∀ k, queue_slot dev' k = queue_slot dev k)
      by (intros k; unfold queue_slot; by rewrite Hr').
    assert (Hcomp : completes dev dev' = false)
      by (unfold completes; by rewrite Hw', Z.eqb_refl).
    rewrite Hcomp, newly_completed_same by done. simpl. rewrite app_nil_r, ?drop_0.
    split_and!; try done.
    + apply queue_ok_intro; [done|]. intros k Hk. rewrite Hql, Hqs.
      destruct (queue_ok_ready dev k Hq Hk) as (g & Hg & _ & Hgr).
      destruct (decide (queue_slot dev k = write_frame dev)) as [Heq|Hne].
      * rewrite Heq in *. exists f'. split; [done|]. congruence.
      * exists g. rewrite Hother; [done|apply queue_slot_bounds|done].
    + apply list_eq. intros i. rewrite !queued_lookup, Hql, Hqs.
      destruct (decide _); [|done]. f_equal. unfold slot_content.
      rewrite Hother; [done|apply queue_slot_bounds|].
      unfold queue_slot. rewrite Hiw by lia. lia.
  - exists dev'. split; [done|].
    destruct Hdone as (fin & g0 & g & Hw' & Hc & Hfin & Hfinr & Hg0 & Hg & Hgr & Hother & Hdrop).
    destruct (next_index_bounds _ Hw) as (Hwb' & Hwne & Hwmod).
    destruct (next_index_bounds _ Hr) as (Hrb' & Hrne & Hrmod).
    rewrite Hwmod in *. rewrite Hrmod in *.
    assert (Hcomp : completes dev dev' = true).
    { unfold completes. rewrite Hw'.
      by destruct (Z.eqb_spec ((write_frame dev + 1) mod MAX_FRAMES) (write_frame dev)). }
    rewrite Hcomp, (newly_completed_moved dev dev' fin) by (by rewrite ?Hw'). simpl.
    assert (Hunch : ∀ k, 0 ≤ k < MAX_FRAMES → k ≠ queue_length dev →
              k ≠ (queue_length dev + 1) mod MAX_FRAMES →
              frame_at dev' (queue_slot dev k) = frame_at dev (queue_slot dev k)).
    { intros k Hk Hk1 Hk2. apply Hother; [apply queue_slot_bounds|..]; unfold queue_slot.
      - by rewrite Hiw.
      - by rewrite Hiw'. }
    unfold queue_full.
    destruct (Z.eqb_spec (queue_length dev) (MAX_FRAMES - 1)) as [Hfl|Hnf].
    + assert (Hwr : (write_frame dev + 1) mod MAX_FRAMES = read_frame dev) by (by apply Hfull).
      assert (Hg0r : ready g0 = true).
      { destruct (queue_ok_read_slot dev Hq) as (h & Hh & _ & Hhr).
        rewrite <- Hwr in Hh. assert (h = g0) as -> by congruence.
        rewrite Hhr. apply bool_decide_eq_true_2. unfold MAX_FRAMES in *. lia. }
      rewrite decide_True in Hdrop by done. destruct Hdrop as [Hr' Hd].
      assert (Hql : queue_length dev' = MAX_FRAMES - 1).
      { unfold queue_length. by rewrite Hw', Hr', Hq2. }
      assert (Hqs : ∀ k, queue_slot dev' k = queue_slot dev (1 + k)).
      { intros k. unfold queue_slot. rewrite Hr'. apply queue_index_shift. }
      assert (Hq1' : (queue_length dev + 1) mod MAX_FRAMES = 0) by (by rewrite Hfl).
      assert (Hlast : queue_slot dev (MAX_FRAMES - 1) = write_frame dev).
      { unfold queue_slot. apply Hiw; [unfold MAX_FRAMES; lia|done]. }
      assert (Hwrap : queue_slot dev (1 + (MAX_FRAMES - 1)) = (write_frame dev + 1) mod MAX_FRAMES).
      { rewrite Hwr. unfold queue_slot, MAX_FRAMES. clear -Hr. unfold MAX_FRAMES in Hr.
        Z.div_mod_to_equations. lia. }
      split_and!; try done.
      * apply queue_ok_intro; [done|]. intros k Hk. rewrite Hql, Hqs.
        destruct (decide (k = MAX_FRAMES - 1)) as [->|Hk11].
        { exists g. rewrite Hwrap. split; [done|]. rewrite Hgr. symmetry.
          apply bool_decide_eq_false_2. lia. }
        destruct (decide (k = MAX_FRAMES - 2)) as [->|Hk10].
        { exists fin. replace (1 + (MAX_FRAMES - 2)) with (MAX_FRAMES - 1) by lia.
          rewrite Hlast. split; [done|]. rewrite Hfinr. symmetry.
          apply bool_decide_eq_true_2. lia. }
        destruct (queue_ok_ready dev (1 + k) Hq) as (h & Hh & _ & Hhr); [lia|].
        exists h. rewrite Hunch by (unfold MAX_FRAMES in *; lia). split; [done|].
        rewrite Hhr. apply bool_decide_ext. lia.
      * apply list_eq. intros i. rewrite queued_lookup, Hql, Hqs.
        destruct (decide (Z.of_nat i < MAX_FRAMES - 2)) as [Hi|Hi].
        { rewrite decide_True by lia. rewrite lookup_app_l by (rewrite length_drop, length_queued; unfold MAX_FRAMES in *; lia).
          rewrite lookup_drop, queued_lookup, decide_True by lia.
          f_equal. unfold slot_content. rewrite Nat2Z.inj_add.
          by rewrite Hunch by (unfold MAX_FRAMES in *; lia). }
        destruct (decide (Z.of_nat i = MAX_FRAMES - 2)) as [Hi'|Hi'].
        { rewrite decide_True by lia.
          rewrite lookup_app_r by (rewrite length_drop, length_queued; unfold MAX_FRAMES in *; lia).
          rewrite length_drop, length_queued.
          replace (i - (Z.to_nat (queue_length dev) - 1))%nat with 0%nat by (unfold MAX_FRAMES in *; lia).
          simpl. f_equal. unfold slot_content.
          replace (1 + Z.of_nat i) with (MAX_FRAMES - 1) by lia. by rewrite Hlast, Hfin. }
        rewrite decide_False by lia. symmetry. apply lookup_ge_None_2.
        rewrite length_app, length_drop, length_queued. simpl. unfold MAX_FRAMES in *. lia.
    + assert (Hqlt : queue_length dev + 1 < MAX_FRAMES) by lia.
      rewrite decide_False in Hdrop by (intros [? _]; by apply Hnf, Hfull).
      destruct Hdrop as [Hr' Hd].
      assert (Hq1' : (queue_length dev + 1) mod MAX_FRAMES = queue_length dev + 1)
        by (apply Z.mod_small; lia).
      assert (Hql : queue_length dev' = queue_length dev + 1).
      { unfold queue_length at 1. by rewrite Hw', Hr', Hq1. }
      assert (Hqs : ∀ k, queue_slot dev' k = queue_slot dev k)
        by (intros k; unfold queue_slot; by rewrite Hr').
      assert (Hlast : queue_slot dev (queue_length dev) = write_frame dev).
      { unfold queue_slot. by apply Hiw. }
      assert (Hnext : queue_slot dev (queue_length dev + 1) = (write_frame dev + 1) mod MAX_FRAMES).
      { unfold queue_slot. apply Hiw'; [lia|done]. }
      rewrite drop_0. split_and!; try done.
      * apply queue_ok_intro; [done|]. intros k Hk. rewrite Hql, Hqs.
        destruct (decide (k = queue_length dev)) as [->|Hk1].
        { exists fin. rewrite Hlast. split; [done|]. rewrite Hfinr. symmetry.
          apply bool_decide_eq_true_2. lia. }
        destruct (decide (k = queue_length dev + 1)) as [->|Hk2].
        { exists g. rewrite Hnext. split; [done|]. rewrite Hgr. symmetry.
          apply bool_decide_eq_false_2. lia. }
        destruct (queue_ok_ready dev k Hq Hk) as (h & Hh & _ & Hhr).
        exists h. rewrite Hunch by lia. split; [done|].
        rewrite Hhr. apply bool_decide_ext. lia.
      * apply list_eq. intros i. rewrite queued_lookup, Hql, Hqs.
        destruct (decide (Z.of_nat i < queue_length dev)) as [Hi|Hi].
        { rewrite decide_True by lia. rewrite lookup_app_l by (rewrite length_queued; lia).
          rewrite queued_lookup, decide_True by lia.
          f_equal. unfold slot_content. by rewrite Hunch by lia. }
        destruct (decide (Z.of_nat i = queue_length dev)) as [Hi'|Hi'].
        { rewrite decide_True by lia.
          rewrite lookup_app_r by (rewrite length_queued; lia).
          rewrite length_queued.
          replace (i - Z.to_nat (queue_length dev))%nat with 0%nat by lia.
          simpl. f_equal. unfold slot_content. by rewrite Hi', Hlast, Hfin. }
        rewrite decide_False by lia. symmetry. apply lookup_ge_None_2.
        rewrite length_app, length_queued. simpl. lia.
Qed.

Lemma memcpy_front (dst src : list Z) n nb :
  memcpy dst 0 src n = Some nb →
  0 ≤ n ≤ Z.of_nat (length src) ∧ n ≤ Z.of_nat (length dst) ∧
  nb = take (Z.to_nat n) src ++ drop (Z.to_nat n) dst.
Proof.
  unfold memcpy, bytes_at.
  destruct ((0 <=? 0) && (0 <=? n) && (0 + n <=? Z.of_nat (length src))) eqn:Hsrc;
    [|done].
  destruct ((0 <=? 0) && (0 + n <=? Z.of_nat (length dst))) eqn:Hdst; [|done].
  zbool. intros [= <-]. rewrite drop_0, Z.add_0_l. simpl. split_and!; try lia. done.
Qed.

(** The head of the queue leaves with a successful read. *)
Lemma read_ready_queue dev f (buf : list Z) n err :
  queue_ok dev → frame_at dev (read_frame dev) = Some f → ready f = true →
  n ≤ Z.of_nat (length buf) →
  ∃ r, read_ready dev f buf n err = Returns r ∧ queue_ok (rr_dev r) ∧
    streaming (rr_dev r) = streaming dev ∧
    frames_captured (rr_dev r) = frames_captured dev ∧
    frames_dropped (rr_dev r) = frames_dropped dev ∧
    if decide (size f ≤ n)
    then rr_status r = CAMERA_SUCCESS ∧ rr_bytes_read r = size f ∧
         rr_buffer r = content f ++ drop (Z.to_nat (size f)) buf ∧
         rr_error r = err ∧
         queued dev = content f :: queued (rr_dev r)
    else rr_status r = CAMERA_ERROR_BUFFER_SMALL ∧ rr_bytes_read r = 0 ∧
         rr_buffer r = buf ∧ rr_dev r = dev.
Proof.
  intros Hq Hf Hrd Hn. pose proof Hq as [Hring Hall].
  pose proof Hring as (Hlen & Hw & Hr & Hfr).
  destruct (queue_ok_read_slot dev Hq) as (f' & Hf' & Hfok & Hrd').
  assert (f' = f) as -> by congruence. rewrite Hrd in Hrd'.
  symmetry in Hrd'. apply bool_decide_eq_true_1 in Hrd'.
  unfold read_ready.
  destruct (Z.ltb_spec n (size f)) as [Hsmall|Hbig].
  { eexists. split; [done|]. simpl. rewrite decide_False by lia. done. }
  destruct (decide (size f ≤ n)); [|lia].
  pose proof Hfok as Hfok'. unfold frame_ok in Hfok'. unfold content.
  destruct (data f) as [src|] eqn:Hd; [|destruct Hfok' as (_ & _ & ?); congruence].
  destruct Hfok' as (Hb & Hc & Hs).
  destruct (memcpy buf 0 src (size f)) as [nb|] eqn:Hm.
  2: { exfalso. revert Hm. unfold memcpy. rewrite bytes_at_Some by lia.
       destruct (Z.leb_spec (0 + size f) (Z.of_nat (length buf))); [done|lia]. }
  apply memcpy_front in Hm as (_ & _ & ->).
  eexists. split; [done|]. simpl.
  set (dev' := set_read_frame _ _).
  destruct (next_index_bounds _ Hr) as (Hrb' & Hrne & Hrmod).
  destruct (queue_index_write _ _ Hr Hw) as (Hqb & Hiw & _ & _ & _ & _ & Hq3).
  fold (queue_length dev) in Hqb, Hiw, Hq3.
  assert (Hr' : read_frame dev' = (read_frame dev + 1) mod MAX_FRAMES) by (by rewrite <- Hrmod).
  assert (Hw' : write_frame dev' = write_frame dev) by done.
  assert (Hql : queue_length dev' = queue_length dev - 1).
  { unfold queue_length at 1. rewrite Hw', Hr', Hq3. apply Z.mod_small. lia. }
  assert (Hqs : ∀ k, queue_slot dev' k = queue_slot dev (1 + k)).
  { intros k. unfold queue_slot. rewrite Hr'. apply queue_index_shift. }
  assert (Hat : ∀ i, 0 ≤ i → frame_at dev' i =
            if decide (read_frame dev = i) then Some (consumed f) else frame_at dev i).
  { intros i Hi. unfold dev'. rewrite <- (frame_at_store dev (read_frame dev) i) by lia. done. }
  assert (Hwrap : queue_slot dev (1 + (MAX_FRAMES - 1)) = read_frame dev).
  { unfold queue_slot, MAX_FRAMES. clear -Hr. unfold MAX_FRAMES in Hr.
    Z.div_mod_to_equations. lia. }
  assert (Hne : ∀ k, 0 ≤ k < MAX_FRAMES - 1 → read_frame dev ≠ queue_slot dev (1 + k)).
  { intros k Hk Heq. unfold queue_slot in Heq.
    assert (0 = 1 + k); [|lia].
    apply (queue_slot_inj (read_frame dev)); [lia..|].
    rewrite <- Heq, Z.add_0_r. by rewrite Z.mod_small. }
  assert (Hring' : ring_ok dev').
  { unfold ring_ok, dev'. simpl. rewrite length_insert. split_and!; try lia.
    by apply Forall_insert, frame_ok_consumed. }
  split_and!; try done.
  - apply queue_ok_intro; [done|]. intros k Hk. rewrite Hql, Hqs.
    rewrite Hat by apply queue_slot_bounds.
    destruct (decide (k = MAX_FRAMES - 1)) as [->|Hk11].
    { rewrite Hwrap, decide_True by done. eexists; split; [done|]. simpl.
      symmetry. apply bool_decide_eq_false_2. lia. }
    rewrite decide_False by (apply Hne; lia).
    destruct (queue_ok_ready dev (1 + k) Hq) as (h & Hh & _ & Hhr); [lia|].
    exists h. split; [done|]. rewrite Hhr. apply bool_decide_ext. lia.
  - apply list_eq. intros [|i].
    + rewrite queued_lookup, decide_True by lia. simpl. f_equal.
      unfold slot_content, queue_slot. rewrite Z.add_0_r, Z.mod_small by done.
      rewrite Hf. simpl. unfold content. by rewrite Hd.
    + simpl. rewrite !queued_lookup, Hql, Hqs.
      destruct (decide (Z.of_nat (S i) < queue_length dev)).
      * rewrite decide_True by lia. f_equal. unfold slot_content.
        rewrite Hat by apply queue_slot_bounds.
        rewrite decide_False by (apply Hne; lia).
        do 3 f_equal. lia.
      * by rewrite decide_False by lia.
Qed.

(** Any read on a ring that is a queue: it makes no access outside a
    block, and when it returns it has taken the head of the queue, if it
    succeeded, and has left the queue as it was, if it failed. *)
Lemma read_frame_loop_queue waits dev (buf : list Z) n t err :
  queue_ok dev → n ≤ Z.of_nat (length buf) →
  match read_frame_loop waits dev buf n t err with
  | Undefined => False
  | Blocks => queued dev = []
  | Returns r =>
      queue_ok (rr_dev r) ∧ streaming (rr_dev r) = streaming dev ∧
      frames_captured (rr_dev r) = frames_captured dev ∧
      frames_dropped (rr_dev r) = frames_dropped dev ∧
      if decide (rr_status r = CAMERA_SUCCESS)
      then queued dev = take (Z.to_nat (rr_bytes_read r)) (rr_buffer r) :: queued (rr_dev r)
      else queued (rr_dev r) = queued dev
  end.
Proof.
  intros Hq Hn. revert dev Hq.
  induction waits as [|wr waits IH]; intros dev Hq;
    rewrite read_frame_loop_unfold;
    destruct (queue_ok_read_slot dev Hq) as (f & Hf & Hfok & Hrd);
    rewrite Hf; destruct (ready f) eqn:Hrdy.
  1,3: destruct (read_ready_queue dev f buf n err Hq Hf Hrdy Hn)
         as (r & -> & Hq' & Hs & Hc & Hd & Hcase);
       split_and!; try done;
       destruct (decide (size f ≤ n));
         [destruct Hcase as (-> & -> & -> & _ & ->); rewrite decide_True by done;
          rewrite <- (content_length f Hfok), Nat2Z.id, take_app_length; done
         |destruct Hcase as (-> & _ & _ & ->); by rewrite decide_False].
  - symmetry in Hrd. apply bool_decide_eq_false_1 in Hrd.
    apply length_zero_iff_nil. rewrite length_queued.
    pose proof (queue_length_bounds dev). lia.
  - assert (Hempty : queued dev = []).
    { symmetry in Hrd. apply bool_decide_eq_false_1 in Hrd.
      apply length_zero_iff_nil. rewrite length_queued.
      pose proof (queue_length_bounds dev). lia. }
    destruct wr.
    + specialize (IH (set_frame_ready_event dev false) Hq).
      destruct (read_frame_loop waits _ buf n t err) as [r| |]; done.
    + destruct (t =? 0); [done|]. simpl. split_and!; try done.
    + simpl. split_and!; try done.
Qed.

Lemma camera_read_frame_queue waits dev (buf : list Z) n k t err :
  queue_ok dev → n ≤ Z.of_nat (length buf) →
  match camera_read_frame waits dev (Some buf) n (Some k) t err with
  | Undefined => False
  | Blocks => queued dev = []
  | Returns r =>
      queue_ok (rr_dev r) ∧ streaming (rr_dev r) = streaming dev ∧
      frames_captured (rr_dev r) = frames_captured dev ∧
      frames_dropped (rr_dev r) = frames_dropped dev ∧
      queued dev = delivered_by r ++ queued (rr_dev r)
  end.
Proof.
  intros Hq Hn. unfold camera_read_frame.
  destruct (streaming dev) eqn:Hs; simpl; [|done].
  pose proof (read_frame_loop_queue waits dev buf n t err Hq Hn) as H.
  destruct (read_frame_loop waits dev buf n t err) as [r| |]; [|done..].
  destruct H as (? & ? & ? & ? & Hcase). split_and!; try congruence.
  unfold delivered_by. destruct (decide (rr_status r = CAMERA_SUCCESS)) as [->|Hne].
  - done.
  - destruct (Z.eqb_spec (rr_status r) CAMERA_SUCCESS); [done|]. by rewrite Hcase.
Qed.

Lemma uint_incr_plus x n : (uint_incr x + n) mod 2 ^ 32 = (x + (1 + n)) mod 2 ^ 32.
Proof. unfold uint_incr. Z.div_mod_to_equations. lia. Qed.

(** X4.  Seen through its ready slots the ring is a queue of at most
    [MAX_FRAMES - 1] frames, and [process_data] is its producer: on such a
    ring, for a packet that fits the read buffer, the call returns a ring of
    the same kind whose queue is the old one followed by the frame that the
    call completed, if it completed one; the oldest frame is dropped, and
    [frames_dropped] incremented, exactly when a frame is completed while
    the queue holds [MAX_FRAMES - 1] frames; [frames_captured] is
    incremented exactly when a frame is completed. *)
Theorem capture_appends_drops_oldest al dev pkt :
  queue_ok dev → Z.of_nat (length pkt) ≤ BUFFER_SIZE →
  ∃ dev', process_data al dev pkt = Some dev' ∧ queue_ok dev' ∧
    queued dev' =
      drop (if completes dev dev' && queue_full dev then 1 else 0) (queued dev) ++
      newly_completed dev dev' ∧
    length (newly_completed dev dev') = (if completes dev dev' then 1 else 0)%nat ∧
    frames_captured dev' =
      (if completes dev dev' then uint_incr (frames_captured dev)
       else frames_captured dev) ∧
    frames_dropped dev' =
      (if completes dev dev' && queue_full dev then uint_incr (frames_dropped dev)
       else frames_dropped dev).
Proof.
  intros Hq Hpkt.
  destruct (process_data_queue al dev pkt Hq Hpkt) as (dev' & ? & ? & _ & ?).
  by exists dev'.
Qed.

Lemma capture_appends_drops_oldest_witness :
  ∃ dev', process_data ok_allocator one_frame_device (packet [] small_jpeg) = Some dev' ∧
    queue_ok dev' ∧
    queued dev' =
      drop (if completes one_frame_device dev' && queue_full one_frame_device
            then 1 else 0) (queued one_frame_device) ++
      newly_completed one_frame_device dev' ∧
    length (newly_completed one_frame_device dev') =
      (if completes one_frame_device dev' then 1 else 0)%nat ∧
    frames_captured dev' =
      (if completes one_frame_device dev'
       then uint_incr (frames_captured one_frame_device)
       else frames_captured one_frame_device) ∧
    frames_dropped dev' =
      (if completes one_frame_device dev' && queue_full one_frame_device
       then uint_incr (frames_dropped one_frame_device)
       else frames_dropped one_frame_device).
Proof.
  apply capture_appends_drops_oldest.
  - apply (bool_decide_unpack _). vm_compute. exact I.
  - vm_compute. discriminate.
Defined.

(** X5.  [camera_read_frame] is the consumer of the queue: on a streaming
    device whose queue is not empty, with a buffer that holds the oldest
    frame, the call returns [CAMERA_SUCCESS] without waiting, whatever the
    waits would give; it copies the oldest frame to the front of the buffer
    and leaves the rest of the buffer as it is, sets [*bytes_read] to the
    length of the frame, leaves [last_error] alone, and leaves the other
    frames queued in their order. *)
Theorem read_takes_oldest waits dev (buf : list Z) n k t err J rest :
  queue_ok dev → streaming dev = true → queued dev = J :: rest →
  Z.of_nat (length J) ≤ n → n ≤ Z.of_nat (length buf) →
  ∃ r, camera_read_frame waits dev (Some buf) n (Some k) t err = Returns r ∧
    rr_status r = CAMERA_SUCCESS ∧
    rr_bytes_read r = Z.of_nat (length J) ∧
    rr_buffer r = J ++ drop (length J) buf ∧
    rr_error r = err ∧
    queue_ok (rr_dev r) ∧ queued (rr_dev r) = rest.
Proof.
  intros Hq Hs HJ Hfit Hn. unfold camera_read_frame. rewrite Hs. simpl.
  rewrite read_frame_loop_unfold.
  destruct (queue_ok_read_slot dev Hq) as (f & Hf & Hfok & Hrd). rewrite Hf.
  assert (Hlen : (0 < length (queued dev))%nat) by (rewrite HJ; simpl; lia).
  rewrite length_queued in Hlen.
  rewrite bool_decide_eq_true_2 in Hrd by lia. rewrite Hrd.
  destruct (read_ready_queue dev f buf n err Hq Hf Hrd Hn)
    as (r & -> & Hq' & _ & _ & _ & Hcase).
  assert (HJf : J = content f).
  { assert (Hhead : queued dev !! 0%nat = Some J) by (by rewrite HJ).
    rewrite queued_lookup, decide_True in Hhead by lia.
    injection Hhead as <-. unfold slot_content, queue_slot.
    destruct Hq as [(_ & _ & Hr & _) _].
    rewrite Z.add_0_r, Z.mod_small by done. by rewrite Hf. }
  pose proof (content_length f Hfok) as Hcl. rewrite <- HJf in Hcl.
  exists r. split; [done|].
  destruct (decide (size f ≤ n)); [|lia].
  destruct Hcase as (? & ? & ? & ? & Hqueue).
  rewrite HJ, <- HJf in Hqueue. injection Hqueue as <-.
  split_and!; try done; try congruence.
  rewrite HJf at 1. replace (length J) with (Z.to_nat (size f)) by lia. done.
Qed.

Lemma read_takes_oldest_witness :
  ∃ r, camera_read_frame [WAIT_TIMEOUT] one_frame_device (Some (replicate 1500 7))
         1500 (Some 0) 100 "" = Returns r ∧
    rr_status r = CAMERA_SUCCESS ∧
    rr_bytes_read r = Z.of_nat (length small_jpeg) ∧
    rr_buffer r = small_jpeg ++ drop (length small_jpeg) (replicate 1500 7) ∧
    rr_error r = "" ∧
    queue_ok (rr_dev r) ∧ queued (rr_dev r) = [].
Proof.
  apply read_takes_oldest.
  - apply (bool_decide_unpack _). vm_compute. exact I.
  - reflexivity.
  - vm_compute. reflexivity.
  - vm_compute. discriminate.
  - vm_compute. discriminate.
Defined.

Lemma uint_incr_bounds x : 0 ≤ uint_incr x < 2 ^ 32.
Proof. unfold uint_incr. apply Z.mod_pos_bound. lia. Qed.

Lemma counter_step x y n m :
  y = (x + n) mod 2 ^ 32 → (y + m) mod 2 ^ 32 = (x + (n + m)) mod 2 ^ 32.
Proof. intros ->. Z.div_mod_to_equations. lia. Qed.

(** Equal numbers have equal remainders. *)
Ltac mod_eq :=
  match goal with
  | |- ?a mod ?m = ?b mod ?m => replace a with b by lia; reflexivity
  end.

(** X6.  Frames reach the consumer in the order of their capture.  In any
    session that interleaves [process_data] calls of the capture thread with
    [camera_read_frame] calls of a consumer, on a ring that is a queue, no
    call reaches outside a block, provided the packets fit the read buffer
    and the consumer's buffers have the size it passes.  When the session
    returns, the frames delivered, followed by the frames still queued, are
    a subsequence of the frames that were queued at the start followed by
    the frames completed since: no frame is delivered twice or out of
    order, and none is made up.  [frames_captured] has counted the
    completed frames and [frames_dropped] exactly the frames that are
    neither delivered nor still queued (both modulo 2^32). *)
Theorem frames_read_in_capture_order ops dev err :
  queue_ok dev → ops_fit ops →
  0 ≤ frames_captured dev < 2 ^ 32 → 0 ≤ frames_dropped dev < 2 ^ 32 →
  match run_ops ops dev err with
  | Undefined => False
  | Blocks => True
  | Returns (d, completed, delivered) =>
      queue_ok d ∧
      delivered ++ queued d `sublist_of` queued dev ++ completed ∧
      frames_captured d =
        (frames_captured dev + Z.of_nat (length completed)) mod 2 ^ 32 ∧
      frames_dropped d =
        (frames_dropped dev +
         (Z.of_nat (length (queued dev)) + Z.of_nat (length completed) -
          Z.of_nat (length delivered) - Z.of_nat (length (queued d)))) mod 2 ^ 32
  end.
Proof.
  intros Hq Hfit. revert dev err Hq.
  induction Hfit as [|op ops Hop Hfit IH]; intros dev err Hq Hc Hd.
  { simpl. split_and!; try done.
    - by rewrite app_nil_r.
    - rewrite Z.add_0_r, Z.mod_small; done.
    - rewrite Z.mod_small; lia. }
  destruct op as [al bytes|waits buf n t]; cbn [run_ops].
  - destruct (process_data_queue al dev bytes Hq Hop)
      as (dev1 & -> & Hq1 & _ & Hqueue & Hlen & Hc1 & Hd1).
    specialize (IH dev1 err Hq1).
    destruct (run_ops ops dev1 err) as [[[d completed] delivered]| |]; [|done|].
    2: { apply IH.
         - destruct (completes dev dev1); rewrite Hc1; [apply uint_incr_bounds|done].
         - destruct (completes dev dev1 && queue_full dev); rewrite Hd1;
             [apply uint_incr_bounds|done]. }
    destruct IH as (Hqd & Hsub & Hcd & Hdd).
    { destruct (completes dev dev1); rewrite Hc1; [apply uint_incr_bounds|done]. }
    { destruct (completes dev dev1 && queue_full dev); rewrite Hd1;
        [apply uint_incr_bounds|done]. }
    split; [done|]. rewrite Hqueue in Hsub, Hdd.
    split_and!.
    + etrans; [exact Hsub|]. rewrite <- !app_assoc. apply sublist_app; [|done].
      apply sublist_drop.
    + rewrite Hcd, length_app, Hlen, Hc1.
      destruct (completes dev dev1).
      * rewrite uint_incr_plus. mod_eq.
      * mod_eq.
    + rewrite Hdd, !length_app, length_drop, Hlen, Hd1.
      assert (Hfull : queue_full dev = true → (1 ≤ length (queued dev))%nat).
      { unfold queue_full, MAX_FRAMES. intros Hf. apply Z.eqb_eq in Hf.
        rewrite length_queued. lia. }
      destruct (completes dev dev1); simpl.
      * destruct (queue_full dev); [specialize (Hfull eq_refl)|];
          rewrite ?uint_incr_plus; mod_eq.
      * mod_eq.
  - pose proof (camera_read_frame_queue waits dev buf n 0 t err Hq Hop) as Hread.
    destruct (camera_read_frame waits dev (Some buf) n (Some 0) t err) as [r| |];
      [|done..].
    destruct Hread as (Hq1 & _ & Hc1 & Hd1 & Hqueue).
    specialize (IH (rr_dev r) (rr_error r) Hq1).
    rewrite Hc1, Hd1 in IH. specialize (IH Hc Hd).
    destruct (run_ops ops (rr_dev r) (rr_error r)) as [[[d completed] delivered]| |];
      [|done..].
    destruct IH as (Hqd & Hsub & Hcd & Hdd).
    split; [done|]. rewrite Hqueue.
    split_and!.
    + rewrite <- !app_assoc. by apply sublist_app.
    + done.
    + rewrite Hdd, !length_app. mod_eq.
Qed.

Lemma frames_read_in_capture_order_witness :
  match run_ops busy_session session_started "" with
  | Undefined => False
  | Blocks => True
  | Returns (d, completed, delivered) =>
      queue_ok d ∧
      delivered ++ queued d `sublist_of` queued session_started ++ completed ∧
      frames_captured d =
        (frames_captured session_started + Z.of_nat (length completed)) mod 2 ^ 32 ∧
      frames_dropped d =
        (frames_dropped session_started +
         (Z.of_nat (length (queued session_started)) + Z.of_nat (length completed) -
          Z.of_nat (length delivered) - Z.of_nat (length (queued d)))) mod 2 ^ 32
  end.
Proof.
  apply frames_read_in_capture_order.
  - apply (bool_decide_unpack _). vm_compute. exact I.
  - apply (bool_decide_unpack _). vm_compute. exact I.
  - vm_compute. split; [discriminate|reflexivity].
  - vm_compute. split; [discriminate|reflexivity].
Defined.

(** In that session fifteen frames are completed; the first two are
    dropped when the twelfth and the thirteenth arrive, the third and the
    fourth are read, and the last eleven are queued at the end. *)
Example busy_session_outcome :
  match run_ops busy_session session_started "" with
  | Returns (d, completed, delivered) =>
      completed = numbered_jpeg <$> seqZ 1 15 ∧
      delivered = [numbered_jpeg 3; numbered_jpeg 4] ∧
      queued d = numbered_jpeg <$> seqZ 5 11 ∧
      camera_get_stats d = (CAMERA_SUCCESS, 15, 2)
  | _ => False
  end.
Proof. vm_compute. split_and!; reflexivity. Qed.

(** ** Reads that fail, and the buffer that never fails *)

Lemma read_frame_loop_failure waits dev (buf : list Z) n t err r :
  read_frame_loop waits dev buf n t err = Returns r →
  rr_status r ≠ CAMERA_SUCCESS →
  rr_status r ∈ read_failures ∧ rr_bytes_read r = 0 ∧ rr_buffer r = buf ∧
  rr_error r ≠ "" ∧
  (rr_dev r = dev ∨ rr_dev r = set_frame_ready_event dev false).
Proof.
  assert (Hev : ∀ d d', d' = set_frame_ready_event d false ∨
                        d' = set_frame_ready_event (set_frame_ready_event d false) false →
                        d' = d ∨ d' = set_frame_ready_event d false).
  { intros d d' [->| ->]; by right. }
  revert dev. induction waits as [|wr waits IH]; intros dev;
    rewrite read_frame_loop_unfold;
    (destruct (frame_at dev (read_frame dev)) as [f|]; [|done]);
    unfold read_ready;
    (destruct (ready f);
       [destruct (n <? size f);
          [intros [= <-] _; simpl; split_and!; try done;
           [by repeat constructor|by left]|];
        destruct (data f) as [src|]; [|done];
        destruct (memcpy buf 0 src (size f)); [|done];
        by intros [= <-] []|]);
    [done|].
  destruct wr.
  - intros Hloop Hst. destruct (IH _ Hloop Hst) as (? & ? & ? & ? & Hdev).
    split_and!; try done. apply Hev. by destruct Hdev as [->| ->]; [left|right].
  - destruct (t =? 0); [done|]. intros [= <-] _. simpl. split_and!; try done.
    + by repeat constructor.
    + by left.
  - intros [= <-] _. simpl. split_and!; try done.
    + by repeat constructor.
    + by left.
Qed.

(** X7.  A read that fails consumes nothing.  When [camera_read_frame],
    called with a buffer and a place for the length, returns another status
    than [CAMERA_SUCCESS], the status is one of [CAMERA_ERROR_NO_FRAME],
    [CAMERA_ERROR_BUFFER_SMALL], [CAMERA_ERROR_TIMEOUT] and
    [CAMERA_ERROR_USB_FAILED], [*bytes_read] is 0, the buffer is as it was,
    [last_error] holds a message, and the device is as it was but for the
    frame-ready event, which the waits of the call may have reset: every
    slot, both indices and both counters are unchanged. *)
Theorem read_failure_consumes_nothing waits dev (buf : list Z) n k t err r :
  camera_read_frame waits dev (Some buf) n (Some k) t err = Returns r →
  rr_status r ≠ CAMERA_SUCCESS →
  rr_status r ∈ read_failures ∧ rr_bytes_read r = 0 ∧ rr_buffer r = buf ∧
  rr_error r ≠ "" ∧
  (rr_dev r = dev ∨ rr_dev r = set_frame_ready_event dev false).
Proof.
  unfold camera_read_frame. destruct (streaming dev); simpl.
  - apply read_frame_loop_failure.
  - intros [= <-] _. simpl. split_and!; try done; [by repeat constructor|by left].
Qed.

Lemma read_failure_consumes_nothing_witness :
  ∃ r, camera_read_frame [WAIT_OBJECT_0; WAIT_TIMEOUT] session_started
         (Some (replicate 10 7)) 10 (Some 5) 100 "" = Returns r ∧
    rr_status r ∈ read_failures ∧ rr_bytes_read r = 0 ∧
    rr_buffer r = replicate 10 7 ∧ rr_error r ≠ "" ∧
    (rr_dev r = session_started ∨
     rr_dev r = set_frame_ready_event session_started false).
Proof.
  eexists. split; [reflexivity|].
  apply (read_failure_consumes_nothing [WAIT_OBJECT_0; WAIT_TIMEOUT] session_started
           (replicate 10 7) 10 5 100 "").
  - reflexivity.
  - vm_compute. discriminate.
Defined.

(** X8.  A buffer of [BUFFER_SIZE] bytes is enough for every frame: on a
    well-formed ring, [camera_read_frame] with a buffer of at least
    [BUFFER_SIZE] bytes makes no access outside a block and never returns
    [CAMERA_ERROR_BUFFER_SMALL]. *)
Theorem full_size_buffer_suffices waits dev (buf : list Z) n k t err :
  ring_ok dev → BUFFER_SIZE ≤ n → n ≤ Z.of_nat (length buf) →
  match camera_read_frame waits dev (Some buf) n (Some k) t err with
  | Undefined => False
  | Blocks => True
  | Returns r => rr_status r ≠ CAMERA_ERROR_BUFFER_SMALL
  end.
Proof.
  intros Hring Hn Hbuf. unfold camera_read_frame.
  destruct (streaming dev); simpl; [|done].
  revert dev Hring. induction waits as [|wr waits IH]; intros dev Hring;
    pose proof Hring as (Hlen & Hw & Hr & Hall);
    destruct (frame_at_ring_ok dev _ Hring Hr) as (f & Hat & Hfl & Hfok);
    destruct (ready f) eqn:Hrd.
  1,3: assert (Hsz : size f ≤ n)
         by (unfold frame_ok, BUFFER_SIZE in *; destruct (data f); lia);
       match goal with
       | |- match read_frame_loop ?ws _ _ _ _ _ with _ => _ end =>
           destruct (read_frame_loop_ready ws dev f buf n t err Hring Hfl Hrd Hsz Hbuf)
             as (nb & -> & _)
       end; done.
  - rewrite read_frame_loop_unfold, Hat, Hrd. done.
  - rewrite read_frame_loop_unfold, Hat, Hrd. destruct wr.
    + by apply IH.
    + by destruct (t =? 0).
    + done.
Qed.

Lemma full_size_buffer_suffices_witness :
  match camera_read_frame [] one_frame_device (Some (replicate (Z.to_nat BUFFER_SIZE) 0))
          BUFFER_SIZE (Some 0) 100 "" with
  | Undefined => False
  | Blocks => True
  | Returns r => rr_status r ≠ CAMERA_ERROR_BUFFER_SMALL
  end.
Proof.
  apply full_size_buffer_suffices.
  - apply (bool_decide_unpack _). vm_compute. exact I.
  - reflexivity.
  - vm_compute. discriminate.
Defined.

(** ** Stopping the stream *)

(** X9.  [camera_stop_streaming] discards the frames that were not read.
    On a streaming device with a well-formed ring it returns with
    [streaming] cleared, every slot empty and not ready and both indices
    zero, so that the queue is empty; the blocks of the slots stay
    allocated, and the two counters are as before: the discarded frames are
    not counted as dropped.  Afterwards the capture thread returns without
    another bulk read, [camera_read_frame] fails with
    [CAMERA_ERROR_NO_FRAME] without waiting, and a second
    [camera_stop_streaming] changes nothing. *)
Theorem stop_discards_queue dev :
  ring_ok dev → streaming dev = true →
  ∃ dev', camera_stop_streaming dev = Some dev' ∧
    camera_is_streaming dev' = false ∧
    queue_ok dev' ∧ queued dev' = [] ∧
    read_frame dev' = 0 ∧ write_frame dev' = 0 ∧
    Forall (λ f, size f = 0 ∧ ready f = false) (frames dev') ∧
    data <$> frames dev' = data <$> frames dev ∧
    camera_get_stats dev' = camera_get_stats dev ∧
    camera_stop_streaming dev' = Some dev' ∧
    (∀ reads, read_thread_proc reads dev' = Some (ThreadReturned, dev')) ∧
    (∀ waits buf n k t err,
       camera_read_frame waits dev' (Some buf) n (Some k) t err =
         Returns (mk_read_result CAMERA_ERROR_NO_FRAME dev' buf 0
                    "Camera is not streaming")).
Proof.
  intros Hring Hs.
  destruct (camera_stop_streaming_spec dev Hring Hs)
    as (dev' & Hstop & Hs' & Hr' & Hw' & _ & Hc & Hd & Hfs).
  destruct (ring_ok_stopped dev dev' Hring Hfs Hr' Hw') as [Hring' _].
  assert (Hql : queue_length dev' = 0) by (unfold queue_length; by rewrite Hr', Hw').
  assert (Hclr : Forall (λ f, size f = 0 ∧ ready f = false) (frames dev')).
  { rewrite Hfs. apply Forall_fmap, Forall_forall. by intros f _. }
  exists dev'. split_and!; try done.
  - apply queue_ok_intro; [done|]. intros k Hk.
    destruct (frame_at_ring_ok dev' _ Hring' (queue_slot_bounds dev' k))
      as (f & Hf & Hfl & _).
    exists f. split; [done|]. rewrite Hql.
    rewrite bool_decide_eq_false_2 by lia.
    by destruct (Forall_lookup_1 _ _ _ _ Hclr Hfl).
  - unfold queued. by rewrite Hql.
  - rewrite Hfs, <- list_fmap_compose. by apply list_fmap_ext.
  - unfold camera_get_stats. by rewrite Hc, Hd.
  - unfold camera_stop_streaming. by rewrite Hs'.
  - intros reads. rewrite read_thread_proc_unfold. by rewrite Hs'.
  - intros waits buf n k t err. unfold camera_read_frame. by rewrite Hs'.
Qed.

Lemma stop_discards_queue_witness :
  ∃ dev', camera_stop_streaming one_frame_device = Some dev' ∧
    camera_is_streaming dev' = false ∧
    queue_ok dev' ∧ queued dev' = [] ∧
    read_frame dev' = 0 ∧ write_frame dev' = 0 ∧
    Forall (λ f, size f = 0 ∧ ready f = false) (frames dev') ∧
    data <$> frames dev' = data <$> frames one_frame_device ∧
    camera_get_stats dev' = camera_get_stats one_frame_device ∧
    camera_stop_streaming dev' = Some dev' ∧
    (∀ reads, read_thread_proc reads dev' = Some (ThreadReturned, dev')) ∧
    (∀ waits buf n k t err,
       camera_read_frame waits dev' (Some buf) n (Some k) t err =
         Returns (mk_read_result CAMERA_ERROR_NO_FRAME dev' buf 0
                    "Camera is not streaming")).
Proof.
  apply stop_discards_queue.
  - apply (bool_decide_unpack _). vm_compute. exact I.
  - reflexivity.
Defined.

(** ** Every device that can be reached is well formed *)

Lemma queue_ok_same_ring dev dev' :
  frames dev' = frames dev → read_frame dev' = read_frame dev →
  write_frame dev' = write_frame dev → queue_ok dev → queue_ok dev'.
Proof.
  intros Hf Hr Hw [(Hlen & ? & ? & ?) Hall]. split.
  - unfold ring_ok. by rewrite Hf, Hr, Hw.
  - eapply Forall_impl; [exact Hall|]. intros k Hk. simpl in *.
    unfold queue_slot, queue_length, frame_at in *. by rewrite Hf, Hr, Hw.
Qed.

Lemma device_ok_opened : device_ok opened_device.
Proof.
  unfold device_ok. split_and!; try done.
  - apply (bool_decide_unpack _). vm_compute. exact I.
  - apply (bool_decide_unpack _). vm_compute. exact I.
Qed.

Lemma device_ok_start env dev err :
  device_ok dev → device_ok (camera_start_streaming env dev err).1.2.
Proof.
  intros (Hq & Hrd & Hc & Hd & Ht). unfold camera_start_streaming.
  assert (Hok : device_ok dev) by done.
  destruct (streaming dev) eqn:Hs; [done|].
  destruct (set_alternate_setting env); [|done].
  unfold send_command. destruct (write_pipe env) as [sent|]; [|done].
  destruct (sent =? CONNECT_CMD_SIZE); simpl; [|done].
  destruct (create_thread env); unfold device_ok; simpl; split_and!;
    try done; try lia; by apply (queue_ok_same_ring dev).
Qed.

Lemma device_ok_stop dev :
  device_ok dev → ∃ dev', camera_stop_streaming dev = Some dev' ∧ device_ok dev'.
Proof.
  intros Hok. pose proof Hok as (Hq & Hrd & Hc & Hd & Ht). pose proof Hq as [Hring _].
  destruct (streaming dev) eqn:Hs.
  2: { exists dev. unfold camera_stop_streaming. rewrite Hs. done. }
  pose proof (camera_stop_streaming_spec dev Hring Hs)
    as (dev' & Hstop & Hs' & Hr' & Hw' & _ & Hc' & Hd' & Hfs).
  destruct (ring_ok_stopped dev dev' Hring Hfs Hr' Hw') as [Hring' Hrd'].
  exists dev'. split; [done|]. unfold device_ok. rewrite Hc', Hd', Hs'.
  split_and!; try done; try lia.
  - assert (Hql : queue_length dev' = 0) by (unfold queue_length; by rewrite Hr', Hw').
    apply queue_ok_intro; [done|]. intros k Hk.
    destruct (frame_at_ring_ok dev' _ Hring' (queue_slot_bounds dev' k))
      as (f & Hf & Hfl & _).
    exists f. split; [done|]. rewrite Hql, bool_decide_eq_false_2 by lia.
    rewrite Hfs, list_lookup_fmap in Hfl.
    destruct (frames dev !! _); [|done]. by injection Hfl as <-.
  - revert Hstop. unfold camera_stop_streaming. rewrite Hs. cbn [negb].
    destruct (clear_frames_spec (Z.to_nat MAX_FRAMES) 0
                (set_read_thread (set_stop_event (set_streaming dev false) true) false))
      as (d & -> & _ & Hth & _); [done|destruct Hring as [? _]; simpl; lia|].
    simpl. intros [= <-]. simpl. by rewrite Hth.
Qed.

Lemma device_ok_process_data al dev pkt :
  device_ok dev → Z.of_nat (length pkt) ≤ BUFFER_SIZE →
  ∃ dev', process_data al dev pkt = Some dev' ∧ device_ok dev'.
Proof.
  intros (Hq & Hrd & Hc & Hd & Ht) Hpkt. pose proof Hq as [Hring _].
  destruct (process_data_queue al dev pkt Hq Hpkt)
    as (dev' & Hpd & Hq' & Hs' & _ & _ & Hc' & Hd').
  destruct (process_data_total al dev pkt Hring Hpkt)
    as (f & dev'' & Hf & Hfok & Hpd' & Hpath).
  assert (dev'' = dev') as -> by congruence.
  destruct (process_data_flags _ _ _ _ Hpd) as (_ & _ & Ht').
  exists dev'. split; [done|]. unfold device_ok.
  split; [done|]. split; [|split; [|split; [|congruence]]].
  - eapply process_data_path_ready_ok; try done.
    unfold frame_at in Hf. destruct Hring as (_ & ? & _).
    by destruct (Z.leb_spec 0 (write_frame dev)); [|lia].
  - rewrite Hc'. destruct (completes dev dev'); [apply uint_incr_bounds|done].
  - rewrite Hd'. destruct (completes dev dev' && queue_full dev);
      [apply uint_incr_bounds|done].
Qed.

Lemma device_ok_read_thread reads dev :
  device_ok dev → reads_fit reads →
  ∃ st dev', read_thread_proc reads dev = Some (st, dev') ∧ device_ok dev'.
Proof.
  intros Hok Hfit. revert dev Hok.
  induction Hfit as [|[al [bytes|error]] reads Hr Hfit IH]; intros dev Hok;
    rewrite read_thread_proc_unfold;
    (destruct (negb (streaming dev)); [by eexists _, _|]);
    (destruct (stop_event dev); [by eexists _, _|]).
  - by eexists _, _.
  - simpl in Hr. destruct (Z.ltb_spec BUFFER_SIZE (Z.of_nat (length bytes))); [lia|].
    case_bool_decide; [by apply IH|].
    destruct (device_ok_process_data al dev bytes Hok Hr) as (dev1 & -> & Hok1).
    simpl. by apply IH.
  - destruct (read_timed_out error); [by apply IH|by eexists _, _].
Qed.

Lemma read_frame_loop_flags waits dev (buf : list Z) n t err r :
  read_frame_loop waits dev buf n t err = Returns r →
  streaming (rr_dev r) = streaming dev ∧ read_thread (rr_dev r) = read_thread dev ∧
  stop_event (rr_dev r) = stop_event dev.
Proof.
  revert dev. induction waits as [|wr waits IH]; intros dev;
    rewrite read_frame_loop_unfold;
    (destruct (frame_at dev (read_frame dev)) as [f|]; [|done]);
    unfold read_ready;
    (destruct (ready f);
       [destruct (n <? size f); [by intros [= <-]|];
        destruct (data f) as [src|]; [|done];
        destruct (memcpy buf 0 src (size f)); [|done];
        by intros [= <-]|]);
    [done|].
  destruct wr.
  - intros Hloop. by apply IH in Hloop.
  - destruct (t =? 0); [done|]. by intros [= <-].
  - by intros [= <-].
Qed.

Lemma device_ok_read_frame waits dev (buf : list Z) n k t err :
  device_ok dev → n ≤ Z.of_nat (length buf) →
  match camera_read_frame waits dev (Some buf) n (Some k) t err with
  | Undefined => False
  | Blocks => True
  | Returns r => device_ok (rr_dev r)
  end.
Proof.
  intros (Hq & Hrd & Hc & Hd & Ht) Hn. pose proof Hq as [Hring _].
  pose proof (camera_read_frame_queue waits dev buf n k t err Hq Hn) as Hread.
  destruct (camera_read_frame waits dev (Some buf) n (Some k) t err) as [r| |] eqn:Hcall;
    [|done..].
  destruct Hread as (Hq' & Hs' & Hc' & Hd' & _).
  unfold device_ok. rewrite Hc', Hd', Hs'. split_and!; try done; try lia.
  - revert Hcall. unfold camera_read_frame.
    destruct (streaming dev); simpl; [|by intros [= <-]].
    intros Hloop. by apply read_frame_loop_inv in Hloop as (_ & ? & _).
  - rewrite <- Ht. revert Hcall. unfold camera_read_frame.
    destruct (streaming dev); simpl; [|by intros [= <-]].
    intros Hloop. by apply read_frame_loop_flags in Hloop as (_ & -> & _).
Qed.

Lemma run_calls_ok calls dev err :
  device_ok dev → calls_fit calls →
  match run_calls calls dev err with
  | Undefined => False
  | Blocks => True
  | Returns (d, _) => device_ok d
  end.
Proof.
  intros Hok Hfit. revert dev err Hok.
  induction Hfit as [|c calls Hc Hfit IH]; intros dev err Hok; [done|].
  destruct c as [env| |reads|waits buf n t]; cbn [run_calls].
  - pose proof (device_ok_start env dev err Hok) as Hok'.
    destruct (camera_start_streaming env dev err) as [[st dev'] err']. by apply IH.
  - destruct (device_ok_stop dev Hok) as (dev' & -> & Hok'). by apply IH.
  - destruct (device_ok_read_thread reads dev Hok Hc) as (st & dev' & -> & Hok').
    by apply IH.
  - pose proof (device_ok_read_frame waits dev buf n 0 t err Hok Hc) as Hread.
    destruct (camera_read_frame waits dev (Some buf) n (Some 0) t err) as [r| |];
      [|done..].
    by apply IH.
Qed.

(** X10.  Every device that can be reached is well formed.  From the
    device that [camera_open_path] returns, after any run of
    [camera_start_streaming], [camera_stop_streaming], [camera_read_frame]
    and stretches of the capture thread, whatever the USB calls, the
    allocations and the waits give, no call has reached outside a block or
    the ring, provided the bulk reads fit the read buffer and the readers
    pass the size of their buffers; and the device then has a ring whose
    ready slots are those from the read index up to the write index, a JPEG
    in every ready slot, both counters within [unsigned int], and a thread
    handle exactly if it is streaming. *)
Theorem reachable_devices_well_formed lenv env path ls err dev ls' err' calls :
  camera_open_path lenv env path ls err = (Some dev, ls', err') → calls_fit calls →
  match run_calls calls dev err' with
  | Undefined => False
  | Blocks => True
  | Returns (d, _) => device_ok d
  end.
Proof.
  intros Hopen Hfit. apply run_calls_ok; [|done].
  revert Hopen. unfold camera_open_path.
  destruct (init_debug_logging lenv ls err) as [ls1 err1].
  destruct path; [|done]. destruct (calloc_device env); [|done].
  destruct (create_file env _); [|done]. destruct (winusb_initialize env); [|done].
  intros [= <- _ _]. apply device_ok_opened.
Qed.

Lemma reachable_devices_well_formed_witness :
  match run_calls busy_life opened_device "" with
  | Undefined => False
  | Blocks => True
  | Returns (d, _) => device_ok d
  end.
Proof.
  apply (reachable_devices_well_formed quiet_log_env ok_open_env (Some some_path)
           log_loaded "" opened_device (mk_log_state false false true) "").
  - reflexivity.
  - apply (bool_decide_unpack _). vm_compute. exact I.
Defined.

(** That run returns: the read before the start fails, the thread captures
    one frame before the bulk read fails, the read takes it, and the second
    start fails on a short write of the connect command. *)
Example busy_life_outcome :
  match run_calls busy_life opened_device "" with
  | Returns (d, err) =>
      camera_is_streaming d = false ∧ camera_get_stats d = (CAMERA_SUCCESS, 1, 0) ∧
      camera_get_error err = "Short write: 3 / 5 bytes"
  | _ => False
  end.
Proof. vm_compute. split_and!; reflexivity. Qed.

(** ** The last error *)

Lemma camera_get_error_message a s : camera_get_error (String a s) = String a s.
Proof. done. Qed.

(** X11.  [camera_get_error] reports the last failure of the thread, and a
    success does not clear it.  [camera_start_streaming] and
    [camera_read_frame] leave [last_error] as it was when they succeed, and
    [camera_open_path] leaves it as its call of [init_debug_logging] left
    it, which is as it was unless the log file could not be opened; when
    they fail they store a message, which is then what [camera_get_error]
    returns; before any failure it returns "No error". *)
Theorem last_error_reports_failures :
  camera_get_error "" = "No error" ∧
  (∀ lenv env path ls err,
     match camera_open_path lenv env path ls err with
     | (Some _, _, err') => err' = (init_debug_logging lenv ls err).2
     | (None, _, err') => camera_get_error err' = err'
     end) ∧
  (∀ lenv ls err,
     let err' := (init_debug_logging lenv ls err).2 in
     err' = err ∨ err' = "Failed to open debug log file") ∧
  (∀ env dev err,
     let '(status, _, err') := camera_start_streaming env dev err in
     if status =? CAMERA_SUCCESS then err' = err else camera_get_error err' = err') ∧
  (∀ waits dev buffer n bytes_read t err,
     match camera_read_frame waits dev buffer n bytes_read t err with
     | Returns r =>
         if rr_status r =? CAMERA_SUCCESS then rr_error r = err
         else camera_get_error (rr_error r) = rr_error r
     | _ => True
     end).
Proof.
  split; [done|]. split; [|split; [|split]].
  - intros lenv env path ls err. unfold camera_open_path.
    destruct (init_debug_logging lenv ls err) as [ls1 err1].
    destruct path; [|done]. destruct (calloc_device env); [|done].
    destruct (create_file env _); [|done]. by destruct (winusb_initialize env).
  - intros lenv ls err. unfold init_debug_logging, set_debug_logging.
    destruct (g_log_lock_initialized ls); simpl; [by left|].
    destruct (env_debug lenv); [|by left].
    destruct (_ || _); [|by left].
    destruct (g_debug_logging_enabled ls); simpl; [by left|].
    destruct (fopen_log lenv); simpl; [by left|by right].
  - intros env dev err. unfold camera_start_streaming, send_command.
    destruct (streaming dev); [done|].
    destruct (set_alternate_setting env); [|done].
    destruct (write_pipe env) as [sent|]; [|done].
    destruct (sent =? CONNECT_CMD_SIZE); [|done]. simpl.
    by destruct (create_thread env).
  - intros waits dev buffer n bytes_read t err. unfold camera_read_frame.
    destruct buffer as [buf|], bytes_read as [k|]; try done.
    destruct (streaming dev); [|done]. simpl.
    revert dev. induction waits as [|wr waits IH]; intros dev;
      rewrite read_frame_loop_unfold;
      (destruct (frame_at dev (read_frame dev)) as [f|]; [|done]);
      unfold read_ready;
      (destruct (ready f);
         [destruct (n <? size f); [done|];
          destruct (data f) as [src|]; [|done];
          by destruct (memcpy buf 0 src (size f))|]);
      [done|].
    destruct wr; [apply IH|by destruct (t =? 0)|done].
Qed.

(** ** Debug logging *)

Lemma set_debug_logging_spec fopen_ok enable ls err :
  log_ok ls →
  let '(status, ls', err') := set_debug_logging fopen_ok enable ls err in
  log_ok ls' ∧ g_log_lock_initialized ls' = g_log_lock_initialized ls ∧
  (status = CAMERA_SUCCESS ∧ g_debug_logging_enabled ls' = enable ∧ err' = err ∨
   status = CAMERA_ERROR_INVALID_PARAM ∧ enable = true ∧ fopen_ok = false ∧
   g_debug_logging_enabled ls = false ∧ g_debug_logging_enabled ls' = false ∧
   err' = "Failed to open debug log file").
Proof.
  unfold log_ok, set_debug_logging. intros Hok.
  destruct enable, (g_debug_logging_enabled ls) eqn:He, fopen_ok; simpl;
    (split; [by rewrite ?He|]); (split; [done|]);
    first [by left; rewrite ?He|by right].
Qed.

Lemma init_debug_logging_spec env ls err :
  log_ok ls →
  let '(ls', err') := init_debug_logging env ls err in
  log_ok ls' ∧ g_log_lock_initialized ls' = true ∧
  (err' = err ∨ err' = "Failed to open debug log file").
Proof.
  intros Hok. unfold init_debug_logging.
  destruct (g_log_lock_initialized ls) eqn:Hi; simpl; [split_and!; by try left|].
  assert (Hok1 : log_ok (mk_log_state (g_debug_logging_enabled ls) (g_debug_log_file ls) true))
    by done.
  destruct (env_debug env) as [v|]; [|split_and!; by try left].
  destruct (_ || _); [|split_and!; by try left].
  pose proof (set_debug_logging_spec (fopen_log env) true _ err Hok1) as Hset.
  destruct (set_debug_logging _ _ _ _) as [[st ls'] err'].
  destruct Hset as (? & ? & [(_ & _ & ->)|(_ & _ & _ & _ & _ & ->)]);
    split_and!; try done; [by left|by right].
Qed.

(** X12.  The log file is open exactly while logging is enabled, and
    [camera_set_debug_logging] says whether it did what it was asked.  From
    globals with that property the call returns with it again, and either
    it returns [CAMERA_SUCCESS] and [camera_is_debug_logging_enabled] then
    answers [enable], or it returns [CAMERA_ERROR_INVALID_PARAM], which
    happens only when it was asked to enable the log and could not open the
    file: logging is then off and [last_error] says so.  Hence [debug_log]
    writes exactly when logging is enabled. *)
Theorem debug_logging_follows_request env fopen_ok enable ls err :
  log_ok ls →
  let '(status, ls', err') := camera_set_debug_logging env fopen_ok enable ls err in
  log_ok ls' ∧ debug_log_writes ls' = camera_is_debug_logging_enabled ls' ∧
  (status = CAMERA_SUCCESS ∧ camera_is_debug_logging_enabled ls' = enable ∨
   status = CAMERA_ERROR_INVALID_PARAM ∧ enable = true ∧ fopen_ok = false ∧
   camera_is_debug_logging_enabled ls' = false ∧
   err' = "Failed to open debug log file").
Proof.
  intros Hok. unfold camera_set_debug_logging.
  pose proof (init_debug_logging_spec env ls err Hok) as Hinit.
  destruct (init_debug_logging env ls err) as [ls1 err1].
  destruct Hinit as (Hok1 & _ & _).
  pose proof (set_debug_logging_spec fopen_ok enable ls1 err1 Hok1) as Hset.
  destruct (set_debug_logging fopen_ok enable ls1 err1) as [[status ls'] err'].
  destruct Hset as (Hok' & _ & Hcase). split; [done|]. split.
  - unfold debug_log_writes, camera_is_debug_logging_enabled. rewrite Hok'.
    by destruct (g_debug_logging_enabled ls').
  - destruct Hcase as [(? & ? & _)|(? & ? & ? & _ & ? & ?)]; [by left|by right].
Qed.

Lemma debug_logging_follows_request_witness :
  let '(status, ls', err') :=
    camera_set_debug_logging (mk_log_env (Some (bytes_of "YES")) false) false true
      log_loaded "" in
  log_ok ls' ∧ debug_log_writes ls' = camera_is_debug_logging_enabled ls' ∧
  (status = CAMERA_SUCCESS ∧ camera_is_debug_logging_enabled ls' = true ∨
   status = CAMERA_ERROR_INVALID_PARAM ∧ true = true ∧ false = false ∧
   camera_is_debug_logging_enabled ls' = false ∧
   err' = "Failed to open debug log file").
Proof.
  apply (debug_logging_follows_request (mk_log_env (Some (bytes_of "YES")) false)
           false true log_loaded "").
  reflexivity.
Defined.

Lemma lower_case_one v : lower_case <$> v = bytes_of "1" ↔ v = bytes_of "1".
Proof.
  change (bytes_of "1") with [49]. split; [|by intros ->].
  destruct v as [|c [|? ?]]; try done. simpl. intros [= Hc]. f_equal.
  revert Hc. unfold lower_case.
  destruct (Z.leb_spec 65 c), (Z.leb_spec c 90); simpl; lia.
Qed.

Lemma debug_value_test v :
  strcmp_eq v (bytes_of "1") || stricmp_eq v (bytes_of "true") ||
    stricmp_eq v (bytes_of "yes") =
  bool_decide (lower_case <$> v ∈ debug_values).
Proof.
  unfold strcmp_eq, stricmp_eq, debug_values.
  rewrite <- !bool_decide_or. apply bool_decide_ext.
  rewrite !elem_of_cons, elem_of_nil, lower_case_one.
  change (lower_case <$> bytes_of "true") with (bytes_of "true").
  change (lower_case <$> bytes_of "yes") with (bytes_of "yes"). tauto.
Qed.

(** X13.  The environment variable [USEEPLUS_DEBUG] is read once, by the
    first call that reaches [init_debug_logging]: that call switches the
    log on exactly when the value of the variable is "1", or "true" or
    "yes" in any mix of upper and lower case, and the log file can be
    opened; every later call of [init_debug_logging] changes nothing,
    whatever the environment then holds. *)
Theorem debug_environment_read_once env err :
  let '(ls', err') := init_debug_logging env log_loaded err in
  camera_is_debug_logging_enabled ls' = debug_requested env && fopen_log env ∧
  log_ok ls' ∧
  ∀ env' err'', init_debug_logging env' ls' err'' = (ls', err'').
Proof.
  unfold init_debug_logging, debug_requested. simpl.
  destruct (env_debug env) as [v|]; [|done].
  rewrite debug_value_test. destruct (bool_decide _); [|done].
  unfold set_debug_logging. simpl. by destruct (fopen_log env).
Qed.

(** With [USEEPLUS_DEBUG=TRUE], asking to disable the log as the first
    call opens the log file and closes it again; and
    [camera_is_debug_logging_enabled], which does not reach
    [init_debug_logging], answers false before that call. *)
Example debug_environment_example :
  camera_is_debug_logging_enabled log_loaded = false ∧
  init_debug_logging (mk_log_env (Some (bytes_of "TRUE")) true) log_loaded "" =
    (mk_log_state true true true, "") ∧
  camera_set_debug_logging (mk_log_env (Some (bytes_of "TRUE")) true) true false
    log_loaded "" = (CAMERA_SUCCESS, mk_log_state false false true, "").
Proof. done. Qed.

(** ** Enumeration *)

Lemma c_string_app (s t : list Z) :
  Forall (λ c, c ≠ 0) s → c_string (s ++ 0 :: t) = Some s.
Proof.
  induction 1 as [|c s Hc Hs IH]; simpl; [done|].
  destruct (Z.eqb_spec c 0); [done|]. by rewrite IH.
Qed.

Lemma mapM_tolower (s : list Z) :
  Forall (λ c, 0 < c < 128) s → mapM tolower s = Some (lower_case <$> s).
Proof.
  intros Hs. apply mapM_Some_2.
  induction Hs as [|c s Hc Hs IH]; simpl; constructor; [|done].
  unfold tolower. by destruct (Z.leb_spec 0 c), (Z.ltb_spec c 128); try lia.
Qed.

Lemma take_app_replicate (p : list Z) n :
  take n (p ++ replicate n 0) = take n p ++ replicate (n - length p) 0.
Proof.
  rewrite take_app. f_equal. rewrite take_replicate. f_equal. lia.
Qed.

Lemma store_byte_last (a : list Z) x c n :
  n = Z.of_nat (length a) → store_byte (a ++ [x]) n c = Some (a ++ [c]).
Proof.
  intros ->. unfold store_byte. rewrite length_app. simpl.
  destruct (Z.leb_spec 0 (Z.of_nat (length a))),
    (Z.ltb_spec (Z.of_nat (length a)) (Z.of_nat (length a + 1))); try lia. simpl.
  rewrite Nat2Z.id, insert_app_r_alt by lia.
  by replace (length a - length a)%nat with 0%nat by lia.
Qed.

(** A string copied into an array that is then closed by a NUL, read back:
    [n] bytes of the string at most. *)
Lemma c_string_copied (p : list Z) n :
  Forall (λ c, c ≠ 0) p →
  c_string (take n (p ++ replicate n 0) ++ [0]) = Some (take n p).
Proof.
  intros Hp. rewrite take_app_replicate, <- app_assoc.
  assert (Hz : ∃ t, replicate (n - length p) 0 ++ [0] = 0 :: t).
  { destruct (n - length p)%nat; simpl; eauto. }
  destruct Hz as [t ->]. apply c_string_app. by apply Forall_take.
Qed.

Lemma ascii_string_no_nul p : ascii_string p → Forall (λ c, c ≠ 0) p.
Proof. intros Hp. eapply Forall_impl; [exact Hp|]. simpl. lia. Qed.

Lemma lower_path_ascii p :
  ascii_string p → lower_path p = Some (lower_case <$> take 511 p).
Proof.
  intros Hp. unfold lower_path, strncpy.
  rewrite length_replicate.
  change ((0 <=? 511) && (511 <=? Z.of_nat 512)) with true. cbn [mbind option_bind].
  change (Z.to_nat 511) with 511%nat.
  change (drop 511 (replicate 512 0)) with [0].
  rewrite store_byte_last
    by (rewrite length_take, length_app, length_replicate; lia).
  cbn [mbind option_bind].
  rewrite c_string_copied by (by apply ascii_string_no_nul).
  cbn [mbind option_bind]. apply mapM_tolower. by apply Forall_take.
Qed.

Lemma strncpy_sized (dst src : list Z) n x :
  length dst = S n →
  strncpy dst src (Z.of_nat n) ≫= (λ a, store_byte a (Z.of_nat n) x) =
    Some (take n (src ++ replicate n 0) ++ [x]).
Proof.
  intros Hlen. unfold strncpy. rewrite Hlen.
  destruct (Z.leb_spec 0 (Z.of_nat n)), (Z.leb_spec (Z.of_nat n) (Z.of_nat (S n)));
    try lia. simpl. rewrite Nat2Z.id.
  assert (Hd : ∃ y, drop n dst = [y]).
  { destruct (drop n dst) as [|y [|? ?]] eqn:Hdrop;
      apply (f_equal length) in Hdrop; rewrite length_drop in Hdrop; simpl in *;
      try lia. by exists y. }
  destruct Hd as [y ->]. apply store_byte_last.
  rewrite length_take, length_app, length_replicate. lia.
Qed.

(** The write of one entry in the first loop. *)
Lemma store_info_winusb devs max found p info :
  devs !! found = Some info → info_sized info →
  store_info true (Some devs) max (Z.of_nat found) p =
    Some (Some (if bool_decide (Z.of_nat found < max)
                then <[found := winusb_info p]> devs else devs)).
Proof.
  intros Hinfo [Hp Hd]. unfold store_info.
  destruct (Z.ltb_spec (Z.of_nat found) max);
    [rewrite bool_decide_eq_true_2 by done|by rewrite bool_decide_eq_false_2 by lia].
  destruct (Z.leb_spec 0 (Z.of_nat found)); [|lia].
  rewrite Nat2Z.id, Hinfo. cbn [mbind option_bind].
  pose proof (strncpy_sized (device_path info) p 255 0 Hp) as H1.
  pose proof (strncpy_sized (description info)
                (bytes_of "Useeplus SuperCamera (WinUSB)") 127 0 Hd) as H2.
  change (Z.of_nat 255) with 255 in H1. change (Z.of_nat 127) with 127 in H2.
  destruct (strncpy (device_path info) p 255) as [a|]; [|done].
  cbn [mbind option_bind] in H1 |- *. rewrite H1. cbn [mbind option_bind].
  destruct (strncpy (description info) _ 127) as [b|]; [|done].
  cbn [mbind option_bind] in H2 |- *. rewrite H2. done.
Qed.

Lemma enumerate_winusb_detail p ifaces devices max found :
  ascii_string p →
  enumerate_winusb (Detail p :: ifaces) devices max found =
    if winusb_match p
    then devices ← store_info true devices max found p;
         enumerate_winusb ifaces devices max (found + 1)
    else enumerate_winusb ifaces devices max found.
Proof. intros Hp. cbn [enumerate_winusb]. by rewrite lower_path_ascii by done. Qed.

Lemma filter_match_cons (f : list Z → bool) p l :
  filter (λ p, f p) (p :: l) =
    if f p then p :: filter (λ p, f p) l else filter (λ p, f p) l.
Proof.
  rewrite filter_cons. destruct (f p) eqn:Hf.
  - destruct (decide _) as [?|H]; [done|by destruct H].
  - destruct (decide _) as [H|?]; [by destruct H|done].
Qed.

(** Past [max_devices] the first loop only counts. *)
Lemma enumerate_winusb_count ifaces devices max found :
  Forall ascii_string (paths_of ifaces) → max ≤ found →
  enumerate_winusb ifaces devices max found =
    Some (devices,
          found + Z.of_nat (length (filter (λ p, winusb_match p) (paths_of ifaces)))).
Proof.
  revert found. induction ifaces as [|[| |p] ifaces IH]; intros found Hascii Hmax.
  - simpl. by rewrite Z.add_0_r.
  - by apply IH.
  - by apply IH.
  - change (paths_of (Detail p :: ifaces)) with (p :: paths_of ifaces) in *.
    apply Forall_cons in Hascii as [Hp Hascii].
    rewrite enumerate_winusb_detail, filter_match_cons by done.
    destruct (winusb_match p); [|by apply IH].
    assert (Hst : store_info true devices max found p = Some devices).
    { unfold store_info. destruct devices; [|done].
      by destruct (Z.ltb_spec found max); [lia|]. }
    rewrite Hst. cbn [mbind option_bind]. rewrite IH by (done || lia).
    simpl. do 2 f_equal. lia.
Qed.

(** The first loop on an array: behind the entries [pre] that are written
    already it writes the entries of the matching interfaces, as long as
    [max_devices] allows, and it counts them all. *)
Lemma enumerate_winusb_spec ifaces pre rest max :
  Forall ascii_string (paths_of ifaces) → Forall info_sized rest →
  max ≤ Z.of_nat (length (pre ++ rest)) →
  let ms := filter (λ p, winusb_match p) (paths_of ifaces) in
  let written := winusb_info <$> take (Z.to_nat max - length pre) ms in
  enumerate_winusb ifaces (Some (pre ++ rest)) max (Z.of_nat (length pre)) =
    Some (Some (pre ++ written ++ drop (length written) rest),
          Z.of_nat (length pre) + Z.of_nat (length ms)).
Proof.
  revert pre rest.
  induction ifaces as [|[| |p] ifaces IH]; intros pre rest Hascii Hsized Hmax.
  - simpl. rewrite filter_nil, take_nil. simpl. by rewrite Z.add_0_r.
  - by apply IH.
  - by apply IH.
  - change (paths_of (Detail p :: ifaces)) with (p :: paths_of ifaces) in *.
    apply Forall_cons in Hascii as [Hp Hascii]. cbv zeta.
    rewrite enumerate_winusb_detail, filter_match_cons by done.
    destruct (winusb_match p); [|by apply IH].
    destruct (decide (Z.of_nat (length pre) < max)) as [Hlt|Hge].
    + rewrite length_app in Hmax.
      destruct rest as [|info rest]; [simpl in Hmax; lia|].
      apply Forall_cons in Hsized as [Hinfo Hsized].
      rewrite (store_info_winusb _ _ _ _ info)
        by (done || by rewrite lookup_app_r, Nat.sub_diag by lia).
      rewrite bool_decide_eq_true_2 by done. cbn [mbind option_bind].
      rewrite insert_app_r_alt, Nat.sub_diag by lia. simpl.
      replace (Z.of_nat (length pre) + 1) with (Z.of_nat (length (pre ++ [winusb_info p])))
        by (rewrite length_app; simpl; lia).
      rewrite (cons_middle _ pre rest), app_assoc.
      rewrite IH; [|done|done|rewrite !length_app in *; simpl in *; lia].
      replace (Z.to_nat max - length pre)%nat
        with (S (Z.to_nat max - length (pre ++ [winusb_info p])))
        by (rewrite length_app; simpl; lia).
      simpl. rewrite <- !app_assoc. simpl. do 2 f_equal.
      rewrite length_app. simpl. lia.
    + assert (Hst : store_info true (Some (pre ++ rest)) max (Z.of_nat (length pre)) p =
                    Some (Some (pre ++ rest))).
      { unfold store_info. by destruct (Z.ltb_spec (Z.of_nat (length pre)) max); [lia|]. }
      rewrite Hst. cbn [mbind option_bind].
      rewrite enumerate_winusb_count by (done || lia).
      replace (Z.to_nat max - length pre)%nat with 0%nat by lia.
      simpl. do 2 f_equal. lia.
Qed.

(** X14.  [camera_enumerate] counts every camera and writes no more
    entries than it was allowed.  When the WinUSB interfaces, whose paths
    are ASCII, include cameras (paths that hold "vid_2ce3", "pid_3828" and
    "mi_01" within their first 511 bytes, in any mix of upper and lower
    case), and [max_devices] is at most the length of the array, the call
    returns the number of all of them, which may be more than
    [max_devices]; it has written the entries of the first [max_devices] of
    them, in the order of the enumeration, each with the vendor and product
    id, the first 255 bytes of the path and the description, both closed by
    a NUL, and it has left the rest of the array as it was. *)
Theorem enumerate_counts_all_matches lenv ifaces usb devs max ls err :
  Forall ascii_string (paths_of ifaces) → Forall info_sized devs →
  max ≤ Z.of_nat (length devs) →
  filter (λ p, winusb_match p) (paths_of ifaces) ≠ [] →
  let ms := filter (λ p, winusb_match p) (paths_of ifaces) in
  let written := winusb_info <$> take (Z.to_nat max) ms in
  camera_enumerate lenv (mk_setup_env (Some ifaces) usb) (Some devs) max ls err =
    Some (Z.of_nat (length ms), Some (written ++ drop (length written) devs),
          (init_debug_logging lenv ls err).1, (init_debug_logging lenv ls err).2).
Proof.
  intros Hascii Hsized Hmax Hne. cbv zeta. unfold camera_enumerate.
  destruct (init_debug_logging lenv ls err) as [ls1 err1]. simpl.
  pose proof (enumerate_winusb_spec ifaces [] devs max Hascii Hsized Hmax) as Hloop.
  simpl in Hloop. change (Z.of_nat 0) with 0 in Hloop.
  rewrite Nat.sub_0_r in Hloop. rewrite Hloop. simpl.
  rewrite Z.add_0_l.
  destruct (filter (λ p, winusb_match p) (paths_of ifaces)) as [|p ms]; [done|].
  by destruct (Z.ltb_spec 0 (Z.of_nat (length (p :: ms)))); [|simpl in *; lia].
Qed.

Lemma enumerate_counts_all_matches_witness :
  camera_enumerate quiet_log_env (mk_setup_env (Some three_cameras) None)
    (Some [blank_info; blank_info]) 2 log_loaded "" =
    Some (3, Some [winusb_info (camera_path "a"); winusb_info upper_path],
          mk_log_state false false true, "").
Proof.
  apply (enumerate_counts_all_matches quiet_log_env three_cameras None
           [blank_info; blank_info] 2 log_loaded "").
  - apply (bool_decide_unpack _). vm_compute. exact I.
  - apply (bool_decide_unpack _). vm_compute. exact I.
  - vm_compute. discriminate.
  - vm_compute. discriminate.
Defined.

(** X15.  [camera_open] opens the first camera among the WinUSB
    interfaces: when the paths of these interfaces are ASCII and [p] is the
    first of them that is a camera's, [camera_open] returns what
    [camera_open_path] returns for the first 255 bytes of [p], which are
    all of [p] unless it is longer, whatever the local [device] held
    before. *)
Theorem camera_open_first_camera lenv ifaces usb oenv device ls err p ms :
  Forall ascii_string (paths_of ifaces) → info_sized device →
  filter (λ p, winusb_match p) (paths_of ifaces) = p :: ms →
  camera_open lenv (mk_setup_env (Some ifaces) usb) oenv device ls err =
    Some (camera_open_path lenv oenv (Some (take 255 p))
            (init_debug_logging lenv ls err).1 (init_debug_logging lenv ls err).2).
Proof.
  intros Hascii Hsized Hms. unfold camera_open.
  pose proof (enumerate_counts_all_matches lenv ifaces usb [device] 1 ls err Hascii) as Henum.
  rewrite Hms in Henum. rewrite Henum; [|by constructor|done|done].
  cbn [mbind option_bind]. simpl.
  assert (Hp : ascii_string p).
  { assert (Hin : p ∈ filter (λ p, winusb_match p) (paths_of ifaces))
      by (rewrite Hms; constructor).
    apply list_elem_of_filter in Hin as [_ Hin].
    by apply (proj1 (Forall_forall _ _) Hascii). }
  rewrite c_string_copied by (by apply ascii_string_no_nul).
  done.
Qed.

Lemma camera_open_first_camera_witness :
  camera_open quiet_log_env (mk_setup_env (Some three_cameras) None)
    (only_path (camera_path "a")) blank_info log_loaded "" =
    Some (Some opened_device, mk_log_state false false true, "").
Proof.
  apply (camera_open_first_camera quiet_log_env three_cameras None
           (only_path (camera_path "a")) blank_info log_loaded ""
           (camera_path "a") [upper_path; camera_path "c"]).
  - apply (bool_decide_unpack _). vm_compute. exact I.
  - apply (bool_decide_unpack _). vm_compute. exact I.
  - vm_compute. reflexivity.
Defined.

Lemma strncpy_length (dst src : list Z) n :
  0 ≤ n ≤ Z.of_nat (length dst) →
  ∃ a, strncpy dst src n = Some a ∧ length a = length dst.
Proof.
  intros Hn. unfold strncpy.
  destruct (Z.leb_spec 0 n), (Z.leb_spec n (Z.of_nat (length dst))); try lia. simpl.
  eexists. split; [done|].
  rewrite length_app, length_take, length_drop, length_app, length_replicate. lia.
Qed.

(** The write of one entry in the second loop keeps the sizes of the
    arrays. *)
Lemma store_info_usb devs max found p :
  Forall info_sized devs → 0 ≤ found → max ≤ Z.of_nat (length devs) →
  ∃ devs', store_info false (Some devs) max found p = Some (Some devs') ∧
    length devs' = length devs ∧ Forall info_sized devs'.
Proof.
  intros Hsized Hfound Hmax. unfold store_info.
  destruct (Z.ltb_spec found max); [|by exists devs].
  destruct (Z.leb_spec 0 found); [|lia].
  destruct (lookup_lt_is_Some_2 devs (Z.to_nat found)) as [info Hinfo]; [lia|].
  rewrite Hinfo. cbn [mbind option_bind].
  destruct (Forall_lookup_1 _ _ _ _ Hsized Hinfo) as [Hp Hd].
  destruct (strncpy_length (device_path info) p 255) as (a & -> & Ha); [lia|].
  cbn [mbind option_bind].
  destruct (strncpy_length (description info)
              (bytes_of "Useeplus SuperCamera (non-WinUSB)") 127) as (b & -> & Hb); [lia|].
  cbn [mbind option_bind].
  eexists. split; [done|]. rewrite length_insert. split; [done|].
  apply Forall_insert; [done|]. unfold info_sized. simpl. lia.
Qed.

Lemma enumerate_usb_spec ifaces devs max found :
  Forall info_sized devs → 0 ≤ found → max ≤ Z.of_nat (length devs) →
  ∃ devs',
    enumerate_usb ifaces (Some devs) max found =
      Some (Some devs',
            found + Z.of_nat (length (filter (λ p, usb_match p) (paths_of ifaces)))) ∧
    length devs' = length devs ∧ Forall info_sized devs'.
Proof.
  revert devs found.
  induction ifaces as [|[| |p] ifaces IH]; intros devs found Hsized Hfound Hmax.
  - exists devs. simpl. by rewrite Z.add_0_r.
  - by apply IH.
  - by apply IH.
  - change (paths_of (Detail p :: ifaces)) with (p :: paths_of ifaces).
    rewrite filter_match_cons. cbn [enumerate_usb]. fold (usb_match p).
    destruct (usb_match p); [|by apply IH].
    destruct (store_info_usb devs max found p Hsized Hfound Hmax)
      as (devs1 & -> & Hlen1 & Hsized1). cbn [mbind option_bind].
    destruct (IH devs1 (found + 1)) as (devs' & -> & Hlen' & Hsized'); [done|lia|lia|].
    exists devs'. split_and!; [|congruence|done].
    simpl. do 2 f_equal. lia.
Qed.

(** X16.  Without a camera among the WinUSB interfaces, [camera_enumerate]
    falls back to the generic USB device interfaces, where a camera is a
    path that holds "vid_2ce3" and "pid_3828" as they are written here, in
    lower case.  It then returns the number of these cameras, which is 0
    when there is none: [CAMERA_ERROR_NOT_FOUND] is returned, with a message
    in [last_error] and the array untouched, only when the generic class
    cannot be listed.  No write leaves the array, provided [max_devices] is
    at most its length. *)
Theorem enumerate_falls_back lenv winusb usb devs max ls err :
  match winusb with
  | Some ifaces =>
      Forall ascii_string (paths_of ifaces) ∧
      filter (λ p, winusb_match p) (paths_of ifaces) = []
  | None => True
  end →
  Forall info_sized devs → max ≤ Z.of_nat (length devs) →
  ∃ devs',
    camera_enumerate lenv (mk_setup_env winusb usb) (Some devs) max ls err =
      Some (match usb with
            | Some ifaces =>
                Z.of_nat (length (filter (λ p, usb_match p) (paths_of ifaces)))
            | None => CAMERA_ERROR_NOT_FOUND
            end,
            Some devs', (init_debug_logging lenv ls err).1,
            match usb with
            | Some _ => (init_debug_logging lenv ls err).2
            | None => "Failed to enumerate devices"
            end) ∧
    length devs' = length devs ∧ Forall info_sized devs' ∧
    (usb = None → devs' = devs).
Proof.
  intros Hwin Hsized Hmax. unfold camera_enumerate.
  destruct (init_debug_logging lenv ls err) as [ls1 err1]. simpl.
  assert (Hfirst : match winusb with
                   | Some ifaces => enumerate_winusb ifaces (Some devs) max 0
                   | None => Some (Some devs, 0)
                   end = Some (Some devs, 0)).
  { destruct winusb as [ifaces|]; [|done]. destruct Hwin as [Hascii Hnone].
    pose proof (enumerate_winusb_spec ifaces [] devs max Hascii Hsized Hmax) as Hloop.
    rewrite Hnone in Hloop. simpl in Hloop. rewrite take_nil in Hloop. done. }
  rewrite Hfirst. simpl.
  destruct usb as [ifaces|]; [|by exists devs].
  destruct (enumerate_usb_spec ifaces devs max 0 Hsized) as (devs' & -> & ? & ?);
    [done..|].
  exists devs'. simpl. rewrite Z.add_0_l. split_and!; done.
Qed.

Lemma enumerate_falls_back_witness :
  ∃ devs',
    camera_enumerate quiet_log_env
      (mk_setup_env (Some [NoDetail]) (Some [Detail long_usb_path]))
      (Some [blank_info]) 1 log_loaded "" =
      Some (1, Some devs', mk_log_state false false true, "") ∧
    length devs' = 1%nat ∧ Forall info_sized devs' ∧
    (Some [Detail long_usb_path] = None → devs' = [blank_info]).
Proof.
  apply (enumerate_falls_back quiet_log_env (Some [NoDetail])
           (Some [Detail long_usb_path]) [blank_info] 1 log_loaded "").
  - split; [constructor|reflexivity].
  - apply (bool_decide_unpack _). vm_compute. exact I.
  - vm_compute. discriminate.
Defined.

(** The second loop does not close the path with a NUL: the entry of a
    path of 255 bytes or more keeps the last byte that the array held, and
    [camera_open], whose array is a local variable, then reads a path that
    does not end inside the array. *)
Example fallback_path_not_terminated :
  camera_open quiet_log_env (mk_setup_env None (Some [Detail long_usb_path]))
    ok_open_env blank_info log_loaded "" = None.
Proof. vm_compute. reflexivity. Qed.

(** ** The reassembler on byte strings *)

(** The scan of the block of a slot and the scan of its content find the
    same end. *)
Lemma first_frame_end_content (nb : list Z) n :
  1 ≤ n ≤ Z.of_nat (length nb) →
  ∃ r, find_eoi (Z.to_nat (n - 1)) nb 1 = Some r ∧
       first_frame_end (take (Z.to_nat n) nb) = r ∧
       match r with
       | Some i => 1 ≤ i < n ∧ frame_end nb i ∧ ∀ j, 1 ≤ j < i → ¬ frame_end nb j
       | None => ∀ j, 1 ≤ j < n → ¬ frame_end nb j
       end.
Proof.
  intros Hn. set (B := take (Z.to_nat n) nb).
  assert (HB : length B = Z.to_nat n) by (unfold B; rewrite length_take; lia).
  destruct (find_eoi_spec (Z.to_nat (n - 1)) nb 1) as (r & Hr & Hspec); [lia..|].
  destruct (find_eoi_spec (length B - 1) B 1) as (r' & Hr' & Hspec'); [lia..|].
  exists r. split; [done|]. unfold first_frame_end. rewrite Hr'. simpl.
  assert (Heq : ∀ j, 1 ≤ j < n → frame_end B j ↔ frame_end nb j).
  { intros j Hj. apply frame_end_take. lia. }
  split.
  - destruct r as [i|], r' as [i'|]; try done.
    + destruct Hspec as (Hi & Hend & Hmin), Hspec' as (Hi' & Hend' & Hmin').
      f_equal. destruct (Z.lt_trichotomy i i') as [Hlt|[->|Hgt]]; [|done|].
      * exfalso. apply (Hmin' i); [lia|]. apply Heq; [lia|done].
      * exfalso. apply (Hmin i'); [lia|]. apply Heq; [lia|done].
    + exfalso. destruct Hspec as (Hi & Hend & _).
      apply (Hspec' i); [lia|]. apply Heq; [lia|done].
    + exfalso. destruct Hspec' as (Hi' & Hend' & _).
      apply (Hspec i'); [lia|]. apply Heq; [lia|done].
  - destruct r as [i|].
    + destruct Hspec as (Hi & Hend & Hmin). split_and!; [lia..|done|].
      intros j Hj. apply Hmin. lia.
    + intros j Hj. apply Hspec. lia.
Qed.

Lemma discard_incomplete_content f p :
  frame_ok f → ready f = false →
  content (discard_incomplete f p) = (if starts_with_soi p then [] else content f) ∧
  size (discard_incomplete f p) = (if starts_with_soi p then 0 else size f).
Proof.
  intros Hok Hnr. unfold discard_incomplete. rewrite Hnr.
  destruct (starts_with_soi p); simpl; [|done].
  destruct (Z.ltb_spec 0 (size f)); simpl.
  - split; [|done]. by apply content_empty.
  - assert (size f = 0) as Hz by (unfold frame_ok in Hok; destruct (data f); lia).
    split; [by apply content_empty|done].
Qed.

Lemma slot_content_at dev i f : frame_at dev i = Some f → slot_content dev i = content f.
Proof. unfold slot_content. by intros ->. Qed.

Lemma unfinished_store dev f :
  ring_ok dev → unfinished (store_frame dev (write_frame dev) f) = content f.
Proof.
  intros (Hlen & Hw & _). unfold unfinished.
  change (write_frame (store_frame dev (write_frame dev) f)) with (write_frame dev).
  apply slot_content_at. rewrite frame_at_store by lia. by rewrite decide_True.
Qed.

(** One [process_data] call, seen on the bytes: when its allocations
    succeed, it does to the unfinished bytes what [reassemble] does, and
    completes the frame that [reassemble] completes. *)
Lemma process_data_reassemble al dev pkt :
  queue_ok dev → Z.of_nat (length pkt) ≤ BUFFER_SIZE → has_magic pkt = true →
  allocates al →
  ∃ dev', process_data al dev pkt = Some dev' ∧
    (unfinished dev', newly_completed dev dev') =
      reassemble (unfinished dev) (drop (Z.to_nat HEADER_SIZE) pkt).
Proof.
  intros Hq Hpkt Hmagic (Haf & Hal & Han). pose proof Hq as [Hring _].
  pose proof Hring as (Hlen & Hw & Hr & Hall).
  destruct (queue_ok_write_slot dev Hq) as (f & Hf & Hfok & Hnr).
  destruct (process_data_total al dev pkt Hring Hpkt)
    as (f0 & dev' & Hf0 & _ & Hpd & Hpath).
  assert (f0 = f) as -> by congruence.
  exists dev'. split; [done|]. clear Hpd.
  assert (HA : unfinished dev = content f) by (by apply slot_content_at).
  rewrite HA. unfold reassemble.
  set (p := drop (Z.to_nat HEADER_SIZE) pkt).
  assert (Hplen : Z.of_nat (length p) = Z.max 0 (Z.of_nat (length pkt) - HEADER_SIZE)).
  { unfold p. rewrite length_drop. unfold HEADER_SIZE. lia. }
  destruct Hpath as [[?|Hno]|f1 ? ? Halloc|f1 f' payload f2 ? ? Halloc Hover Hf'
                    |f1 f3 buf nb payload f2 ? ? Halloc Hfit Happ Hnone
                    |f1 f3 buf nb i dev' payload f2 ? ? Halloc Hfit Happ Hi Hend Hmin Hcf].
  - congruence.
  - destruct (alloc_write_slot_is_Some al f Haf) as [? ?]. congruence.
  - destruct (alloc_write_slot_spec _ _ _ Hfok Halloc) as (_ & _ & _ & _ & Hc1 & _).
    assert (p = []) as -> by (apply nil_length_inv; lia).
    rewrite bool_decide_eq_true_2 by done.
    by rewrite unfinished_store, newly_completed_same, Hc1.
  - destruct (alloc_write_slot_spec _ _ _ Hfok Halloc)
      as (Hf1ok & Hd1 & Hs1 & Hr1 & Hc1 & _).
    rewrite Hnr in Hr1.
    destruct (discard_incomplete_spec f1 payload Hf1ok) as (Hf2ok & Hd2 & Hcap2 & _).
    destruct (discard_incomplete_content f1 payload Hf1ok Hr1) as [Hc2 Hs2].
    fold f2 in Hf2ok, Hd2, Hcap2, Hc2, Hs2. subst p. fold payload in Hplen |- *.
    assert (Hcap : capacity f2 = BUFFER_SIZE).
    { unfold frame_ok in Hf2ok. rewrite Hd2 in Hf2ok. destruct Hd1 as [b Hb].
      rewrite Hb in Hf2ok. tauto. }
    assert (Hpne : payload ≠ []) by (intros Hp; rewrite Hp in Hplen; simpl in Hplen; lia).
    rewrite bool_decide_eq_false_2 by done.
    destruct (starts_with_soi payload) eqn:Hsoi.
    { unfold HEADER_SIZE in *. lia. }
    assert (Hlen2 : Z.of_nat (length (content f ++ payload)) = size f2 + Z.of_nat (length payload)).
    { rewrite length_app, Nat2Z.inj_add, <- Hc1, (content_length f1 Hf1ok), Hs2. done. }
    destruct (Z.ltb_spec BUFFER_SIZE (Z.of_nat (length (content f ++ payload)))); [|lia].
    destruct (overflow_reset_spec f2 payload Hf2ok) as (f'' & Hf'' & _ & _ & _ & Hc').
    { by rewrite Hd2. }
    { unfold HEADER_SIZE in *. lia. }
    rewrite Hf' in Hf''. injection Hf'' as <-. rewrite Hsoi in Hc'.
    by rewrite unfinished_store, newly_completed_same, Hc'.
  - destruct (alloc_write_slot_spec _ _ _ Hfok Halloc)
      as (Hf1ok & Hd1 & Hs1 & Hr1 & Hc1 & _).
    rewrite Hnr in Hr1.
    destruct (discard_incomplete_spec f1 payload Hf1ok) as (Hf2ok & Hd2 & Hcap2 & Hr2 & _).
    destruct (discard_incomplete_content f1 payload Hf1ok Hr1) as [Hc2 Hs2].
    fold f2 in Hf2ok, Hd2, Hcap2, Hr2, Hc2, Hs2. subst p. fold payload in Hplen |- *.
    assert (Hcap : capacity f2 = BUFFER_SIZE).
    { unfold frame_ok in Hf2ok. rewrite Hd2 in Hf2ok. destruct Hd1 as [b Hb].
      rewrite Hb in Hf2ok. tauto. }
    assert (Hpne : payload ≠ []) by (intros Hp; rewrite Hp in Hplen; simpl in Hplen; lia).
    rewrite bool_decide_eq_false_2 by done.
    destruct (appended_content _ _ _ _ _ Happ) as (Hd3 & Hs3 & Hr3 & Hc3).
    pose proof Happ as (_ & _ & Hnl & _ & Hf3ok).
    rewrite Hc2, Hc1 in Hc3. rewrite <- Hc3.
    pose proof (content_length f3 Hf3ok) as Hl3. rewrite Hl3.
    destruct (Z.ltb_spec BUFFER_SIZE (size f3)); [lia|].
    assert (Hnb : Z.of_nat (length nb) = BUFFER_SIZE).
    { unfold frame_ok in Hf3ok. rewrite Hd3 in Hf3ok. tauto. }
    destruct (first_frame_end_content nb (size f3)) as (r & _ & Hr' & Hspec).
    { assert (0 < Z.of_nat (length payload)) by (destruct payload; simpl in *; [done|lia]).
      unfold frame_ok in Hf2ok. destruct (data f2); lia. }
    unfold content at 1. rewrite Hd3, Hr'.
    destruct r as [i|].
    { exfalso. destruct Hspec as (Hi & Hend & _). by apply (Hnone i). }
    rewrite unfinished_store, newly_completed_same by done.
    unfold safety_check. rewrite Hr3, Hr2, Hr1. simpl. rewrite andb_true_r.
    destruct (MAX_JPEG_SIZE <? size f3); [|done].
    f_equal. by apply content_empty.
  - destruct (alloc_write_slot_spec _ _ _ Hfok Halloc)
      as (Hf1ok & Hd1 & Hs1 & Hr1 & Hc1 & _).
    rewrite Hnr in Hr1.
    destruct (discard_incomplete_spec f1 payload Hf1ok) as (Hf2ok & Hd2 & Hcap2 & Hr2 & _).
    destruct (discard_incomplete_content f1 payload Hf1ok Hr1) as [Hc2 Hs2].
    fold f2 in Hf2ok, Hd2, Hcap2, Hr2, Hc2, Hs2. subst p. fold payload in Hplen |- *.
    assert (Hcap : capacity f2 = BUFFER_SIZE).
    { unfold frame_ok in Hf2ok. rewrite Hd2 in Hf2ok. destruct Hd1 as [b Hb].
      rewrite Hb in Hf2ok. tauto. }
    assert (Hpne : payload ≠ []) by (intros Hp; rewrite Hp in Hplen; simpl in Hplen; lia).
    rewrite bool_decide_eq_false_2 by done.
    destruct (appended_content _ _ _ _ _ Happ) as (Hd3 & Hs3 & Hr3 & Hc3).
    pose proof Happ as (_ & _ & Hnl & _ & Hf3ok).
    rewrite Hc2, Hc1 in Hc3. rewrite <- Hc3.
    pose proof (content_length f3 Hf3ok) as Hl3. rewrite Hl3.
    destruct (Z.ltb_spec BUFFER_SIZE (size f3)); [lia|].
    assert (Hnb : Z.of_nat (length nb) = BUFFER_SIZE).
    { unfold frame_ok in Hf3ok. rewrite Hd3 in Hf3ok. tauto. }
    destruct (first_frame_end_content nb (size f3)) as (r & _ & Hr' & Hspec); [lia|].
    assert (HB : content f3 = take (Z.to_nat (size f3)) nb)
      by (unfold content; by rewrite Hd3).
    rewrite HB, Hr'.
    assert (r = Some i) as ->.
    { destruct r as [i'|].
      - destruct Hspec as (Hi' & Hend' & Hmin'). f_equal.
        destruct (Z.lt_trichotomy i i') as [Hlt|[->|Hgt]]; [|done|].
        + exfalso. apply (Hmin' i); [lia|done].
        + exfalso. apply (Hmin i'); [lia|done].
      - exfalso. apply (Hspec i); [lia|done]. }
    destruct (complete_frame_spec al dev f3 nb i Hring Hf3ok Hd3 Hi)
      as (dev'' & g0 & g & Hcf' & Hg0 & Hfs & Hwf & _ & _ & _ & _ & Hgok & Hgr & Hg).
    rewrite Hcf in Hcf'. injection Hcf' as <-.
    destruct (next_index_bounds _ Hw) as (Hwb' & Hwne & _).
    rewrite decide_False in Hg by (intros [_ Hn]; rewrite Hn in Han; by destruct Han).
    assert (Hgat : frame_at dev' (write_frame dev') = Some g).
    { unfold frame_at. rewrite Hwf, Hfs.
      destruct (Z.leb_spec 0 (Z.rem (write_frame dev + 1) MAX_FRAMES)); [|lia].
      apply list_lookup_insert_eq. rewrite length_insert. lia. }
    assert (Hfin : frame_at dev' (write_frame dev) =
                   Some (set_ready (set_size f3 (i + 1)) true)).
    { unfold frame_at. rewrite Hfs. destruct (Z.leb_spec 0 (write_frame dev)); [|lia].
      rewrite list_lookup_insert_ne by lia. apply list_lookup_insert_eq. lia. }
    rewrite (newly_completed_moved dev dev' _) by (rewrite ?Hwf; done).
    unfold unfinished. rewrite (slot_content_at _ _ _ Hgat).
    assert (HL : leftover_bytes f3 nb i =
                 drop (Z.to_nat (i + 1)) (take (Z.to_nat (size f3)) nb))
      by (by apply leftover_bytes_drop).
    assert (HLlen : Z.of_nat (length (leftover_bytes f3 nb i)) = size f3 - (i + 1)).
    { apply leftover_bytes_length; lia. }
    rewrite <- HL, HLlen. unfold leftover_kept in Hg. rewrite Hal in Hg. simpl in Hg.
    f_equal.
    + destruct (starts_with_soi (leftover_bytes f3 nb i) &&
                (size f3 - (i + 1) <=? MAX_JPEG_SIZE)); [by destruct Hg|].
      by apply content_empty.
    + f_equal. unfold content. simpl. rewrite Hd3, take_take. f_equal. lia.
Qed.

(** X17.  On the bytes, [process_data] is the reassembler [reassemble]:
    on a ring that is a queue, for a packet with the magic that fits the
    read buffer, and when the allocations succeed, the call leaves in the
    write slot the unfinished bytes that [reassemble] gives for the bytes
    that were there and the payload, and it completes the frame that
    [reassemble] completes, or none.  In particular a payload that starts
    with [FF D8] makes the bytes gathered before it irrelevant, and the
    frame is cut at the end that the scan finds in the bytes gathered,
    wherever the packets were cut. *)
Theorem process_data_is_reassemble al dev pkt :
  queue_ok dev → Z.of_nat (length pkt) ≤ BUFFER_SIZE → has_magic pkt = true →
  allocates al →
  ∃ dev', process_data al dev pkt = Some dev' ∧
    unfinished dev' = (reassemble (unfinished dev) (drop (Z.to_nat HEADER_SIZE) pkt)).1 ∧
    newly_completed dev dev' =
      (reassemble (unfinished dev) (drop (Z.to_nat HEADER_SIZE) pkt)).2.
Proof.
  intros Hq Hpkt Hmagic Hal.
  destruct (process_data_reassemble al dev pkt Hq Hpkt Hmagic Hal) as (dev' & Hpd & Heq).
  exists dev'. split; [done|]. by rewrite <- Heq.
Qed.

Lemma process_data_is_reassemble_witness :
  ∃ dev', process_data ok_allocator one_frame_device (packet [] short_leftover_payload) =
            Some dev' ∧
    unfinished dev' =
      (reassemble (unfinished one_frame_device)
         (drop (Z.to_nat HEADER_SIZE) (packet [] short_leftover_payload))).1 ∧
    newly_completed one_frame_device dev' =
      (reassemble (unfinished one_frame_device)
         (drop (Z.to_nat HEADER_SIZE) (packet [] short_leftover_payload))).2.
Proof.
  apply process_data_is_reassemble.
  - apply (bool_decide_unpack _). vm_compute. exact I.
  - vm_compute. discriminate.
  - reflexivity.
  - apply (bool_decide_unpack _). vm_compute. exact I.
Defined.

(** What [reassemble] gives there: the frame, and the five bytes behind
    it, which start with [FF D8]. *)
Example reassemble_example :
  reassemble [] short_leftover_payload = ([0xFF; 0xD8; 1; 2; 3], [small_jpeg]).
Proof. vm_compute. reflexivity. Qed.

Lemma lastn_app_lastn {A} n (X Y : list A) :
  lastn n (lastn n X ++ Y) = lastn n (X ++ Y).
Proof.
  unfold lastn. rewrite !drop_app, !length_app, !length_drop, drop_drop.
  f_equal; f_equal; lia.
Qed.

Lemma queued_step_lastn dev dev' :
  length (newly_completed dev dev') = (if completes dev dev' then 1 else 0)%nat →
  drop (if completes dev dev' && queue_full dev then 1 else 0) (queued dev) ++
    newly_completed dev dev' =
  lastn (Z.to_nat (MAX_FRAMES - 1)) (queued dev ++ newly_completed dev dev').
Proof.
  intros Hlen. unfold lastn. rewrite drop_app, length_app, Hlen, length_queued.
  pose proof (queue_length_bounds dev) as Hq. unfold queue_full.
  destruct (completes dev dev'), (Z.eqb_spec (queue_length dev) (MAX_FRAMES - 1));
    unfold MAX_FRAMES in *; simpl andb; cbv iota.
  - replace (Z.to_nat (queue_length dev) + 1 - Z.to_nat (12 - 1))%nat with 1%nat by lia.
    by replace (1 - Z.to_nat (queue_length dev))%nat with 0%nat by lia.
  - by replace (Z.to_nat (queue_length dev) + 1 - Z.to_nat (12 - 1))%nat with 0%nat by lia.
  - by replace (Z.to_nat (queue_length dev) + 0 - Z.to_nat (12 - 1))%nat with 0%nat by lia.
  - by replace (Z.to_nat (queue_length dev) + 0 - Z.to_nat (12 - 1))%nat with 0%nat by lia.
Qed.

(** X18.  A run of the capture thread is the reassembler feeding a queue
    of [MAX_FRAMES - 1] frames.  On a ring that is a queue, for packets
    with the magic that fit the read buffer, and when the allocations
    succeed, the calls of [process_data] for the packets complete the
    frames that [reassemble_all] cuts out of the payloads, starting from
    the unfinished bytes in the write slot, and leave the unfinished bytes
    that it leaves; afterwards the queue holds the last [MAX_FRAMES - 1] of
    the frames that were queued and these frames. *)
Theorem capture_run_is_reassembler dev inputs :
  queue_ok dev → packets_ok inputs →
  ∃ dev' log, feed dev inputs = Some (dev', log) ∧ queue_ok dev' ∧
    (unfinished dev', log) =
      reassemble_all (unfinished dev)
        ((λ x, drop (Z.to_nat HEADER_SIZE) x.2) <$> inputs) ∧
    queued dev' = lastn (Z.to_nat (MAX_FRAMES - 1)) (queued dev ++ log).
Proof.
  intros Hq Hall. revert dev Hq.
  induction Hall as [|[al pkt] inputs (Hal & Hmagic & Hfit) Hall IH]; intros dev Hq.
  - exists dev, []. simpl. split_and!; try done.
    unfold lastn. rewrite app_nil_r, length_queued.
    pose proof (queue_length_bounds dev). unfold MAX_FRAMES in *.
    by replace (Z.to_nat (queue_length dev) - Z.to_nat (12 - 1))%nat with 0%nat by lia.
  - simpl in Hal, Hmagic, Hfit.
    destruct (process_data_queue al dev pkt Hq Hfit)
      as (dev1 & Hpd & Hq1 & _ & Hqueue & Hlen & _).
    destruct (process_data_reassemble al dev pkt Hq Hfit Hmagic Hal)
      as (dev1' & Hpd' & Hre).
    assert (dev1' = dev1) as -> by congruence.
    destruct (IH dev1 Hq1) as (dev' & log & Hfeed & Hq' & Hre' & Hqueue').
    exists dev', (newly_completed dev dev1 ++ log).
    cbn [feed fmap list_fmap]. rewrite Hpd. cbn [mbind option_bind]. rewrite Hfeed.
    split; [done|]. split; [done|]. split.
    + cbn [reassemble_all]. simpl snd. rewrite <- Hre, <- Hre'. done.
    + rewrite Hqueue', Hqueue, queued_step_lastn by done.
      by rewrite lastn_app_lastn, <- app_assoc.
Qed.

Lemma capture_run_is_reassembler_witness :
  ∃ dev' log, feed session_started resync_run = Some (dev', log) ∧ queue_ok dev' ∧
    (unfinished dev', log) =
      reassemble_all (unfinished session_started)
        ((λ x, drop (Z.to_nat HEADER_SIZE) x.2) <$> resync_run) ∧
    queued dev' =
      lastn (Z.to_nat (MAX_FRAMES - 1)) (queued session_started ++ log).
Proof.
  apply capture_run_is_reassembler.
  - apply (bool_decide_unpack _). vm_compute. exact I.
  - apply (bool_decide_unpack _). vm_compute. exact I.
Defined.

(** In that run the tail of the lost frame is given up when the JPEG
    starts, the JPEG is completed whole, and the head of the next frame is
    gathered. *)
Example resync_example :
  reassemble_all [] ((λ x, drop (Z.to_nat HEADER_SIZE) x.2) <$> resync_run) =
    ([0xFF; 0xD8; 1; 2; 3], [small_jpeg]).
Proof. vm_compute. reflexivity. Qed.

(** ** The smoothing ring of the live viewer *)

Lemma viewer_slot_bounds v k : 0 ≤ viewer_slot v k < SMOOTHING_BUFFER_SIZE.
Proof. unfold viewer_slot, SMOOTHING_BUFFER_SIZE. apply Z.mod_pos_bound. lia. Qed.

Lemma viewer_slot_inj r j k :
  0 ≤ j < SMOOTHING_BUFFER_SIZE → 0 ≤ k < SMOOTHING_BUFFER_SIZE →
  (r + j) mod SMOOTHING_BUFFER_SIZE = (r + k) mod SMOOTHING_BUFFER_SIZE → j = k.
Proof. unfold SMOOTHING_BUFFER_SIZE. intros. Z.div_mod_to_equations. lia. Qed.

Lemma viewer_slot_zero r :
  0 ≤ r < SMOOTHING_BUFFER_SIZE → (r + 0) mod SMOOTHING_BUFFER_SIZE = r.
Proof. unfold SMOOTHING_BUFFER_SIZE. intros. Z.div_mod_to_equations. lia. Qed.

Lemma viewer_slot_full r :
  0 ≤ r < SMOOTHING_BUFFER_SIZE →
  (r + SMOOTHING_BUFFER_SIZE) mod SMOOTHING_BUFFER_SIZE = r.
Proof. unfold SMOOTHING_BUFFER_SIZE. intros. Z.div_mod_to_equations. lia. Qed.

Lemma viewer_slot_next r k :
  0 ≤ r < SMOOTHING_BUFFER_SIZE →
  (Z.rem (r + 1) SMOOTHING_BUFFER_SIZE + k) mod SMOOTHING_BUFFER_SIZE =
  (r + (k + 1)) mod SMOOTHING_BUFFER_SIZE.
Proof.
  intros. rewrite Z.rem_mod_nonneg by (unfold SMOOTHING_BUFFER_SIZE; lia).
  unfold SMOOTHING_BUFFER_SIZE. Z.div_mod_to_equations. lia.
Qed.

Lemma viewer_pos_next r :
  0 ≤ r < SMOOTHING_BUFFER_SIZE →
  0 ≤ Z.rem (r + 1) SMOOTHING_BUFFER_SIZE < SMOOTHING_BUFFER_SIZE.
Proof.
  intros. rewrite Z.rem_mod_nonneg by (unfold SMOOTHING_BUFFER_SIZE; lia).
  apply Z.mod_pos_bound. unfold SMOOTHING_BUFFER_SIZE. lia.
Qed.

Lemma ring_slot_Some v i :
  length (g_frame_ring v) = Z.to_nat SMOOTHING_BUFFER_SIZE →
  0 ≤ i < SMOOTHING_BUFFER_SIZE →
  ∃ s, ring_slot v i = Some s ∧ g_frame_ring v !! Z.to_nat i = Some s.
Proof.
  intros Hlen Hi. unfold ring_slot.
  destruct (0 <=? i) eqn:H0; [|lia].
  destruct (lookup_lt_is_Some_2 (g_frame_ring v) (Z.to_nat i)) as [s Hs]; [lia|].
  by exists s.
Qed.

Lemma ring_slot_insert v v' i s j :
  g_frame_ring v' = <[Z.to_nat i := s]> (g_frame_ring v) →
  length (g_frame_ring v) = Z.to_nat SMOOTHING_BUFFER_SIZE →
  0 ≤ i < SMOOTHING_BUFFER_SIZE → 0 ≤ j →
  ring_slot v' j = if decide (j = i) then Some s else ring_slot v j.
Proof.
  intros Hring Hlen Hi Hj. unfold ring_slot. rewrite Hring.
  destruct (0 <=? j) eqn:H0; [|lia].
  destruct (decide (j = i)) as [->|Hne].
  - apply list_lookup_insert_eq. lia.
  - apply list_lookup_insert_ne. lia.
Qed.

Lemma viewer_ok_sizes cap v i s :
  viewer_ok cap v → g_frame_ring v !! i = Some s →
  Z.of_nat (length (slot_data s)) = cap ∧ 0 ≤ slot_size s ≤ cap.
Proof.
  intros (_ & _ & _ & _ & _ & Hsz & _) Hs.
  by apply (proj1 (Forall_lookup _ _) Hsz i s).
Qed.

Lemma viewer_ok_filled cap v k :
  viewer_ok cap v → 0 ≤ k < SMOOTHING_BUFFER_SIZE →
  filled <$> ring_slot v (viewer_slot v k) =
    Some (bool_decide (k < g_buffer_fill_level v)).
Proof.
  intros (_ & _ & _ & _ & _ & _ & Hf) Hk.
  apply (proj1 (Forall_seqZ _ _ _) Hf k). lia.
Qed.

Lemma slot_frame_copied (dst src : list Z) n d :
  memcpy dst 0 src n = Some d →
  slot_frame (mk_slot d n true) = take (Z.to_nat n) src.
Proof.
  intros (Hn & Hd & ->)%memcpy_front. unfold slot_frame. simpl.
  rewrite take_app_le by (rewrite length_take; lia).
  rewrite take_ge; [done|]. rewrite length_take. lia.
Qed.

Lemma memcpy_fits (dst src : list Z) n :
  0 ≤ n → n ≤ Z.of_nat (length src) → n ≤ Z.of_nat (length dst) →
  ∃ d, memcpy dst 0 src n = Some d ∧ length d = length dst ∧
    take (Z.to_nat n) d = take (Z.to_nat n) src.
Proof.
  intros H0 Hs Hd. destruct (memcpy dst 0 src n) as [d|] eqn:E.
  - exists d. split; [done|].
    apply memcpy_front in E as (_ & _ & ->). split.
    + rewrite length_app, length_take, length_drop. lia.
    + rewrite take_app_le by (rewrite length_take; lia).
      rewrite take_ge; [done|]. rewrite length_take. lia.
  - exfalso. revert E. unfold memcpy, bytes_at.
    destruct ((0 <=? 0) && (0 <=? n) && (0 + n <=? Z.of_nat (length src))) eqn:Hsrc;
      [|lia].
    destruct ((0 <=? 0) && (0 + n <=? Z.of_nat (length dst))) eqn:Hdst; [done|lia].
Qed.

Lemma add_frame_writes cap v temp n :
  viewer_ok cap v → 0 ≤ n ≤ cap → n ≤ MAX_FRAME_SIZE →
  n ≤ Z.of_nat (length temp) →
  ∃ v' d, add_frame v temp n = Some v' ∧
    g_frame_ring v' =
      <[Z.to_nat (g_write_pos v) := mk_slot d n true]> (g_frame_ring v) ∧
    Z.of_nat (length d) = cap ∧
    slot_frame (mk_slot d n true) = take (Z.to_nat n) temp ∧
    g_write_pos v' = Z.rem (g_write_pos v + 1) SMOOTHING_BUFFER_SIZE ∧
    g_read_pos v' = g_read_pos v ∧
    g_display_buffer v' = g_display_buffer v ∧
    g_display_size v' = g_display_size v ∧
    g_buffer_fill_level v' =
      (if g_buffer_fill_level v <? SMOOTHING_BUFFER_SIZE
       then g_buffer_fill_level v + 1 else g_buffer_fill_level v).
Proof.
  intros Hok Hn Hmax Htemp.
  pose proof Hok as (Hlen & Hr & Hl & Hw & Hdisp & Hsz & Hf).
  unfold add_frame. destruct (n <=? MAX_FRAME_SIZE) eqn:Hle; [|lia].
  destruct (ring_slot_Some v (g_write_pos v) Hlen) as (s & -> & Hs).
  { rewrite Hw. apply viewer_slot_bounds. }
  destruct (viewer_ok_sizes _ _ _ _ Hok Hs) as [Hdata _].
  destruct (memcpy_fits (slot_data s) temp n) as (d & Hd & Hdlen & _); [lia..|].
  cbn [mbind option_bind]. rewrite Hd. cbn [mbind option_bind].
  eexists _, d. split; [reflexivity|]. simpl.
  split_and!; try done; [lia|].
  by eapply slot_frame_copied.
Qed.

(** X19.  The live viewer buffers the frames in their order: when a frame
    of at most as many bytes as a block holds arrives while fewer than
    [SMOOTHING_BUFFER_SIZE] frames wait, [CameraReadThread] appends it
    behind the waiting ones, and leaves the displayed frame alone. *)
Theorem viewer_appends_frame cap v temp n :
  viewer_ok cap v → g_buffer_fill_level v < SMOOTHING_BUFFER_SIZE →
  0 ≤ n ≤ cap → n ≤ MAX_FRAME_SIZE → n ≤ Z.of_nat (length temp) →
  ∃ v', add_frame v temp n = Some v' ∧ viewer_ok cap v' ∧
    buffered v' = buffered v ++ [take (Z.to_nat n) temp] ∧
    g_display_buffer v' = g_display_buffer v ∧
    g_display_size v' = g_display_size v.
Proof.
  intros Hok Hroom Hn Hmax Htemp.
  destruct (add_frame_writes cap v temp n Hok Hn Hmax Htemp)
    as (v' & d & Hadd & Hring & Hdlen & Hframe & Hw' & Hr' & Hdb & Hds & Hl').
  pose proof Hok as (Hlen & Hr & Hl & Hw & Hdisp & Hsz & Hf).
  destruct (g_buffer_fill_level v <? SMOOTHING_BUFFER_SIZE) eqn:Hlt; [|lia].
  assert (Hwb : 0 ≤ g_write_pos v < SMOOTHING_BUFFER_SIZE).
  { rewrite Hw. apply viewer_slot_bounds. }
  assert (Hslot : ∀ k, 0 ≤ k < SMOOTHING_BUFFER_SIZE →
    ring_slot v' (viewer_slot v' k) =
      if decide (k = g_buffer_fill_level v) then Some (mk_slot d n true)
      else ring_slot v (viewer_slot v k)).
  { intros k Hk.
    rewrite (ring_slot_insert v v' _ _ _ Hring Hlen Hwb)
      by apply viewer_slot_bounds.
    replace (viewer_slot v' k) with (viewer_slot v k)
      by (unfold viewer_slot; by rewrite Hr').
    destruct (decide (k = g_buffer_fill_level v)) as [->|Hne].
    - rewrite decide_True; [done|]. by rewrite Hw.
    - rewrite decide_False; [done|]. rewrite Hw. unfold viewer_slot.
      intros Heq. apply viewer_slot_inj in Heq; lia. }
  exists v'. split_and!; try done.
  - unfold viewer_ok. rewrite Hring, length_insert, Hr', Hl', Hw', Hdb.
    split_and!; try done; try lia.
    + unfold viewer_slot. rewrite Hr', Hw.
      rewrite Z.rem_mod_nonneg
        by (pose proof (viewer_slot_bounds v (g_buffer_fill_level v));
            unfold SMOOTHING_BUFFER_SIZE in *; lia).
      unfold viewer_slot, SMOOTHING_BUFFER_SIZE. Z.div_mod_to_equations. lia.
    + apply Forall_insert; [done|]. simpl. lia.
    + apply Forall_seqZ. intros k Hk. rewrite Hslot by lia.
      destruct (decide (k = g_buffer_fill_level v)) as [->|Hne].
      * simpl. f_equal. symmetry. apply bool_decide_eq_true. lia.
      * rewrite (viewer_ok_filled cap v k Hok) by lia. f_equal.
        apply bool_decide_ext. lia.
  - unfold buffered. rewrite Hl', seqZ_app by lia. rewrite fmap_app.
    f_equal.
    + apply Forall_fmap_ext_1, Forall_seqZ. intros k Hk.
      rewrite Hslot by lia. by rewrite decide_False by lia.
    + change (seqZ (0 + g_buffer_fill_level v) 1)
        with [0 + g_buffer_fill_level v].
      simpl. rewrite Hslot by lia. rewrite decide_True by lia. simpl.
      by rewrite Hframe.
Qed.

Lemma take_frame_reads v s :
  length (g_frame_ring v) = Z.to_nat SMOOTHING_BUFFER_SIZE →
  0 ≤ g_read_pos v < SMOOTHING_BUFFER_SIZE →
  0 < g_buffer_fill_level v →
  g_frame_ring v !! Z.to_nat (g_read_pos v) = Some s → filled s = true →
  0 ≤ slot_size s ≤ Z.of_nat (length (slot_data s)) →
  slot_size s ≤ Z.of_nat (length (g_display_buffer v)) →
  ∃ v', take_frame v = Some (v', slot_size s, true) ∧
    g_frame_ring v' =
      <[Z.to_nat (g_read_pos v) := mk_slot (slot_data s) (slot_size s) false]>
        (g_frame_ring v) ∧
    g_write_pos v' = g_write_pos v ∧
    g_read_pos v' = Z.rem (g_read_pos v + 1) SMOOTHING_BUFFER_SIZE ∧
    length (g_display_buffer v') = length (g_display_buffer v) ∧
    take (Z.to_nat (slot_size s)) (g_display_buffer v') = slot_frame s ∧
    g_display_size v' = slot_size s ∧
    g_buffer_fill_level v' = g_buffer_fill_level v - 1.
Proof.
  intros Hlen Hr Hl Hs Hfilled Hsize Hdisp.
  unfold take_frame, ring_slot.
  destruct (0 <? g_buffer_fill_level v) eqn:Hlt; [|lia].
  destruct (0 <=? g_read_pos v) eqn:H0; [|lia].
  rewrite Hs. cbn [fmap option_fmap option_map mbind option_bind].
  rewrite Hfilled. cbn [mbind option_bind].
  destruct (memcpy_fits (g_display_buffer v) (slot_data s) (slot_size s))
    as (d & -> & Hdlen & Hd); [lia..|].
  cbn [mbind option_bind]. eexists. split; [reflexivity|]. simpl.
  split_and!; try done.
Qed.

Lemma buffered_after_take v v' s :
  length (g_frame_ring v) = Z.to_nat SMOOTHING_BUFFER_SIZE →
  0 ≤ g_read_pos v < SMOOTHING_BUFFER_SIZE →
  0 < g_buffer_fill_level v ≤ SMOOTHING_BUFFER_SIZE →
  g_frame_ring v' = <[Z.to_nat (g_read_pos v) := s]> (g_frame_ring v) →
  g_read_pos v' = Z.rem (g_read_pos v + 1) SMOOTHING_BUFFER_SIZE →
  g_buffer_fill_level v' = g_buffer_fill_level v - 1 →
  buffered v' = drop 1 (buffered v).
Proof.
  intros Hlen Hr Hl Hring Hr' Hl'. unfold buffered.
  rewrite Hl', (seqZ_cons 0 (g_buffer_fill_level v)) by lia.
  rewrite fmap_cons. cbn [drop].
  change (Z.succ 0) with (1 + 0). rewrite <- fmap_add_seqZ, <- list_fmap_compose.
  replace (Z.pred (g_buffer_fill_level v)) with (g_buffer_fill_level v - 1)
    by lia.
  apply Forall_fmap_ext_1, Forall_seqZ. intros k Hk. unfold compose.
  rewrite (ring_slot_insert v v' _ _ _ Hring Hlen Hr)
    by apply viewer_slot_bounds.
  replace (viewer_slot v' k) with (viewer_slot v (1 + k)).
  2:{ unfold viewer_slot. rewrite Hr', viewer_slot_next by done.
      f_equal. lia. }
  rewrite decide_False; [done|].
  unfold viewer_slot. rewrite <- (viewer_slot_zero (g_read_pos v)) at 2 by done.
  intros Heq. apply viewer_slot_inj in Heq; lia.
Qed.

Lemma viewer_appends_frame_witness :
  ∃ v', add_frame three_waiting [9; 9; 9; 9] 3 = Some v' ∧ viewer_ok 4 v' ∧
    buffered v' = buffered three_waiting ++ [take (Z.to_nat 3) [9; 9; 9; 9]] ∧
    g_display_buffer v' = g_display_buffer three_waiting ∧
    g_display_size v' = g_display_size three_waiting.
Proof.
  apply (viewer_appends_frame 4).
  - apply (bool_decide_unpack _). vm_compute. exact I.
  - vm_compute. reflexivity.
  - lia.
  - vm_compute. discriminate.
  - vm_compute. discriminate.
Defined.

(** X20.  The paint handler of the live viewer takes the oldest waiting
    frame: it copies it to the front of the display buffer, reports its
    length, and leaves the other frames waiting in their order.  When no
    frame waits it changes nothing and reports the length of the frame it
    displayed last. *)
Theorem viewer_displays_oldest cap v :
  viewer_ok cap v →
  ∃ v' n got, take_frame v = Some (v', n, got) ∧ viewer_ok cap v' ∧
    match buffered v with
    | [] => got = false ∧ v' = v ∧ n = g_display_size v
    | F :: rest =>
        got = true ∧ n = Z.of_nat (length F) ∧ g_display_size v' = n ∧
        take (Z.to_nat n) (g_display_buffer v') = F ∧ buffered v' = rest
    end.
Proof.
  intros Hok.
  pose proof Hok as (Hlen & Hr & Hl & Hw & Hdisp & Hsz & Hf).
  destruct (decide (g_buffer_fill_level v = 0)) as [Hzero|Hpos].
  { exists v, (g_display_size v), false. unfold take_frame, buffered.
    rewrite Hzero. simpl. done. }
  destruct (ring_slot_Some v (g_read_pos v) Hlen Hr) as (s & Hslot & Hs).
  destruct (viewer_ok_sizes _ _ _ _ Hok Hs) as [Hdata Hsize].
  assert (Hfilled : filled s = true).
  { pose proof (viewer_ok_filled cap v 0 Hok) as H0.
    unfold viewer_slot in H0. rewrite viewer_slot_zero, Hslot in H0 by done.
    simpl in H0. rewrite bool_decide_true in H0 by lia.
    injection H0 as ->; [done|]. unfold SMOOTHING_BUFFER_SIZE. lia. }
  destruct (take_frame_reads v s) as
    (v' & Htake & Hring & Hw' & Hr' & Hdlen & Hd & Hds & Hl'); try done; try lia.
  assert (Hbuf : buffered v = slot_frame s :: buffered v').
  { rewrite (buffered_after_take v v' _ Hlen Hr) by (done || lia).
    unfold buffered. rewrite (seqZ_cons 0 (g_buffer_fill_level v)) by lia.
    rewrite fmap_cons. simpl. rewrite drop_0. f_equal.
    unfold viewer_slot. by rewrite viewer_slot_zero, Hslot by done. }
  exists v', (slot_size s), true. split; [done|]. split.
  - unfold viewer_ok. rewrite Hring, length_insert, Hr', Hl', Hw', Hdlen.
    split_and!; try done; try lia; try (by apply viewer_pos_next).
    + unfold viewer_slot. rewrite Hr', viewer_slot_next, Hw by done.
      unfold viewer_slot. f_equal. lia.
    + apply Forall_insert; [done|]. simpl. lia.
    + apply Forall_seqZ. intros k Hk.
      rewrite (ring_slot_insert v v' _ _ _ Hring Hlen Hr)
        by apply viewer_slot_bounds.
      replace (viewer_slot v' k) with (viewer_slot v (k + 1))
        by (unfold viewer_slot; by rewrite Hr', viewer_slot_next).
      destruct (decide (k = SMOOTHING_BUFFER_SIZE - 1)) as [->|Hne].
      * rewrite decide_True.
        2:{ unfold viewer_slot.
            replace (SMOOTHING_BUFFER_SIZE - 1 + 1) with SMOOTHING_BUFFER_SIZE
              by lia.
            by apply viewer_slot_full. }
        simpl. f_equal. symmetry. apply bool_decide_eq_false. lia.
      * rewrite decide_False.
        2:{ unfold viewer_slot.
            rewrite <- (viewer_slot_zero (g_read_pos v)) at 2 by done.
            intros Heq. apply viewer_slot_inj in Heq; lia. }
        rewrite (viewer_ok_filled cap v (k + 1) Hok) by lia. f_equal.
        apply bool_decide_ext. lia.
  - rewrite Hbuf. split_and!; try done.
    unfold slot_frame. rewrite length_take. lia.
Qed.

Lemma viewer_displays_oldest_witness :
  ∃ v' n got, take_frame three_waiting = Some (v', n, got) ∧ viewer_ok 4 v' ∧
    match buffered three_waiting with
    | [] => got = false ∧ v' = three_waiting ∧ n = g_display_size three_waiting
    | F :: rest =>
        got = true ∧ n = Z.of_nat (length F) ∧ g_display_size v' = n ∧
        take (Z.to_nat n) (g_display_buffer v') = F ∧ buffered v' = rest
    end.
Proof.
  apply (viewer_displays_oldest 4).
  apply (bool_decide_unpack _). vm_compute. exact I.
Defined.

(** X21.  A frame that arrives while [SMOOTHING_BUFFER_SIZE] frames wait
    in the live viewer takes the place of the oldest of them, at the head
    of the queue: the next paint displays the frame that arrived last, and
    the eleven frames that arrived before it still wait behind it. *)
Theorem viewer_overflow_shows_newest cap v temp n :
  viewer_ok cap v → g_buffer_fill_level v = SMOOTHING_BUFFER_SIZE →
  0 ≤ n ≤ cap → n ≤ MAX_FRAME_SIZE → n ≤ Z.of_nat (length temp) →
  ∃ v' v'', add_frame v temp n = Some v' ∧
    buffered v' = take (Z.to_nat n) temp :: drop 1 (buffered v) ∧
    take_frame v' = Some (v'', n, true) ∧
    take (Z.to_nat n) (g_display_buffer v'') = take (Z.to_nat n) temp ∧
    buffered v'' = drop 1 (buffered v).
Proof.
  intros Hok Hfull Hn Hmax Htemp.
  destruct (add_frame_writes cap v temp n Hok Hn Hmax Htemp)
    as (v' & d & Hadd & Hring & Hdlen & Hframe & Hw' & Hr' & Hdb & Hds & Hl').
  pose proof Hok as (Hlen & Hr & Hl & Hw & Hdisp & Hsz & Hf).
  destruct (g_buffer_fill_level v <? SMOOTHING_BUFFER_SIZE) eqn:Hlt; [lia|].
  assert (Hwr : g_write_pos v = g_read_pos v).
  { rewrite Hw, Hfull. by apply viewer_slot_full. }
  rewrite Hwr in Hring.
  assert (Hlen' : length (g_frame_ring v') = Z.to_nat SMOOTHING_BUFFER_SIZE).
  { by rewrite Hring, length_insert. }
  assert (Hs' : g_frame_ring v' !! Z.to_nat (g_read_pos v') =
                Some (mk_slot d n true)).
  { rewrite Hr', Hring. apply list_lookup_insert_eq. lia. }
  assert (Hbuf' : buffered v' = take (Z.to_nat n) temp :: drop 1 (buffered v)).
  { unfold buffered. rewrite Hl', Hfull.
    rewrite (seqZ_cons 0 SMOOTHING_BUFFER_SIZE) by done.
    rewrite !fmap_cons. cbn [drop]. f_equal.
    - unfold viewer_slot. rewrite Hr', viewer_slot_zero by done.
      rewrite (ring_slot_insert v v' _ _ _ Hring Hlen Hr) by lia.
      rewrite decide_True by done. simpl. by rewrite Hframe.
    - apply Forall_fmap_ext_1, Forall_seqZ. intros k Hk.
      rewrite (ring_slot_insert v v' _ _ _ Hring Hlen Hr)
        by apply viewer_slot_bounds.
      replace (viewer_slot v' k) with (viewer_slot v k)
        by (unfold viewer_slot; by rewrite Hr').
      rewrite decide_False; [done|].
      unfold viewer_slot.
      rewrite <- (viewer_slot_zero (g_read_pos v)) at 2 by done.
      intros Heq. apply viewer_slot_inj in Heq; unfold SMOOTHING_BUFFER_SIZE in *; lia. }
  destruct (take_frame_reads v' (mk_slot d n true)) as
    (v'' & Htake & Hring'' & _ & Hr'' & _ & Hd'' & _ & Hl''); simpl;
    try done; try lia.
  all: try (rewrite ?Hr', ?Hl', ?Hdb; done || lia).
  exists v', v''. split_and!; try done.
  - simpl in Hd''. by rewrite Hd'', Hframe.
  - rewrite (buffered_after_take v' v'' _ Hlen') by (done || lia).
    by rewrite Hbuf'.
Qed.

Lemma viewer_overflow_shows_newest_witness :
  ∃ v' v'', add_frame full_viewer [13; 13; 13] 3 = Some v' ∧
    buffered v' = take (Z.to_nat 3) [13; 13; 13] :: drop 1 (buffered full_viewer) ∧
    take_frame v' = Some (v'', 3, true) ∧
    take (Z.to_nat 3) (g_display_buffer v'') = take (Z.to_nat 3) [13; 13; 13] ∧
    buffered v'' = drop 1 (buffered full_viewer).
Proof.
  apply (viewer_overflow_shows_newest 4).
  - apply (bool_decide_unpack _). vm_compute. exact I.
  - vm_compute. reflexivity.
  - lia.
  - vm_compute. discriminate.
  - vm_compute. discriminate.
Defined.

(** The thirteenth frame is displayed first, the second to the twelfth
    after it; the first is lost. *)
Example viewer_overflow_example :
  buffered full_viewer = (λ k, replicate 3 k) <$> seqZ 1 12 ∧
  (v' ← add_frame full_viewer [13; 13; 13] 3;
   '(v'', n, _) ← take_frame v';
   Some (take (Z.to_nat n) (g_display_buffer v''), buffered v'')) =
  Some ([13; 13; 13], (λ k, replicate 3 k) <$> seqZ 2 11).
Proof. split; vm_compute; reflexivity. Qed.
